(** * copy-for-llm.js: the page-to-text extraction, embedded and verified

    The development follows [src/scripts/copy-for-llm.js].

    - Part I embeds the JavaScript string primitives the script relies on.
    - Part II is a DOM with object identity: a heap that holds the live
      document and the detached trees, elements named by their identity.
    - Part III is the function [extractPageText], statement by statement,
      as a function from the heap and the page URL to the returned text
      and the heap the call leaves, followed by [createButton] as a
      function on the tree of the page.
    - Part IV gathers the notions the statements are written with, and
      the sample pages.
    - Parts V to IX are the proofs: strings, the result of the call, the
      heap and what the call touches, the tree walk, and the cleaning
      phases as passes over the clone.
    - Part X has further properties of the extraction, rule by rule, and
      of [createButton]. *)

From Stdlib Require Import String Ascii List Bool Arith Lia DecimalString.
Import ListNotations.
Open Scope string_scope.
Open Scope list_scope.
Open Scope nat_scope.
Set Warnings "-register-all".

(* ================================================================== *)
(** * Part I: JavaScript strings *)
(* ================================================================== *)

(** Strings are sequences of code units; the embedding keeps the code units
    below 256.  ["\n"] is the single character LF. *)
Definition LF : ascii := "010"%char.
Definition NL : string := String LF "".

Definition is_newline (c : ascii) : bool := Ascii.eqb c LF.

(** White space and line terminators removed by [String.prototype.trim],
    restricted to the code units below 256: TAB, LF, VT, FF, CR, SP, NBSP. *)
Definition is_space (c : ascii) : bool :=
  existsb (Ascii.eqb c)
    ["009"; "010"; "011"; "012"; "013"; " "; "160"]%char.

Arguments is_newline : simpl never.
Arguments is_space : simpl never.

Fixpoint trimStart (s : string) : string :=
  match s with
  | "" => ""
  | String c s' => if is_space c then trimStart s' else s
  end.

Fixpoint trimEnd (s : string) : string :=
  match s with
  | "" => ""
  | String c s' =>
      match trimEnd s' with
      | "" => if is_space c then "" else String c ""
      | r => String c r
      end
  end.

(** [s.trim()] *)
Definition trim (s : string) : string := trimEnd (trimStart s).

(** Truthiness of a string: only the empty string is falsy. *)
Definition truthy (s : string) : bool := negb (s =? "")%string.

(** [lines.join(sep)] *)
Definition join (sep : string) (l : list string) : string := String.concat sep l.

(** [s.split(c)] for a one-character separator recognised by [p]. *)
Fixpoint split_on (p : ascii -> bool) (s : string) : list string :=
  match s with
  | "" => [""]
  | String c s' =>
      if p c then "" :: split_on p s'
      else match split_on p s' with
           | [] => [String c ""]
           | w :: ws => String c w :: ws
           end
  end.

(** [s.repeat(n)] *)
Fixpoint repeat_string (s : string) (n : nat) : string :=
  match n with
  | 0 => ""
  | S k => s ++ repeat_string s k
  end.

(** The pending run of [k] newlines as [replace(/\n{3,}/g, "\n\n")] leaves
    it: shorter runs are kept, a run of three or more becomes two. *)
Definition emit_newlines (k : nat) : string :=
  if (k <? 3)%nat then repeat_string NL k else NL ++ NL.

(** [s.replace(/\n{3,}/g, "\n\n")]: the quantifier is greedy, so each
    maximal run of newlines is one match.  [k] counts the newlines of the
    run being read. *)
Fixpoint collapse_from (k : nat) (s : string) : string :=
  match s with
  | "" => emit_newlines k
  | String c s' =>
      if is_newline c then collapse_from (S k) s'
      else emit_newlines k ++ String c (collapse_from 0 s')
  end.

Definition collapse_newlines (s : string) : string := collapse_from 0 s.

(** [c.toLowerCase()] on the letters A-Z. *)
Definition lower_char (c : ascii) : ascii :=
  let n := nat_of_ascii c in
  if ((65 <=? n) && (n <=? 90))%nat then ascii_of_nat (n + 32) else c.

Fixpoint toLowerCase (s : string) : string :=
  match s with
  | "" => ""
  | String c s' => String (lower_char c) (toLowerCase s')
  end.

(** The regular-expression class [\w]. *)
Definition is_word (c : ascii) : bool :=
  let n := nat_of_ascii c in
  (((48 <=? n) && (n <=? 57)) || ((65 <=? n) && (n <=? 90))
   || ((97 <=? n) && (n <=? 122)) || (n =? 95))%nat.

Fixpoint take_word (s : string) : string :=
  match s with
  | "" => ""
  | String c s' => if is_word c then String c (take_word s') else ""
  end.

Fixpoint strip_prefix (p s : string) : option string :=
  match p, s with
  | "", _ => Some s
  | String a p', String b s' => if Ascii.eqb a b then strip_prefix p' s' else None
  | String _ _, "" => None
  end.

(** [cls.match(/language-(\w+)/)]: the capture group of the leftmost
    match, when there is one. *)
Fixpoint match_language (cls : string) : option string :=
  match cls with
  | "" => None
  | String _ rest =>
      match strip_prefix "language-" cls with
      | Some after =>
          match take_word after with
          | "" => match_language rest
          | w => Some w
          end
      | None => match_language rest
      end
  end.

(** [/^h[2-6]$/.test(tag)] together with [parseInt(tag[1], 10)]. *)
Definition heading_level (tag : string) : option nat :=
  match tag with
  | String "h" (String d "") =>
      let n := nat_of_ascii d in
      if ((50 <=? n) && (n <=? 54))%nat then Some (n - 48) else None
  | _ => None
  end.

(** Number-to-string conversion of a non-negative integer. *)
Definition string_of_nat (n : nat) : string :=
  NilEmpty.string_of_uint (Nat.to_uint n).

(** [s] begins, respectively ends, with a character that [trim] keeps. *)
Definition starts_solid (s : string) : bool :=
  match s with
  | "" => false
  | String c _ => negb (is_space c)
  end.

Fixpoint ends_solid (s : string) : bool :=
  match s with
  | "" => false
  | String c "" => negb (is_space c)
  | String _ s' => ends_solid s'
  end.

Fixpoint all_space (s : string) : bool :=
  match s with
  | "" => true
  | String c s' => is_space c && all_space s'
  end.

Definition starts_newline (s : string) : bool :=
  match s with
  | "" => false
  | String c _ => is_newline c
  end.

Fixpoint ends_newline (s : string) : bool :=
  match s with
  | "" => false
  | String c "" => is_newline c
  | String _ s' => ends_newline s'
  end.

(** No run of three newlines in [s], when [k] newlines come just before. *)
Fixpoint triple_free (k : nat) (s : string) : bool :=
  match s with
  | "" => true
  | String c s' =>
      if is_newline c then (k <? 2) && triple_free (S k) s'
      else triple_free 0 s'
  end.

(** [s] has no newline; [c] occurs in [s]. *)
Fixpoint no_newline (s : string) : bool :=
  match s with
  | "" => true
  | String c s' => negb (is_newline c) && no_newline s'
  end.

Fixpoint has_char (c : ascii) (s : string) : bool :=
  match s with
  | "" => false
  | String d s' => Ascii.eqb c d || has_char c s'
  end.

(** Substring and prefix, as propositions on the extraction result. *)
Definition Substring (a s : string) : Prop :=
  exists p q : string, s = (p ++ a ++ q)%string.

Definition Prefix (a s : string) : Prop :=
  exists q : string, s = (a ++ q)%string.


(* ================================================================== *)
(** * Part II: the DOM *)
(* ================================================================== *)

(** Attributes of an element, by (lower-case) name. *)
Definition attrs : Type := list (string * string).

(** A node is a text node, an element, or a node of another type (comment,
    processing instruction, ...), for which [nodeType] is neither
    [TEXT_NODE] nor [ELEMENT_NODE].  [uid] is the identity of the element
    object: two references denote the same element when their [uid]s are
    equal. *)
Inductive node : Type :=
| Text (data : string)
| Other (data : string)
| Element (uid : nat) (tagName : string) (attributes : attrs)
          (childNodes : list node).

Definition is_element (n : node) : bool :=
  match n with Element _ _ _ _ => true | _ => false end.

Definition uid_of (n : node) : nat :=
  match n with Element i _ _ _ => i | _ => 0 end.

Definition tagName_of (n : node) : string :=
  match n with Element _ t _ _ => t | _ => "" end.

(** [node.tagName.toLowerCase()] *)
Definition tag_of (n : node) : string := toLowerCase (tagName_of n).

Definition attributes_of (n : node) : attrs :=
  match n with Element _ _ a _ => a | _ => [] end.

Definition childNodes_of (n : node) : list node :=
  match n with Element _ _ _ cs => cs | _ => [] end.

(** [node.children]: the child nodes that are elements. *)
Definition children_of (n : node) : list node :=
  filter is_element (childNodes_of n).

(** [el.getAttribute(name)] *)
Fixpoint getAttribute (name : string) (a : attrs) : option string :=
  match a with
  | [] => None
  | (k, v) :: a' => if (k =? name)%string then Some v else getAttribute name a'
  end.

(** [el.removeAttribute(name)], on the attribute list. *)
Definition removeAttribute (name : string) (a : attrs) : attrs :=
  filter (fun kv => negb (fst kv =? name)%string) a.

(** The name of a CSS declaration [name: value]. *)
Fixpoint declaration_name (d : string) : string :=
  match d with
  | "" => ""
  | String c d' => if Ascii.eqb c ":" then "" else String c (declaration_name d')
  end.

(** [el.style.removeProperty(prop)], on the attribute list: the declaration
    of [prop] leaves the inline style.  The re-serialisation of the style
    attribute is kept simple (declarations separated by [;]); the
    extraction never reads the attribute. *)
Definition style_removeProperty (prop : string) (a : attrs) : attrs :=
  map (fun kv : string * string =>
         if (fst kv =? "style")%string
         then (fst kv,
               join ";" (filter (fun d => negb (toLowerCase (trim (declaration_name d)) =? prop)%string)
                                (split_on (Ascii.eqb ";") (snd kv))))
         else kv) a.

(** [el.className]: the class attribute, the empty string when absent. *)
Definition className (n : node) : string :=
  match getAttribute "class" (attributes_of n) with
  | Some c => c
  | None => ""
  end.

(** ASCII white space separating the tokens of a class attribute. *)
Definition is_ascii_space (c : ascii) : bool :=
  existsb (Ascii.eqb c) ["009"; "010"; "012"; "013"; " "]%char.

(** [el.classList] *)
Definition classList (n : node) : list string :=
  filter truthy (split_on is_ascii_space (className n)).

(** [node.textContent]: the data of a text node; for an element, the data
    of its text descendants in tree order. *)
Fixpoint textContent (n : node) : string :=
  match n with
  | Text s => s
  | Other _ => ""
  | Element _ _ _ cs => String.concat "" (map textContent cs)
  end.

(** The elements of the subtree of [n], [n] included, in tree order. *)
Fixpoint subtree (n : node) : list node :=
  match n with
  | Element _ _ _ cs => n :: flat_map subtree cs
  | _ => []
  end.

(** The elements strictly below [n], in tree order. *)
Definition descendants (n : node) : list node :=
  flat_map subtree (childNodes_of n).

(** ** Selectors *)

(** The compound selectors the script uses: a type selector, a class
    selector, an attribute selector with a value. *)
Inductive compound : Type :=
| ByTag (t : string)
| ByClass (c : string)
| ByAttr (name value : string).

(** A selector is a compound selector, a descendant combination [a c] or
    a group [c1, c2]. *)
Inductive selector : Type :=
| Sel (c : compound)
| Within (a c : compound)
| Either (c1 c2 : compound).

Definition matches (c : compound) (n : node) : bool :=
  is_element n &&
  match c with
  | ByTag t => (tag_of n =? t)%string
  | ByClass k => existsb (String.eqb k) (classList n)
  | ByAttr name value =>
      match getAttribute name (attributes_of n) with
      | Some v => (v =? value)%string
      | None => false
      end
  end.

(** The elements of the subtree of [n] that match [c] and have an ancestor
    matching [a]; [inside] tells whether an ancestor of [n] matches [a]. *)
Fixpoint select_within (a c : compound) (inside : bool) (n : node) : list node :=
  match n with
  | Element _ _ _ cs =>
      (if inside && matches c n then [n] else [])
      ++ flat_map (select_within a c (inside || matches a n)) cs
  | _ => []
  end.

(** The elements of the subtree of [n], [n] included, selected by [s]. *)
Definition select (s : selector) (n : node) : list node :=
  match s with
  | Sel c => filter (matches c) (subtree n)
  | Within a c => select_within a c false n
  | Either c1 c2 => filter (fun e => matches c1 e || matches c2 e) (subtree n)
  end.

(** [el.querySelectorAll(s)]: the matching elements strictly below [el].
    The script applies it with compound selectors and groups only. *)
Definition querySelectorAll (s : selector) (el : node) : list node :=
  flat_map (select s) (childNodes_of el).

(** [el.querySelector(s)] *)
Definition querySelector (s : selector) (el : node) : option node :=
  hd_error (querySelectorAll s el).

(** ** The heap: the live document and the detached trees *)

Record heap : Type := mkHeap {
  documentElement : node;       (* the tree of the live page *)
  detached : list node          (* trees that belong to no document *)
}.

Definition trees (h : heap) : list node := documentElement h :: detached h.

(** [document.querySelector(s)]: the document element itself is a candidate. *)
Definition document_querySelector (s : selector) (h : heap) : option node :=
  hd_error (select s (documentElement h)).

(** [document.getElementById(id)] *)
Definition document_getElementById (id : string) (h : heap) : option node :=
  find (fun e => match getAttribute "id" (attributes_of e) with
                 | Some v => (v =? id)%string
                 | None => false
                 end)
       (subtree (documentElement h)).

(** The element with identity [i] in a tree, and in the heap. *)
Definition find_uid (i : nat) (n : node) : option node :=
  find (fun e => uid_of e =? i) (subtree n).

Fixpoint deref_in (i : nat) (ts : list node) : option node :=
  match ts with
  | [] => None
  | t :: ts' =>
      match find_uid i t with
      | Some e => Some e
      | None => deref_in i ts'
      end
  end.

Definition deref (i : nat) (h : heap) : option node := deref_in i (trees h).

(** The largest identity in use. *)
Fixpoint max_uid (n : node) : nat :=
  match n with
  | Element i _ _ cs => Nat.max i (list_max (map max_uid cs))
  | _ => 0
  end.

Definition fresh (h : heap) : nat := S (list_max (map max_uid (trees h))).

(** A deep copy of [n] whose elements are new objects: they take the
    identities [next], [next + 1], ... in tree order.  Returns the copy and
    the next unused identity. *)
Fixpoint copy_node (next : nat) (n : node) : node * nat :=
  match n with
  | Element _ t a cs =>
      let fix copy_list (k : nat) (l : list node) : list node * nat :=
        match l with
        | [] => ([], k)
        | c :: l' =>
            let (c', k1) := copy_node k c in
            let (l'', k2) := copy_list k1 l' in
            (c' :: l'', k2)
        end in
      let (cs', k) := copy_list (S next) cs in
      (Element next t a cs', k)
  | _ => (n, next)
  end.

(** [root.cloneNode(true)]: the copy is a new detached tree; the result is
    the identity of its root. *)
Definition cloneNode (root : node) (h : heap) : nat * heap :=
  let c := fst (copy_node (fresh h) root) in
  (fresh h, mkHeap (documentElement h) (detached h ++ [c])).

(** Assignment to the attributes of the element [i], wherever it lives. *)
Fixpoint set_attributes_in (i : nat) (f : attrs -> attrs) (n : node) : node :=
  match n with
  | Element j t a cs =>
      Element j t (if j =? i then f a else a) (map (set_attributes_in i f) cs)
  | _ => n
  end.

Definition set_attributes (i : nat) (f : attrs -> attrs) (h : heap) : heap :=
  mkHeap (set_attributes_in i f (documentElement h))
         (map (set_attributes_in i f) (detached h)).

(** [el.remove()] for the element [i]: it leaves the child list of its
    parent.  An element without a parent stays where it is. *)
Fixpoint remove_in (i : nat) (n : node) : node :=
  match n with
  | Element j t a cs =>
      Element j t a
        (filter (fun c => negb (is_element c && (uid_of c =? i)))
                (map (remove_in i) cs))
  | _ => n
  end.

Definition remove (i : nat) (h : heap) : heap :=
  mkHeap (remove_in i (documentElement h)) (map (remove_in i) (detached h)).

(** [list.forEach(f)] where [f] acts on the state [S]. *)
Definition forEach {A S : Type} (l : list A) (f : A -> S -> S) (s : S) : S :=
  fold_left (fun s x => f x s) l s.

(** [a || b] on possibly-null references. *)
Definition or_else {A : Type} (a b : option A) : option A :=
  match a with Some _ => a | None => b end.

Definition is_some {A : Type} (a : option A) : bool :=
  match a with Some _ => true | None => false end.

(* ================================================================== *)
(** * Part III: extractPageText *)
(* ================================================================== *)

(** The root of the content: [<article>], else the element with id
    [content-area], else the first [<main>]. *)
Definition content_root (h : heap) : option node :=
  or_else (document_querySelector (Sel (ByTag "article")) h)
    (or_else (document_getElementById "content-area" h)
             (document_querySelector (Sel (ByTag "main")) h)).

(** [el.querySelectorAll(s)] on the element [el] of the heap: a static list
    of references. *)
Definition querySelectorAll_at (s : selector) (el : nat) (h : heap) : list nat :=
  match deref el h with
  | Some e => map uid_of (querySelectorAll s e)
  | None => []
  end.

(** The three statements that reveal an element. *)
Definition reveal (el : nat) (h : heap) : heap :=
  let h1 := set_attributes el (removeAttribute "aria-hidden") h in
  let h2 := set_attributes el (removeAttribute "hidden") h1 in
  set_attributes el (style_removeProperty "display") h2.

(** 1. Standard [role="tabpanel"] panels. *)
Definition reveal_tabpanels (clone : nat) (h : heap) : heap :=
  forEach (querySelectorAll_at (Sel (ByAttr "role" "tabpanel")) clone h) reveal h.

(** [el.querySelector("pre") || el.tagName.toLowerCase() === "pre"] *)
Definition holds_pre (e : node) : bool :=
  is_some (querySelector (Sel (ByTag "pre")) e) || (tag_of e =? "pre")%string.

(** 2. Any other hidden element that contains a code block. *)
Definition reveal_hidden_code (clone : nat) (h : heap) : heap :=
  forEach (querySelectorAll_at (Sel (ByAttr "aria-hidden" "true")) clone h)
    (fun el h =>
       match deref el h with
       | Some e => if holds_pre e then reveal el h else h
       | None => h
       end) h.

(** Elements that are not useful for LLM context. *)
Definition selectors : list selector :=
  [ Sel (ByTag "nav");
    Sel (ByTag "header");
    Sel (ByTag "footer");
    Sel (ByAttr "aria-hidden" "true");
    Sel (ByClass "copy-for-llm-btn-wrapper");
    Sel (ByTag "button");
    Sel (ByTag "svg");
    Sel (ByClass "sr-only");
    Sel (ByAttr "data-testid" "table-of-contents") ].

Definition strip (clone : nat) (h : heap) : heap :=
  forEach selectors
    (fun sel h => forEach (querySelectorAll_at sel clone h) remove h) h.

(** Page title: the first of [article h1], [main h1], [h1] in the document. *)
Definition titleEl (h : heap) : option node :=
  or_else (document_querySelector (Within (ByTag "article") (ByTag "h1")) h)
    (or_else (document_querySelector (Within (ByTag "main") (ByTag "h1")) h)
             (document_querySelector (Sel (ByTag "h1")) h)).

Definition title_lines (h : heap) : list string :=
  match titleEl h with
  | Some t => [("# " ++ trim (textContent t))%string; ""]
  | None => []
  end.

(** [Array.from(parent.children).indexOf(node)], when the node is there. *)
Fixpoint indexOf (i : nat) (l : list node) : option nat :=
  match l with
  | [] => None
  | e :: l' =>
      if uid_of e =? i then Some 0
      else match indexOf i l' with
           | Some k => Some (S k)
           | None => None
           end
  end.

(** [rows.forEach(function (row, ri) ...)], collecting what each call pushes. *)
Fixpoint flat_mapi {A B : Type} (f : nat -> A -> list B) (i : nat) (l : list A) : list B :=
  match l with
  | [] => []
  | x :: l' => f i x ++ flat_mapi f (S i) l'
  end.

(** The fenced block pushed for a [<pre>]. *)
Definition pre_language (codeEl : option node) : string :=
  match codeEl with
  | Some c =>
      match match_language (className c) with
      | Some l => l
      | None => ""
      end
  | None => ""
  end.

Definition pre_code (codeEl : option node) (n : node) : string :=
  trim (textContent (match codeEl with Some c => c | None => n end)).

(** [walk(node, depth)]: the fragments the call pushes on [lines], in
    order.  [parent] is [node.parentElement]; the walk only visits nodes
    below the clone, so it is never null. *)
Fixpoint walk (parent : node) (n : node) (depth : nat) {struct n} : list string :=
  match n with
  | Text txt => if truthy (trim txt) then [txt] else []
  | Other _ => []
  | Element _ _ _ cs =>
      let tag := tag_of n in
      match heading_level tag with
      | Some level =>
          [""; (repeat_string "#" level ++ " " ++ trim (textContent n))%string; ""]
      | None =>
      if (tag =? "pre")%string then
        let codeEl := querySelector (Sel (ByTag "code")) n in
        [""; ("```" ++ pre_language codeEl)%string; pre_code codeEl n; "```"; ""]
      else if (tag =? "code")%string && negb (tag_of parent =? "pre")%string then
        [("`" ++ trim (textContent n) ++ "`")%string]
      else if (tag =? "p")%string then
        [""] ++ flat_map (fun c => walk n c depth) cs ++ [""]
      else if (tag =? "li")%string then
        let bullet :=
          if (tag_of parent =? "ol")%string then
            let idx := match indexOf (uid_of n) (children_of parent) with
                       | Some k => S k
                       | None => 0
                       end in
            (string_of_nat idx ++ ". ")%string
          else "- " in
        [(bullet ++ trim (textContent n))%string]
      else if (tag =? "table")%string then
        flat_mapi
          (fun ri row =>
             let vals := map (fun c => trim (textContent c))
                             (querySelectorAll (Either (ByTag "th") (ByTag "td")) row) in
             ("| " ++ join " | " vals ++ " |")%string
             :: (if ri =? 0
                 then [("| " ++ join " | " (map (fun _ => "---") vals) ++ " |")%string]
                 else []))
          0 (querySelectorAll (Sel (ByTag "tr")) n)
        ++ [""]
      else if (tag =? "blockquote")%string then
        [""; join NL (map (fun l => ("> " ++ l)%string)
                          (split_on is_newline (trim (textContent n)))); ""]
      else if (tag =? "strong")%string || (tag =? "b")%string then
        [("**" ++ trim (textContent n) ++ "**")%string]
      else if (tag =? "a")%string then
        let href := match getAttribute "href" (attributes_of n) with
                    | Some v => v
                    | None => ""
                    end in
        [("[" ++ trim (textContent n) ++ "](" ++ href ++ ")")%string]
      else
        flat_map (fun c => walk n c (S depth)) cs
      end
  end.

(** The loop over [clone.children], skipping the [h1] already captured. *)
Definition walk_clone (clone : node) : list string :=
  flat_map
    (fun child =>
       if truthy (tagName_of child) && (tag_of child =? "h1")%string then []
       else walk clone child 0)
    (children_of clone).

(** Clean up excessive blank lines. *)
Definition post_process (lines : list string) : string :=
  trim (collapse_newlines (join NL lines)).

(** [extractPageText()]: the text returned and the heap the call leaves.
    [href] is [window.location.href]. *)
Definition extractPageText (href : string) (h : heap) : string * heap :=
  match content_root h with
  | None => ("", h)
  | Some root =>
      let (clone, h1) := cloneNode root h in
      let h2 := reveal_tabpanels clone h1 in
      let h3 := reveal_hidden_code clone h2 in
      let h4 := strip clone h3 in
      let lines :=
        title_lines h4
        ++ match deref clone h4 with
           | Some c => walk_clone c
           | None => []
           end in
      let text := post_process lines in
      (("Source: " ++ href ++ NL ++ NL ++ text)%string, h4)
  end.

(** ** createButton *)

Definition BUTTON_ID : string := "copy-for-llm-btn".

(** [document.body]: the first child of the [html] element that is a
    [body] or a [frameset] element; null when there is none. *)
Definition document_body (h : heap) : option node :=
  if (tag_of (documentElement h) =? "html")%string
  then find (fun c => (tag_of c =? "body")%string || (tag_of c =? "frameset")%string)
            (children_of (documentElement h))
  else None.

(** [parent.appendChild(x)] for the element [i] and a tree [x] that has
    no parent: [x] becomes the last child of [i]. *)
Fixpoint appendChild_in (i : nat) (x : node) (n : node) : node :=
  match n with
  | Element j t a cs =>
      Element j t a (map (appendChild_in i x) cs ++ (if j =? i then [x] else []))
  | _ => n
  end.

Definition appendChild (i : nat) (x : node) (h : heap) : heap :=
  mkHeap (appendChild_in i x (documentElement h))
         (map (appendChild_in i x) (detached h)).

(** What the parser builds for the markup assigned to [btn.innerHTML]: the
    icon, whose elements are SVG elements, and the label.  [k] is the
    identity of the first object created. *)
Definition button_content (k : nat) : list node :=
  [ Element k "svg"
      [("width", "14"); ("height", "14"); ("viewBox", "0 0 24 24");
       ("fill", "none"); ("stroke", "currentColor"); ("stroke-width", "2");
       ("stroke-linecap", "round"); ("stroke-linejoin", "round");
       ("style", "margin-right:6px;vertical-align:middle")]
      [ Element (k + 1) "rect"
          [("x", "9"); ("y", "9"); ("width", "13"); ("height", "13");
           ("rx", "2"); ("ry", "2")] [];
        Element (k + 2) "path"
          [("d", "M5 15H4a2 2 0 01-2-2V4a2 2 0 012-2h9a2 2 0 012 2v1")] [] ];
    Element (k + 3) "SPAN" [("style", "vertical-align:middle")]
      [Text "Copy for LLM"] ].

Definition button_style : string :=
  join ";"
    [ "display:inline-flex";
      "align-items:center";
      "padding:10px 16px";
      "border:1px solid rgba(200,255,0,0.4)";
      "border-radius:8px";
      "background:rgba(14,14,16,0.85)";
      "color:#c8ff00";
      "font-size:13px";
      "font-weight:500";
      "font-family:inherit";
      "cursor:pointer";
      "backdrop-filter:blur(12px)";
      "-webkit-backdrop-filter:blur(12px)";
      "box-shadow:0 2px 12px rgba(0,0,0,0.3)";
      "transition:all 0.2s ease" ].

(** The wrapper with the button in it, as [createButton] builds it from
    the objects [k], [k + 1], ...: the wrapper, the button, then the
    content of the button.  The style attributes hold the text assigned to
    [style.cssText]. *)
Definition new_wrapper (k : nat) : node :=
  Element k "DIV"
    [("class", "copy-for-llm-btn-wrapper");
     ("style", "position:fixed;bottom:24px;right:24px;z-index:9999;")]
    [ Element (k + 1) "BUTTON" [("id", BUTTON_ID); ("style", button_style)]
        (button_content (k + 2)) ].

(** [createButton()], on the tree of the page: nothing happens when an
    element with the id of the button is in the document; otherwise the
    wrapper becomes the last child of [document.body].  [None] is the
    [TypeError] raised when [document.body] is null.  The listeners the
    function registers on the button are not part of the tree. *)
Definition createButton (h : heap) : option heap :=
  match document_getElementById BUTTON_ID h with
  | Some _ => Some h
  | None =>
      let wrapper := new_wrapper (fresh h) in
      match document_body h with
      | Some body => Some (appendChild (uid_of body) wrapper h)
      | None => None
      end
  end.

(* ================================================================== *)
(** * Part IV: notions used by the statements *)
(* ================================================================== *)

(** ** After the call *)

(** The heap the call leaves, and the tree the walk ran on: the clone as
    the cleaning phases left it. *)
Definition heap_after (href : string) (h : heap) : heap :=
  snd (extractPageText href h).

Definition walked_tree (href : string) (h : heap) : option node :=
  deref (fresh h) (heap_after href h).

(** The fragments pushed by the tree walk of one call. *)
Definition body_lines (href : string) (h : heap) : list string :=
  match walked_tree href h with
  | Some c => walk_clone c
  | None => []
  end.

(** The fenced block as it stands in the result. *)
Definition fenced (lang code : string) : string :=
  ("```" ++ lang ++ NL ++ code ++ NL ++ "```")%string.

(** ** Identities and the clone *)

(** The identities of the elements of a tree, in tree order. *)
Definition uids (n : node) : list nat := map uid_of (subtree n).

(** The identity of [e] is one of [l]. *)
Definition uid_in (l : list nat) (e : node) : bool :=
  existsb (Nat.eqb (uid_of e)) l.

(** The children of an element copied in order, as [copy_node] does. *)
Fixpoint copy_nodes (k : nat) (l : list node) : list node * nat :=
  match l with
  | [] => ([], k)
  | c :: l' =>
      let (c', k1) := copy_node k c in
      let (l'', k2) := copy_nodes k1 l' in
      (c' :: l'', k2)
  end.

(** The new objects [root.cloneNode(true)] creates in the heap [h]. *)
Definition fresh_clone (root : node) (h : heap) : node :=
  fst (copy_node (fresh h) root).

(** The tree without the identities of its elements. *)
Fixpoint forget_uids (n : node) : node :=
  match n with
  | Element _ t a cs => Element 0 t a (map forget_uids cs)
  | _ => n
  end.

(** The heap [h] once the clone [c] is in it. *)
Definition with_clone (h : heap) (c : node) : heap :=
  mkHeap (documentElement h) (detached h ++ [c]).

(** [c] is an element made of objects created after [h]. *)
Definition owned (h : heap) (c : node) : Prop :=
  is_element c = true /\ uid_of c = fresh h
  /\ Forall (fun i => fresh h <= i) (uids c).

(** ** The phases, seen from the tree of the clone *)

(** The effect of the loops of [extractPageText] on the tree they act on. *)
Definition reveal_in (el : nat) (c : node) : node :=
  set_attributes_in el (style_removeProperty "display")
    (set_attributes_in el (removeAttribute "hidden")
       (set_attributes_in el (removeAttribute "aria-hidden") c)).

Definition reveal_tabpanels_in (c : node) : node :=
  fold_left (fun c el => reveal_in el c)
            (map uid_of (querySelectorAll (Sel (ByAttr "role" "tabpanel")) c)) c.

Definition reveal_hidden_code_in (c : node) : node :=
  fold_left
    (fun c el =>
       match find_uid el c with
       | Some e => if holds_pre e then reveal_in el c else c
       | None => c
       end)
    (map uid_of (querySelectorAll (Sel (ByAttr "aria-hidden" "true")) c)) c.

Definition strip_in (c : node) : node :=
  fold_left
    (fun c sel =>
       fold_left (fun c el => remove_in el c)
                 (map uid_of (querySelectorAll sel c)) c)
    selectors c.

Definition clean_in (c : node) : node :=
  strip_in (reveal_hidden_code_in (reveal_tabpanels_in c)).

(** The test of the second loop, read on the tree [c]. *)
Definition holds_pre_at (c : node) (el : nat) : bool :=
  match find_uid el c with
  | Some e => holds_pre e
  | None => false
  end.

(** ** The phases in one pass *)

(** What the three statements of [reveal] leave of the attributes. *)
Definition reveal_attrs (a : attrs) : attrs :=
  style_removeProperty "display"
    (removeAttribute "hidden" (removeAttribute "aria-hidden" a)).

(** [f] applied to the attributes of every element of the subtree of [n],
    [n] included, that satisfies [p]. *)
Fixpoint map_attrs_where (p : node -> bool) (f : attrs -> attrs) (n : node) : node :=
  match n with
  | Element i t a cs =>
      Element i t (if p n then f a else a) (map (map_attrs_where p f) cs)
  | _ => n
  end.

(** [g] applied to the children of [n]. *)
Definition below (g : node -> node) (n : node) : node :=
  match n with
  | Element i t a cs => Element i t a (map g cs)
  | _ => n
  end.

(** The subtree of [n] without the nodes below [n] that satisfy [p]. *)
Fixpoint prune (p : node -> bool) (n : node) : node :=
  match n with
  | Element i t a cs =>
      Element i t a (flat_map (fun c => if p c then [] else [prune p c]) cs)
  | _ => n
  end.

Definition is_tabpanel (e : node) : bool := matches (ByAttr "role" "tabpanel") e.

Definition aria_hidden (e : node) : bool := matches (ByAttr "aria-hidden" "true") e.


(** The compound selectors of [selectors], and the ones among them that
    do not test [aria-hidden]. *)
Definition strip_compounds : list compound :=
  [ ByTag "nav"; ByTag "header"; ByTag "footer"; ByAttr "aria-hidden" "true";
    ByClass "copy-for-llm-btn-wrapper"; ByTag "button"; ByTag "svg";
    ByClass "sr-only"; ByAttr "data-testid" "table-of-contents" ].


Definition matches_any (l : list compound) (e : node) : bool :=
  existsb (fun c => matches c e) l.

(** [e] is removed by the strip phase; by a rule other than the
    [aria-hidden] one. *)
Definition stripped (e : node) : bool := matches_any strip_compounds e.



(** The two reveal passes and the strip pass on a subtree, root included. *)
Definition reveal_tabpanels_pass : node -> node :=
  map_attrs_where is_tabpanel reveal_attrs.

Definition reveal_hidden_code_pass : node -> node :=
  map_attrs_where (fun e => aria_hidden e && holds_pre e) reveal_attrs.


(** ** Where the walk goes *)

(** [walk(n)] reaches the loop over [n.childNodes]: [n] is a paragraph or
    an element with no conversion rule of its own. *)
Definition descends (parent n : node) : bool :=
  is_element n &&
  let tag := tag_of n in
  match heading_level tag with
  | Some _ => false
  | None =>
      if (tag =? "pre")%string then false
      else if (tag =? "code")%string && negb (tag_of parent =? "pre")%string then false
      else if (tag =? "p")%string then true
      else if (tag =? "li")%string then false
      else if (tag =? "table")%string then false
      else if (tag =? "blockquote")%string then false
      else if (tag =? "strong")%string || (tag =? "b")%string then false
      else if (tag =? "a")%string then false
      else true
  end.

(** [visits parent n m]: the call [walk(n)], where [parent] is the parent
    element of [n], leads to a call [walk(m)]. *)
Inductive visits : node -> node -> node -> Prop :=
| visits_here (parent n : node) : visits parent n n
| visits_child (parent n c m : node) :
    descends parent n = true -> In c (childNodes_of n) ->
    visits n c m -> visits parent n m.

(** The loop over [clone.children] skips [child]. *)
Definition skipped (child : node) : bool :=
  truthy (tagName_of child) && (tag_of child =? "h1")%string.

(** The walk of the clone calls [walk(m)]. *)
Definition visited (clone m : node) : Prop :=
  exists child, In child (children_of clone) /\ skipped child = false
                /\ visits clone child m.




(** ** Sample pages *)

(** A page as the parser builds it: every element is an object of its
    own, numbered in tree order from the [html] element, which is 1. *)
Definition html_page (body : list node) : heap :=
  mkHeap (fst (copy_node 1 (Element 0 "HTML" []
                              [Element 0 "HEAD" [] [];
                               Element 0 "BODY" [] body]))) [].

Definition el (tag : string) (a : attrs) (cs : list node) : node :=
  Element 0 tag a cs.

(** A page with no article, no [content-area] and no main element. *)
Definition page_without_root : heap :=
  html_page [el "DIV" [] [el "P" [] [Text "Hello"]]].

(** An article with a paragraph and no heading. *)
Definition page_plain : heap :=
  html_page [el "ARTICLE" [] [el "P" [] [Text "Hello"]]].

(** An article whose h1 is its first child. *)
Definition page_top_h1 : heap :=
  html_page [el "ARTICLE" [] [el "H1" [] [Text "Title"]; el "P" [] [Text "Body"]]].

(** An article whose first heading sits inside a wrapper. *)
Definition page_nested_h1 : heap :=
  html_page
    [el "ARTICLE" []
        [el "DIV" [] [el "H1" [] [Text "Title"]; el "P" [] [Text "Body"]]]].

(** An article without a heading whose text begins with a hash sign. *)
Definition page_hash_text : heap :=
  html_page [el "ARTICLE" [] [el "DIV" [] [Text "# Not a heading"]]].


(** An article that holds a navigation block. *)
Definition page_with_nav : heap :=
  html_page
    [el "ARTICLE" [] [el "NAV" [] [Text "Menu"]; el "P" [] [Text "Body"]]].

(** A Python sample; the sample inside a list item, and as a child of a
    block of the article. *)
Definition python_sample : node :=
  el "PRE" [] [el "CODE" [("class", "language-python")] [Text "print(1)
"]].

Definition page_sample_in_list : heap :=
  html_page [el "ARTICLE" [] [el "UL" [] [el "LI" [] [python_sample]]]].

Definition page_sample : heap :=
  html_page [el "ARTICLE" [] [el "DIV" [] [python_sample]]].



(** A sample in a hidden block that is no tab panel. *)
Definition page_hidden_block : heap :=
  html_page
    [el "ARTICLE" []
        [el "DIV" [("aria-hidden", "true"); ("style", "color: red; display: none")]
            [python_sample];
         el "DIV" [("aria-hidden", "true")] [Text "decoration"]]].


(** ** Further notions *)

(** [s] without its newline characters. *)
Fixpoint without_newlines (s : string) : string :=
  match s with
  | "" => ""
  | String c s' => if is_newline c then without_newlines s' else String c (without_newlines s')
  end.

(** [s] is made of word characters. *)
Fixpoint all_word (s : string) : bool :=
  match s with
  | "" => true
  | String c s' => is_word c && all_word s'
  end.

(** The cells of a table row, the line pushed for it, and the separator
    pushed after the first row. *)
Definition row_cells (row : node) : list string :=
  map (fun c => trim (textContent c))
      (querySelectorAll (Either (ByTag "th") (ByTag "td")) row).

Definition row_line (row : node) : string :=
  ("| " ++ join " | " (row_cells row) ++ " |")%string.

Definition row_separator (row : node) : string :=
  ("| " ++ join " | " (map (fun _ => "---") (row_cells row)) ++ " |")%string.

(** The value of the [href] attribute, the empty string when absent. *)
Definition href_of (n : node) : string :=
  match getAttribute "href" (attributes_of n) with
  | Some v => v
  | None => ""
  end.

(** [e] is an article, has the id [content-area], is a main element. *)
Definition is_article (e : node) : bool := matches (ByTag "article") e.

Definition is_content_area (e : node) : bool :=
  match getAttribute "id" (attributes_of e) with
  | Some v => (v =? "content-area")%string
  | None => false
  end.

Definition is_main (e : node) : bool := matches (ByTag "main") e.

(** [x] is the first element of [l] that satisfies [p]. *)
Definition first_where {A : Type} (p : A -> bool) (l : list A) (x : A) : Prop :=
  exists l1 l2, l = l1 ++ x :: l2 /\ Forall (fun y => p y = false) l1 /\ p x = true.

(** An ordered list with text between its items. *)
Definition page_ordered_list : heap :=
  html_page
    [el "ARTICLE" []
        [el "OL" [] [el "LI" [] [Text "one"]; Text " "; el "LI" [] [Text "two"];
                     el "LI" [] [Text "three"]]]].

(** A link, bold text and a heading inside a block. *)
Definition page_inline : heap :=
  html_page
    [el "ARTICLE" []
        [el "DIV" []
            [el "H2" [] [Text " Install "];
             Text " see ";
             el "A" [("href", "/docs")] [Text "the docs"];
             el "STRONG" [] [Text "now"]]]].

(** The walk of [c] and of a tree of the same shape push the same
    fragments, when each is made of distinct objects and the two stand at
    the same place among the children of parents with the same tag. *)
Definition walk_shape_at (c : node) : Prop :=
  forall c' p p' d d',
    forget_uids c = forget_uids c' -> tag_of p = tag_of p' ->
    (is_element c = true ->
     indexOf (uid_of c) (children_of p) = indexOf (uid_of c') (children_of p')) ->
    NoDup (uids c) -> NoDup (uids c') ->
    walk p c d = walk p' c' d'.

(** The page [page_ordered_list] once the button is in it. *)
Definition page_with_button : heap :=
  match createButton page_ordered_list with
  | Some h => h
  | None => page_ordered_list
  end.

(** A content root that is itself hidden from assistive technology. *)
Definition page_hidden_root : heap :=
  html_page [el "MAIN" [("aria-hidden", "true"); ("role", "tabpanel")]
               [el "P" [] [Text "Body"]]].

(** Inline code in a paragraph. *)
Definition page_inline_code : heap :=
  html_page [el "ARTICLE" []
               [el "P" [] [Text "Run "; el "CODE" [] [Text " make "]; Text " first."]]].


(* ================================================================== *)
(** * Part V: lemmas on strings *)
(* ================================================================== *)

Lemma append_nil_r (s : string) : (s ++ "")%string = s.
Proof. induction s as [|c s IH]; simpl; [reflexivity | now rewrite IH]. Qed.

Lemma append_assoc (a b c : string) : ((a ++ b) ++ c)%string = (a ++ (b ++ c))%string.
Proof. induction a as [|x a IH]; simpl; [reflexivity | now rewrite IH]. Qed.

Lemma append_eq_nil (a b : string) : (a ++ b)%string = "" -> a = "" /\ b = "".
Proof. destruct a; simpl; [auto | discriminate]. Qed.

Lemma Substring_nil_inv (a : string) : Substring a "" -> a = "".
Proof.
  intros [p [q E]]. symmetry in E.
  apply append_eq_nil in E as [_ E]. now apply append_eq_nil in E.
Qed.

Lemma Substring_trans (a b c : string) : Substring a b -> Substring b c -> Substring a c.
Proof.
  intros [p [q ->]] [p' [q' ->]]. exists (p' ++ p)%string, (q ++ q')%string.
  now rewrite !append_assoc.
Qed.

Lemma Substring_app_r (a u v : string) : Substring a v -> Substring a (u ++ v).
Proof. intros [p [q ->]]. exists (u ++ p)%string, q. now rewrite append_assoc. Qed.

(** ** trim *)

Lemma ends_solid_app (u v : string) : ends_solid v = true -> ends_solid (u ++ v) = true.
Proof.
  intros Hv. induction u as [|c u IH]; simpl; [exact Hv|].
  destruct (u ++ v)%string eqn:E; [|exact IH].
  apply append_eq_nil in E as [_ ->]. discriminate.
Qed.

Lemma trimStart_split (s : string) :
  exists l, s = (l ++ trimStart s)%string /\ all_space l = true.
Proof.
  induction s as [|c s [l [E Hl]]]; simpl.
  - now exists "".
  - destruct (is_space c) eqn:Hc.
    + exists (String c l). simpl. rewrite Hc, Hl. now rewrite <- E.
    + now exists "".
Qed.

Lemma trimEnd_split (s : string) :
  exists r, s = (trimEnd s ++ r)%string /\ all_space r = true.
Proof.
  induction s as [|c s [r [E Hr]]]; simpl.
  - now exists "".
  - destruct (trimEnd s) eqn:Et.
    + simpl in E. subst r. destruct (is_space c) eqn:Hc.
      * exists (String c s). simpl. now rewrite Hc, Hr.
      * now exists s.
    + exists r. simpl. now rewrite E at 1.
Qed.

(** [trim] only removes white space at both ends. *)
Lemma trim_split (s : string) :
  exists l r, s = (l ++ trim s ++ r)%string /\ all_space l = true /\ all_space r = true.
Proof.
  destruct (trimStart_split s) as [l [E Hl]].
  destruct (trimEnd_split (trimStart s)) as [r [E' Hr]].
  exists l, r. unfold trim. now rewrite <- E', <- E.
Qed.

Lemma trim_Substring (s : string) : Substring (trim s) s.
Proof. destruct (trim_split s) as [l [r [E _]]]. now exists l, r. Qed.

Lemma trimEnd_app_solid (u v : string) :
  ends_solid u = true -> trimEnd (u ++ v) = (u ++ trimEnd v)%string.
Proof.
  induction u as [|c u IH]; [discriminate|]. intros H.
  destruct u as [|d u].
  - simpl in *. destruct (trimEnd v); [|reflexivity].
    now destruct (is_space c).
  - change (String c (String d u) ++ v)%string with (String c (String d u ++ v)).
    cbn [trimEnd]. rewrite IH by exact H. reflexivity.
Qed.





Lemma trimStart_keeps (core s : string) :
  starts_solid core = true -> Substring core s -> Substring core (trimStart s).
Proof.
  intros Hc. induction s as [|c s IH]; intros H.
  - apply Substring_nil_inv in H. subst. discriminate.
  - simpl. destruct (is_space c) eqn:Hs; [|exact H].
    apply IH. destruct H as [p [q E]]. destruct p as [|c' p].
    + destruct core as [|d core]; [discriminate|].
      simpl in E, Hc. injection E as -> _. rewrite Hs in Hc. discriminate.
    + simpl in E. injection E as _ ->. now exists p, q.
Qed.

Lemma trimEnd_keeps (core s : string) :
  ends_solid core = true -> Substring core s -> Substring core (trimEnd s).
Proof.
  intros Hc [p [q ->]]. rewrite <- append_assoc.
  rewrite trimEnd_app_solid by (now apply ends_solid_app).
  rewrite append_assoc. now exists p, (trimEnd q).
Qed.

(** A part of [s] that begins and ends with a kept character survives
    [trim]. *)
Lemma trim_keeps (core s : string) :
  starts_solid core = true -> ends_solid core = true ->
  Substring core s -> Substring core (trim s).
Proof.
  intros Hs He H. unfold trim. apply trimEnd_keeps; [exact He|].
  now apply trimStart_keeps.
Qed.


Lemma trimEnd_ends_solid (s : string) :
  trimEnd s = "" \/ ends_solid (trimEnd s) = true.
Proof.
  induction s as [|c s IH]; [now left|]. simpl.
  destruct (trimEnd s) as [|d r] eqn:E.
  - destruct (is_space c) eqn:Hc; [now left|]. right. simpl. now rewrite Hc.
  - right. destruct IH as [IH|IH]; [discriminate|]. exact IH.
Qed.

Lemma trimStart_starts_solid (s : string) :
  trimStart s = "" \/ starts_solid (trimStart s) = true.
Proof.
  induction s as [|c s IH]; [now left|]. simpl.
  destruct (is_space c) eqn:Hc; [exact IH|]. right. simpl. now rewrite Hc.
Qed.

Lemma trimEnd_starts (s : string) :
  starts_solid s = true -> starts_solid (trimEnd s) = true.
Proof.
  destruct s as [|c s]; [discriminate|]. simpl. intros H.
  destruct (trimEnd s); [|exact H].
  destruct (is_space c) eqn:Hc; [discriminate|]. simpl. now rewrite Hc.
Qed.

(** A trimmed text is empty, or begins and ends with a kept character. *)
Lemma trim_solid (s : string) :
  trim s = "" \/ (starts_solid (trim s) = true /\ ends_solid (trim s) = true).
Proof.
  unfold trim. destruct (trimStart_starts_solid s) as [->|Hs]; [now left|].
  right. split; [now apply trimEnd_starts|].
  destruct (trimEnd_ends_solid (trimStart s)) as [E|E]; [|exact E].
  apply trimEnd_starts in Hs. rewrite E in Hs. discriminate.
Qed.

(** ** Collapsing runs of newlines *)

Lemma is_newline_LF : is_newline LF = true.
Proof. reflexivity. Qed.

Lemma is_newline_eq (c : ascii) : is_newline c = true -> c = LF.
Proof. unfold is_newline. apply Ascii.eqb_eq. Qed.

Lemma newline_is_space (c : ascii) : is_newline c = true -> is_space c = true.
Proof. intros H. apply is_newline_eq in H. now subst. Qed.

Lemma solid_not_newline (c : ascii) : is_space c = false -> is_newline c = false.
Proof.
  intros H. destruct (is_newline c) eqn:E; [|reflexivity].
  apply newline_is_space in E. congruence.
Qed.

Lemma last_char_split (s : string) :
  s = "" \/ exists s' d, s = (s' ++ String d "")%string.
Proof.
  induction s as [|c s [->|[s' [d ->]]]]; [now left| |].
  - right. now exists "", c.
  - right. now exists (String c s'), d.
Qed.

Lemma ends_newline_snoc (s : string) (d : ascii) :
  ends_newline (s ++ String d "") = is_newline d.
Proof.
  induction s as [|c s IH]; [reflexivity|]. simpl.
  destruct (s ++ String d "")%string eqn:E; [|exact IH].
  apply append_eq_nil in E as [_ E]. discriminate.
Qed.

Lemma ends_solid_snoc (s : string) (d : ascii) :
  ends_solid (s ++ String d "") = negb (is_space d).
Proof.
  induction s as [|c s IH]; [reflexivity|]. simpl.
  destruct (s ++ String d "")%string eqn:E; [|exact IH].
  apply append_eq_nil in E as [_ E]. discriminate.
Qed.

Lemma ends_solid_not_newline (s : string) :
  ends_solid s = true -> ends_newline s = false.
Proof.
  destruct (last_char_split s) as [->|[s' [d ->]]]; [discriminate|].
  rewrite ends_solid_snoc, ends_newline_snoc. intros H.
  apply solid_not_newline. now destruct (is_space d).
Qed.

Lemma starts_solid_not_newline (s : string) :
  starts_solid s = true -> starts_newline s = false.
Proof.
  destruct s as [|c s]; [reflexivity|]. simpl. intros H.
  apply solid_not_newline. now destruct (is_space c).
Qed.


Lemma collapse_from_app_char (u : string) (c : ascii) (v : string) (k : nat) :
  is_newline c = false ->
  collapse_from k (u ++ String c v)
  = (collapse_from k u ++ String c (collapse_from 0 v))%string.
Proof.
  intros Hc. revert k. induction u as [|d u IH]; intros k; simpl.
  - now rewrite Hc.
  - destruct (is_newline d).
    + apply IH.
    + rewrite IH, append_assoc. reflexivity.
Qed.

Lemma collapse_from_snoc (u : string) (d : ascii) (k : nat) :
  is_newline d = false ->
  collapse_from k (u ++ String d "") = (collapse_from k u ++ String d "")%string.
Proof. intros H. now rewrite collapse_from_app_char. Qed.


(** The text splits at any place that is not inside a run of newlines. *)
Lemma collapse_newlines_app (u v : string) :
  ends_newline u = false \/ starts_newline v = false ->
  collapse_newlines (u ++ v)
  = (collapse_newlines u ++ collapse_newlines v)%string.
Proof.
  unfold collapse_newlines. intros H.
  destruct v as [|c v].
  - rewrite append_nil_r. simpl. now rewrite append_nil_r.
  - destruct (is_newline c) eqn:Hc.
    + destruct H as [H|H]; [|simpl in H; congruence].
      destruct (last_char_split u) as [->|[u' [d ->]]]; [reflexivity|].
      rewrite ends_newline_snoc in H.
      rewrite append_assoc. cbn [append].
      rewrite collapse_from_app_char by exact H.
      rewrite collapse_from_snoc by exact H.
      rewrite append_assoc. reflexivity.
    + rewrite collapse_from_app_char by exact Hc.
      simpl. now rewrite Hc.
Qed.


Lemma triple_free_emit (k : nat) (c : ascii) (s : string) :
  is_newline c = false ->
  triple_free 0 (emit_newlines k ++ String c s) = triple_free 0 s.
Proof.
  intros Hc. unfold emit_newlines.
  destruct k as [|[|[|k]]]; simpl; rewrite ?is_newline_LF, ?Hc; reflexivity.
Qed.

Lemma triple_free_collapse_from (s : string) (k : nat) :
  triple_free 0 (collapse_from k s) = true.
Proof.
  revert k. induction s as [|c s IH]; intros k; simpl.
  - unfold emit_newlines. now destruct k as [|[|[|k]]].
  - destruct (is_newline c) eqn:Hc; [apply IH|].
    rewrite triple_free_emit by exact Hc. apply IH.
Qed.






(** ** join *)

Lemma join_cons (sep x : string) (l : list string) :
  l <> [] -> join sep (x :: l) = (x ++ sep ++ join sep l)%string.
Proof. destruct l; [congruence | reflexivity]. Qed.

Lemma join_app (sep : string) (l1 l2 : list string) :
  l1 <> [] -> l2 <> [] ->
  join sep (l1 ++ l2) = (join sep l1 ++ sep ++ join sep l2)%string.
Proof.
  intros H1 H2. induction l1 as [|x l1 IH]; [congruence|].
  destruct l1 as [|y l1].
  - simpl app. now rewrite join_cons.
  - change ((x :: y :: l1) ++ l2) with (x :: ((y :: l1) ++ l2)).
    rewrite join_cons by discriminate.
    rewrite IH by discriminate.
    rewrite (join_cons sep x (y :: l1)) by discriminate.
    now rewrite !append_assoc.
Qed.


Lemma ends_solid_collapse (s : string) :
  ends_solid s = true -> ends_solid (collapse_newlines s) = true.
Proof.
  destruct (last_char_split s) as [->|[s' [d ->]]]; [discriminate|].
  rewrite ends_solid_snoc. intros H. unfold collapse_newlines.
  rewrite collapse_from_snoc, ends_solid_snoc; [exact H|].
  apply solid_not_newline. now destruct (is_space d).
Qed.

Lemma starts_solid_collapse (s : string) :
  starts_solid s = true -> starts_solid (collapse_newlines s) = true.
Proof.
  destruct s as [|c s]; [discriminate|]. intros H. simpl in H.
  unfold collapse_newlines. simpl.
  rewrite solid_not_newline by (now destruct (is_space c)). exact H.
Qed.

Lemma starts_solid_app (u v : string) :
  starts_solid u = true -> starts_solid (u ++ v) = true.
Proof. destruct u; [discriminate | trivial]. Qed.




(* ================================================================== *)
(** * Part VI: the result of extractPageText *)
(* ================================================================== *)

Lemma extract_without_root (href : string) (h : heap) :
  content_root h = None -> extractPageText href h = ("", h).
Proof. unfold extractPageText. now intros ->. Qed.

(** With a content root, the result is the reference line, a blank line,
    and the post-processed fragments: the title lines, then the walk. *)
Lemma extract_with_root (href : string) (h : heap) (root : node) :
  content_root h = Some root ->
  fst (extractPageText href h)
  = ("Source: " ++ href ++ NL ++ NL
     ++ post_process (title_lines (heap_after href h) ++ body_lines href h))%string.
Proof.
  intros H. unfold body_lines, walked_tree, heap_after, extractPageText.
  rewrite H. reflexivity.
Qed.

Lemma Prefix_nil_inv (a : string) : Prefix a "" -> a = "".
Proof. intros [q E]. symmetry in E. now apply append_eq_nil in E. Qed.

(** C1 (as amended): whenever a content root matches, the returned string
    begins with ["Source: "], the page URL and a blank line, whatever the
    content is. *)
Theorem C1_source_line (href : string) (h : heap) (root : node) :
  content_root h = Some root ->
  Prefix ("Source: " ++ href ++ NL ++ NL) (fst (extractPageText href h)).
Proof.
  intros H. rewrite (extract_with_root href h root H).
  exists (post_process (title_lines (heap_after href h) ++ body_lines href h)).
  now rewrite !append_assoc.
Qed.

Lemma C1_source_line_witness :
  Prefix ("Source: " ++ "https://docs.example/intro" ++ NL ++ NL)
         (fst (extractPageText "https://docs.example/intro" page_plain)).
Proof.
  apply (C1_source_line "https://docs.example/intro" page_plain
           (Element 4 "ARTICLE" [] [Element 5 "P" [] [Text "Hello"]])).
  reflexivity.
Defined.

(** C1 (as stated) fails: on a page without a content root the returned
    string is empty, so it does not begin with the reference line. *)
Lemma C1_counterexample :
  ~ Prefix ("Source: " ++ "https://docs.example/intro" ++ NL ++ NL)
           (fst (extractPageText "https://docs.example/intro" page_without_root)).
Proof. intros H. apply Prefix_nil_inv in H. discriminate. Qed.

(** ** No content root *)

Lemma hd_error_filter_none {A : Type} (p : A -> bool) (l : list A) :
  Forall (fun x => p x = false) l -> hd_error (filter p l) = None.
Proof.
  induction 1 as [|x l Hx _ IH]; [reflexivity|]. simpl. now rewrite Hx.
Qed.

Lemma find_none_Forall {A : Type} (p : A -> bool) (l : list A) :
  Forall (fun x => p x = false) l -> find p l = None.
Proof.
  induction 1 as [|x l Hx _ IH]; [reflexivity|]. simpl. now rewrite Hx.
Qed.

(** Induction on trees: the property holds of the children of an element. *)
Lemma node_ind' (P : node -> Prop) :
  (forall s, P (Text s)) ->
  (forall s, P (Other s)) ->
  (forall i t a cs, Forall P cs -> P (Element i t a cs)) ->
  forall n, P n.
Proof.
  intros HT HO HE. fix IH 1. intros [s|s|i t a cs].
  - apply HT.
  - apply HO.
  - apply HE. induction cs as [|c cs IHcs]; constructor; [apply IH | exact IHcs].
Qed.

Lemma subtree_is_element (n e : node) : In e (subtree n) -> is_element e = true.
Proof.
  revert e. induction n as [s|s|i t a cs IH] using node_ind'; intros e; simpl; try tauto.
  intros [<-|H]; [reflexivity|].
  apply in_flat_map in H as [c [Hc He]].
  rewrite Forall_forall in IH. exact (IH c Hc e He).
Qed.

(** C2: on a document with no article element, no element with id
    [content-area] and no main element, extractPageText returns the empty
    string. *)
Theorem C2_no_root_empty (href : string) (h : heap) :
  Forall (fun e => tag_of e <> "article"
                   /\ getAttribute "id" (attributes_of e) <> Some "content-area"
                   /\ tag_of e <> "main")
         (subtree (documentElement h)) ->
  fst (extractPageText href h) = "".
Proof.
  intros H. rewrite extract_without_root; [reflexivity|].
  unfold content_root, document_querySelector, document_getElementById, select.
  rewrite hd_error_filter_none.
  - rewrite find_none_Forall.
    + rewrite hd_error_filter_none; [reflexivity|].
      eapply Forall_impl; [|exact H]. intros e [_ [_ He]]. unfold matches.
      apply andb_false_intro2. now apply String.eqb_neq.
    + eapply Forall_impl; [|exact H]. intros e [_ [He _]].
      destruct (getAttribute "id" (attributes_of e)) as [v|]; [|reflexivity].
      apply String.eqb_neq. congruence.
  - eapply Forall_impl; [|exact H]. intros e [He _]. unfold matches.
    apply andb_false_intro2. now apply String.eqb_neq.
Qed.

Lemma C2_no_root_empty_witness :
  fst (extractPageText "https://docs.example/intro" page_without_root) = "".
Proof.
  apply (C2_no_root_empty "https://docs.example/intro" page_without_root).
  vm_compute. repeat constructor; discriminate.
Defined.



(* ================================================================== *)
(** * Part VII: the heap; what the call touches *)
(* ================================================================== *)

Lemma map_flat_map {A B C : Type} (f : B -> C) (g : A -> list B) (l : list A) :
  map f (flat_map g l) = flat_map (fun x => map f (g x)) l.
Proof.
  induction l as [|x l IH]; [reflexivity|]. simpl. now rewrite map_app, IH.
Qed.

Lemma uids_Element (i : nat) (t : string) (a : attrs) (cs : list node) :
  uids (Element i t a cs) = i :: flat_map uids cs.
Proof. unfold uids. simpl. now rewrite map_flat_map. Qed.

Lemma list_max_In (l : list nat) (x : nat) : In x l -> x <= list_max l.
Proof.
  intros H. assert (Hle : list_max l <= list_max l) by lia.
  apply list_max_le in Hle. rewrite Forall_forall in Hle. now apply Hle.
Qed.

Lemma max_uid_bound (n : node) (i : nat) : In i (uids n) -> i <= max_uid n.
Proof.
  revert i. induction n as [s|s|j t a cs IH] using node_ind'; intros i; try (simpl; tauto).
  rewrite uids_Element. simpl. intros [<-|H]; [lia|].
  apply in_flat_map in H as [c [Hc Hi]].
  rewrite Forall_forall in IH. specialize (IH c Hc i Hi).
  assert (max_uid c <= list_max (map max_uid cs))
    by (apply list_max_In, in_map, Hc).
  lia.
Qed.

Lemma fresh_above (h : heap) (t : node) (i : nat) :
  In t (trees h) -> In i (uids t) -> i < fresh h.
Proof.
  intros Ht Hi. apply max_uid_bound in Hi. unfold fresh.
  assert (max_uid t <= list_max (map max_uid (trees h)))
    by (apply list_max_In, in_map, Ht).
  lia.
Qed.

(** ** Copies *)

Lemma copy_node_Element (k i : nat) (t : string) (a : attrs) (cs : list node) :
  copy_node k (Element i t a cs)
  = (Element k t a (fst (copy_nodes (S k) cs)), snd (copy_nodes (S k) cs)).
Proof.
  simpl.
  match goal with
  | |- (let (_, _) := ?F (S k) cs in _) = _ =>
      assert (E : forall l j, F j l = copy_nodes j l)
  end.
  { induction l as [|c l IHl]; intros j; [reflexivity|].
    simpl. destruct (copy_node j c) as [c' k1]. now rewrite IHl. }
  rewrite E. now destruct (copy_nodes (S k) cs).
Qed.

Lemma copy_nodes_cons (k : nat) (c : node) (l : list node) :
  copy_nodes k (c :: l)
  = (fst (copy_node k c) :: fst (copy_nodes (snd (copy_node k c)) l),
     snd (copy_nodes (snd (copy_node k c)) l)).
Proof.
  simpl. destruct (copy_node k c) as [c' k1]. simpl.
  now destruct (copy_nodes k1 l).
Qed.

(** The copy takes the identities from [k] up to the returned bound. *)
Lemma copy_node_range (n : node) (k : nat) :
  k <= snd (copy_node k n)
  /\ Forall (fun i => k <= i < snd (copy_node k n)) (uids (fst (copy_node k n))).
Proof.
  revert k. induction n as [s|s|j t a cs IH] using node_ind'; intros k;
    try (simpl; split; [lia | constructor]).
  rewrite copy_node_Element. cbn [fst snd]. rewrite uids_Element.
  assert (Hcs : forall l, Forall (fun c => forall k, k <= snd (copy_node k c)
              /\ Forall (fun i => k <= i < snd (copy_node k c)) (uids (fst (copy_node k c)))) l ->
            forall j, j <= snd (copy_nodes j l)
              /\ Forall (fun i => j <= i < snd (copy_nodes j l))
                        (flat_map uids (fst (copy_nodes j l)))).
  { induction 1 as [|c l Hc _ IHl]; intros m; [simpl; split; [lia|constructor]|].
    rewrite copy_nodes_cons. cbn [fst snd flat_map].
    destruct (Hc m) as [H1 H2]. destruct (IHl (snd (copy_node m c))) as [H3 H4].
    split; [lia|]. apply Forall_app. split.
    - eapply Forall_impl; [|exact H2]. simpl. intros; lia.
    - eapply Forall_impl; [|exact H4]. simpl. intros; lia. }
  destruct (Hcs cs IH (S k)) as [H1 H2]. split; [lia|].
  constructor; [lia|]. eapply Forall_impl; [|exact H2]. simpl. intros; lia.
Qed.

Lemma copy_node_is_element (n : node) (k : nat) :
  is_element (fst (copy_node k n)) = is_element n.
Proof. destruct n; try reflexivity. now rewrite copy_node_Element. Qed.

Lemma copy_node_uid (n : node) (k : nat) :
  is_element n = true -> uid_of (fst (copy_node k n)) = k.
Proof. destruct n; try discriminate. now rewrite copy_node_Element. Qed.

(** The clone is the content root with new identities. *)
Lemma copy_node_forget (n : node) (k : nat) :
  forget_uids (fst (copy_node k n)) = forget_uids n.
Proof.
  revert k. induction n as [s|s|i t a cs IH] using node_ind'; intros k;
    try reflexivity.
  rewrite copy_node_Element. cbn [fst forget_uids]. f_equal.
  generalize (S k). induction IH as [|c cs Hc _ IHcs]; intros j; [reflexivity|].
  rewrite copy_nodes_cons. cbn [fst map]. now rewrite Hc, IHcs.
Qed.

Lemma fresh_clone_forget (root : node) (h : heap) :
  forget_uids (fresh_clone root h) = forget_uids root.
Proof. apply copy_node_forget. Qed.

(** ** Assignments and removals leave the other objects alone *)

Lemma map_id_Forall {A : Type} (f : A -> A) (l : list A) :
  Forall (fun x => f x = x) l -> map f l = l.
Proof. induction 1 as [|x l Hx _ IH]; [reflexivity|]. simpl. now rewrite Hx, IH. Qed.

Lemma uid_in_uids (n : node) : is_element n = true -> In (uid_of n) (uids n).
Proof. destruct n; try discriminate. intros _. rewrite uids_Element. now left. Qed.

Lemma set_attributes_in_absent (i : nat) (f : attrs -> attrs) (n : node) :
  ~ In i (uids n) -> set_attributes_in i f n = n.
Proof.
  induction n as [s|s|j t a cs IH] using node_ind'; try reflexivity.
  intros H. simpl. rewrite uids_Element in H.
  destruct (Nat.eqb_spec j i) as [->|_]; [exfalso; apply H; now left|].
  f_equal. apply map_id_Forall. rewrite Forall_forall in *.
  intros c Hc. apply IH; [exact Hc|]. intros Hi. apply H. right.
  apply in_flat_map. now exists c.
Qed.

Lemma filter_all {A : Type} (p : A -> bool) (l : list A) :
  Forall (fun x => p x = true) l -> filter p l = l.
Proof. induction 1 as [|x l Hx _ IH]; [reflexivity|]. simpl. now rewrite Hx, IH. Qed.

Lemma remove_in_absent (i : nat) (n : node) :
  ~ In i (uids n) -> remove_in i n = n.
Proof.
  induction n as [s|s|j t a cs IH] using node_ind'; try reflexivity.
  intros H. simpl. rewrite uids_Element in H. f_equal.
  rewrite map_id_Forall.
  - apply filter_all. rewrite Forall_forall. intros c Hc.
    destruct (is_element c) eqn:Ec; [|reflexivity]. simpl.
    destruct (Nat.eqb_spec (uid_of c) i) as [E|_]; [|reflexivity].
    exfalso. apply H. right. apply in_flat_map. exists c. split; [exact Hc|].
    rewrite <- E. now apply uid_in_uids.
  - rewrite Forall_forall in *. intros c Hc. apply IH; [exact Hc|].
    intros Hi. apply H. right. apply in_flat_map. now exists c.
Qed.

Lemma find_uid_absent (i : nat) (n : node) :
  ~ In i (uids n) -> find_uid i n = None.
Proof.
  intros H. unfold find_uid. apply find_none_Forall. rewrite Forall_forall.
  intros e He. apply Nat.eqb_neq. intros E. apply H. subst i.
  unfold uids. now apply in_map.
Qed.

Lemma find_uid_root (n : node) :
  is_element n = true -> find_uid (uid_of n) n = Some n.
Proof.
  destruct n as [s|s|i t a cs]; try discriminate. intros _.
  unfold find_uid. simpl. now rewrite Nat.eqb_refl.
Qed.

Lemma set_attributes_in_uid (i : nat) (f : attrs -> attrs) (n : node) :
  uid_of (set_attributes_in i f n) = uid_of n.
Proof. now destruct n. Qed.

Lemma set_attributes_in_is_element (i : nat) (f : attrs -> attrs) (n : node) :
  is_element (set_attributes_in i f n) = is_element n.
Proof. now destruct n. Qed.

Lemma flat_map_map {A B C : Type} (f : A -> B) (g : B -> list C) (l : list A) :
  flat_map g (map f l) = flat_map (fun x => g (f x)) l.
Proof. induction l as [|x l IH]; [reflexivity|]. simpl. now rewrite IH. Qed.

Lemma flat_map_ext_Forall {A B : Type} (f g : A -> list B) (l : list A) :
  Forall (fun x => f x = g x) l -> flat_map f l = flat_map g l.
Proof. induction 1 as [|x l Hx _ IH]; [reflexivity|]. simpl. now rewrite Hx, IH. Qed.

Lemma set_attributes_in_uids (i : nat) (f : attrs -> attrs) (n : node) :
  uids (set_attributes_in i f n) = uids n.
Proof.
  induction n as [s|s|j t a cs IH] using node_ind'; try reflexivity.
  cbn [set_attributes_in]. rewrite !uids_Element. f_equal. rewrite flat_map_map.
  now apply flat_map_ext_Forall.
Qed.

Lemma remove_in_uid (i : nat) (n : node) : uid_of (remove_in i n) = uid_of n.
Proof. now destruct n. Qed.

Lemma remove_in_is_element (i : nat) (n : node) :
  is_element (remove_in i n) = is_element n.
Proof. now destruct n. Qed.

Lemma remove_in_uids_incl (i : nat) (n : node) (x : nat) :
  In x (uids (remove_in i n)) -> In x (uids n).
Proof.
  revert x. induction n as [s|s|j t a cs IH] using node_ind'; intros x; try (simpl; tauto).
  cbn [remove_in]. rewrite !uids_Element. intros [<-|H]; [now left|]. right.
  apply in_flat_map in H as [c' [Hc' Hx]].
  apply filter_In in Hc' as [Hc' _]. apply in_map_iff in Hc' as [c [<- Hc]].
  apply in_flat_map. exists c. split; [exact Hc|].
  rewrite Forall_forall in IH. now apply IH.
Qed.

Section Frame.

(** The heap before the call. *)
Variable h : heap.

Local Abbreviation with_clone := (with_clone h).
Local Abbreviation owned := (owned h).

Lemma old_tree_absent (t : node) (i : nat) :
  In t (trees h) -> fresh h <= i -> ~ In i (uids t).
Proof. intros Ht Hi H. pose proof (fresh_above h t i Ht H). lia. Qed.

Lemma set_attributes_framed (i : nat) (f : attrs -> attrs) (c : node) :
  fresh h <= i ->
  set_attributes i f (with_clone c) = with_clone (set_attributes_in i f c).
Proof.
  intros Hi. unfold set_attributes, with_clone. cbn [documentElement detached].
  rewrite set_attributes_in_absent by (apply old_tree_absent; [now left | exact Hi]).
  rewrite map_app. simpl. f_equal. f_equal. apply map_id_Forall.
  rewrite Forall_forall. intros t Ht. apply set_attributes_in_absent.
  apply old_tree_absent; [now right | exact Hi].
Qed.

Lemma remove_framed (i : nat) (c : node) :
  fresh h <= i -> remove i (with_clone c) = with_clone (remove_in i c).
Proof.
  intros Hi. unfold remove, with_clone. cbn [documentElement detached].
  rewrite remove_in_absent by (apply old_tree_absent; [now left | exact Hi]).
  rewrite map_app. simpl. f_equal. f_equal. apply map_id_Forall.
  rewrite Forall_forall. intros t Ht. apply remove_in_absent.
  apply old_tree_absent; [now right | exact Hi].
Qed.

Lemma deref_in_app_absent (i : nat) (ts : list node) (c : node) :
  Forall (fun t => ~ In i (uids t)) ts ->
  deref_in i (ts ++ [c]) = find_uid i c.
Proof.
  induction 1 as [|t ts Ht _ IH]; simpl.
  - now destruct (find_uid i c).
  - now rewrite find_uid_absent.
Qed.

Lemma deref_framed (i : nat) (c : node) :
  fresh h <= i -> deref i (with_clone c) = find_uid i c.
Proof.
  intros Hi. unfold deref, trees, with_clone. cbn [documentElement detached].
  change (documentElement h :: detached h ++ [c])
    with ((documentElement h :: detached h) ++ [c]).
  apply deref_in_app_absent. rewrite Forall_forall. intros t Ht.
  now apply old_tree_absent.
Qed.

Lemma deref_clone (c : node) : owned c -> deref (fresh h) (with_clone c) = Some c.
Proof.
  intros [He [Hu _]]. rewrite deref_framed by lia. rewrite <- Hu.
  now apply find_uid_root.
Qed.

Lemma owned_set_attributes (i : nat) (f : attrs -> attrs) (c : node) :
  owned c -> owned (set_attributes_in i f c).
Proof.
  intros [He [Hu Hall]]. unfold owned.
  now rewrite set_attributes_in_is_element, set_attributes_in_uid, set_attributes_in_uids.
Qed.

Lemma owned_remove (i : nat) (c : node) : owned c -> owned (remove_in i c).
Proof.
  intros [He [Hu Hall]]. unfold owned.
  rewrite remove_in_is_element, remove_in_uid. repeat split; try assumption.
  rewrite Forall_forall in *. intros x Hx. apply Hall.
  now apply remove_in_uids_incl in Hx.
Qed.

Lemma owned_reveal (i : nat) (c : node) : owned c -> owned (reveal_in i c).
Proof. intros H. unfold reveal_in. now repeat apply owned_set_attributes. Qed.

Lemma reveal_framed (i : nat) (c : node) :
  fresh h <= i -> reveal i (with_clone c) = with_clone (reveal_in i c).
Proof.
  intros Hi. unfold reveal, reveal_in. now rewrite !set_attributes_framed.
Qed.

(** A loop whose body only acts on the clone acts on the clone. *)
Lemma forEach_framed {A : Type} (ok : A -> Prop)
      (stepH : A -> heap -> heap) (stepT : A -> node -> node) :
  (forall x c, ok x -> owned c ->
               stepH x (with_clone c) = with_clone (stepT x c) /\ owned (stepT x c)) ->
  forall (l : list A) (c : node),
    Forall ok l -> owned c ->
    forEach l stepH (with_clone c)
    = with_clone (fold_left (fun c x => stepT x c) l c)
    /\ owned (fold_left (fun c x => stepT x c) l c).
Proof.
  intros Hstep l. induction l as [|x l IH]; intros c Hl Hc; [now split|].
  inversion Hl as [|? ? Hx Hl']; subst. unfold forEach in *. simpl.
  destruct (Hstep x c Hx Hc) as [E Ho]. rewrite E. now apply IH.
Qed.

(** ** The nodes a query returns belong to the queried tree *)

Lemma select_within_incl (a c : compound) (inside : bool) (n e : node) :
  In e (select_within a c inside n) -> In e (subtree n).
Proof.
  revert inside e. induction n as [s|s|i t at' cs IH] using node_ind';
    intros inside e; try (simpl; tauto).
  cbn [select_within subtree]. intros H. apply in_app_or in H as [H|H].
  - destruct (inside && matches c (Element i t at' cs)); [|destruct H].
    destruct H as [<-|[]]. now left.
  - right. apply in_flat_map in H as [x [Hx He]]. apply in_flat_map.
    exists x. split; [exact Hx|]. rewrite Forall_forall in IH. eapply IH; eauto.
Qed.

Lemma select_incl (s : selector) (n e : node) : In e (select s n) -> In e (subtree n).
Proof.
  destruct s as [c|a c|c1 c2]; simpl.
  - intros H. now apply filter_In in H.
  - apply select_within_incl.
  - intros H. now apply filter_In in H.
Qed.

Lemma querySelectorAll_incl (s : selector) (n e : node) :
  In e (querySelectorAll s n) -> In e (descendants n).
Proof.
  unfold querySelectorAll, descendants. intros H.
  apply in_flat_map in H as [x [Hx He]]. apply in_flat_map.
  exists x. split; [exact Hx | now apply select_incl in He].
Qed.

Lemma descendants_subtree (n e : node) : In e (descendants n) -> In e (subtree n).
Proof. destruct n; simpl; tauto. Qed.

Lemma querySelectorAll_owned (s : selector) (c : node) :
  owned c -> Forall (fun i => fresh h <= i) (map uid_of (querySelectorAll s c)).
Proof.
  intros [_ [_ Hall]]. rewrite Forall_forall in *. intros i Hi.
  apply in_map_iff in Hi as [e [<- He]]. apply Hall. unfold uids.
  apply in_map. now apply querySelectorAll_incl, descendants_subtree in He.
Qed.

Lemma querySelectorAll_at_framed (s : selector) (c : node) :
  owned c ->
  querySelectorAll_at s (fresh h) (with_clone c) = map uid_of (querySelectorAll s c).
Proof. intros Hc. unfold querySelectorAll_at. now rewrite deref_clone. Qed.

(** ** Each phase acts on the clone alone *)

Lemma reveal_tabpanels_framed (c : node) :
  owned c ->
  reveal_tabpanels (fresh h) (with_clone c) = with_clone (reveal_tabpanels_in c)
  /\ owned (reveal_tabpanels_in c).
Proof.
  intros Hc. unfold reveal_tabpanels, reveal_tabpanels_in.
  rewrite querySelectorAll_at_framed by exact Hc.
  apply (forEach_framed (fun i => fresh h <= i) reveal reveal_in).
  - intros i c' Hi Hc'. split; [now apply reveal_framed | now apply owned_reveal].
  - now apply querySelectorAll_owned.
  - exact Hc.
Qed.

Lemma reveal_hidden_code_framed (c : node) :
  owned c ->
  reveal_hidden_code (fresh h) (with_clone c) = with_clone (reveal_hidden_code_in c)
  /\ owned (reveal_hidden_code_in c).
Proof.
  intros Hc. unfold reveal_hidden_code, reveal_hidden_code_in.
  rewrite querySelectorAll_at_framed by exact Hc.
  apply (forEach_framed (fun i => fresh h <= i)
           (fun el h' => match deref el h' with
                         | Some e => if holds_pre e then reveal el h' else h'
                         | None => h'
                         end)
           (fun el c' => match find_uid el c' with
                         | Some e => if holds_pre e then reveal_in el c' else c'
                         | None => c'
                         end)).
  - intros i c' Hi Hc'. rewrite deref_framed by exact Hi.
    destruct (find_uid i c') as [e|]; [|now split].
    destruct (holds_pre e); [|now split].
    split; [now apply reveal_framed | now apply owned_reveal].
  - now apply querySelectorAll_owned.
  - exact Hc.
Qed.

Lemma remove_all_framed (s : selector) (c : node) :
  owned c ->
  forEach (querySelectorAll_at s (fresh h) (with_clone c)) remove (with_clone c)
  = with_clone (fold_left (fun c el => remove_in el c)
                          (map uid_of (querySelectorAll s c)) c)
  /\ owned (fold_left (fun c el => remove_in el c)
                      (map uid_of (querySelectorAll s c)) c).
Proof.
  intros Hc. rewrite querySelectorAll_at_framed by exact Hc.
  apply (forEach_framed (fun i => fresh h <= i) remove remove_in).
  - intros i c' Hi Hc'. split; [now apply remove_framed | now apply owned_remove].
  - now apply querySelectorAll_owned.
  - exact Hc.
Qed.

Lemma strip_framed (c : node) :
  owned c ->
  strip (fresh h) (with_clone c) = with_clone (strip_in c) /\ owned (strip_in c).
Proof.
  intros Hc. unfold strip, strip_in.
  apply (forEach_framed (fun _ => True)
           (fun sel h' => forEach (querySelectorAll_at sel (fresh h) h') remove h')
           (fun sel c' => fold_left (fun c el => remove_in el c)
                                    (map uid_of (querySelectorAll sel c')) c')).
  - intros s c' _ Hc'. now apply remove_all_framed.
  - apply Forall_forall. trivial.
  - exact Hc.
Qed.

Lemma clean_framed (c : node) :
  owned c ->
  strip (fresh h) (reveal_hidden_code (fresh h) (reveal_tabpanels (fresh h) (with_clone c)))
  = with_clone (clean_in c)
  /\ owned (clean_in c).
Proof.
  intros Hc. unfold clean_in.
  destruct (reveal_tabpanels_framed c Hc) as [-> H1].
  destruct (reveal_hidden_code_framed _ H1) as [-> H2].
  now apply strip_framed.
Qed.

End Frame.

(** ** The heap after the call *)

Lemma hd_error_In {A : Type} (l : list A) (x : A) : hd_error l = Some x -> In x l.
Proof. destruct l; simpl; [discriminate|]. intros [= ->]. now left. Qed.

Lemma content_root_in_document (h : heap) (root : node) :
  content_root h = Some root -> In root (subtree (documentElement h)).
Proof.
  unfold content_root, or_else, document_querySelector, document_getElementById.
  destruct (hd_error (select (Sel (ByTag "article")) (documentElement h))) eqn:E1.
  - intros [= <-]. apply hd_error_In in E1. now apply select_incl in E1.
  - destruct (find _ (subtree (documentElement h))) eqn:E2.
    + intros [= <-]. now apply find_some in E2.
    + intros E3. apply hd_error_In in E3. now apply select_incl in E3.
Qed.

Lemma content_root_is_element (h : heap) (root : node) :
  content_root h = Some root -> is_element root = true.
Proof.
  intros H. apply content_root_in_document in H.
  now apply subtree_is_element in H.
Qed.

Lemma owned_fresh_clone (h : heap) (root : node) :
  is_element root = true -> owned h (fresh_clone root h).
Proof.
  intros He. unfold owned, fresh_clone. split; [|split].
  - now rewrite copy_node_is_element.
  - now apply copy_node_uid.
  - destruct (copy_node_range root (fresh h)) as [_ H].
    eapply Forall_impl; [|exact H]. simpl. intros; lia.
Qed.

(** The call leaves the heap it found, plus the cleaned clone. *)
Lemma heap_after_clean (href : string) (h : heap) (root : node) :
  content_root h = Some root ->
  heap_after href h = with_clone h (clean_in (fresh_clone root h))
  /\ owned h (clean_in (fresh_clone root h)).
Proof.
  intros H. unfold heap_after, extractPageText. rewrite H.
  unfold cloneNode. cbn [snd].
  apply (clean_framed h (fresh_clone root h)).
  apply owned_fresh_clone. now apply content_root_is_element in H.
Qed.

Lemma walked_tree_clean (href : string) (h : heap) (root : node) :
  content_root h = Some root ->
  walked_tree href h = Some (clean_in (fresh_clone root h)).
Proof.
  intros H. unfold walked_tree.
  destruct (heap_after_clean href h root H) as [-> Ho].
  now apply deref_clone.
Qed.

Lemma title_lines_document (h1 h2 : heap) :
  documentElement h1 = documentElement h2 -> title_lines h1 = title_lines h2.
Proof.
  intros E. unfold title_lines, titleEl, document_querySelector. now rewrite E.
Qed.

Lemma documentElement_after (href : string) (h : heap) :
  documentElement (heap_after href h) = documentElement h.
Proof.
  destruct (content_root h) as [root|] eqn:H.
  - now destruct (heap_after_clean href h root H) as [-> _].
  - unfold heap_after. now rewrite extract_without_root.
Qed.

(** The result in terms of the page as the call found it. *)
Lemma extract_result (href : string) (h : heap) (root : node) :
  content_root h = Some root ->
  fst (extractPageText href h)
  = ("Source: " ++ href ++ NL ++ NL
     ++ post_process (title_lines h ++ body_lines href h))%string.
Proof.
  intros H. rewrite (extract_with_root href h root H).
  now rewrite (title_lines_document _ h (documentElement_after href h)).
Qed.

(** C8: the call leaves the live document as it found it.  What it adds
    to the heap is one detached tree: the copy of the content root, made
    of new objects, as the cleaning phases left it; that tree is the one
    the walk reads.  Every assignment and removal lands there, and the
    trees that were detached before are untouched as well. *)
Theorem C8_live_document_unchanged (href : string) (h : heap) :
  documentElement (heap_after href h) = documentElement h
  /\ match content_root h with
     | Some root =>
         detached (heap_after href h) = detached h ++ [clean_in (fresh_clone root h)]
         /\ forget_uids (fresh_clone root h) = forget_uids root
         /\ Forall (fun i => fresh h <= i) (uids (fresh_clone root h))
         /\ walked_tree href h = Some (clean_in (fresh_clone root h))
     | None => heap_after href h = h
     end.
Proof.
  split; [apply documentElement_after|].
  destruct (content_root h) as [root|] eqn:H.
  - split; [now destruct (heap_after_clean href h root H) as [-> _]|].
    split; [apply fresh_clone_forget|]. split; [|now apply walked_tree_clean].
    apply owned_fresh_clone. now apply content_root_is_element in H.
  - unfold heap_after. now rewrite extract_without_root.
Qed.

(** The clone matters: the same strip phase run on the content root itself
    would change the live document. *)
Lemma strip_without_clone_mutates :
  documentElement (strip 4 page_with_nav) <> documentElement page_with_nav.
Proof. vm_compute. discriminate. Qed.

(** ** The title *)

Lemma select_within_matches (a c : compound) (inside : bool) (n e : node) :
  In e (select_within a c inside n) -> matches c e = true.
Proof.
  revert inside e. induction n as [s|s|i t at' cs IH] using node_ind';
    intros inside e; try (simpl; tauto).
  cbn [select_within]. intros H. apply in_app_or in H as [H|H].
  - destruct (inside && matches c (Element i t at' cs)) eqn:E; [|destruct H].
    destruct H as [<-|[]]. now apply andb_true_iff in E.
  - apply in_flat_map in H as [x [Hx He]].
    rewrite Forall_forall in IH. eapply IH; eauto.
Qed.

Lemma select_tag (s : selector) (t : string) (n e : node) :
  s = Sel (ByTag t) \/ (exists a, s = Within a (ByTag t)) ->
  In e (select s n) -> tag_of e = t.
Proof.
  intros [->|[a ->]]; simpl; intros H.
  - apply filter_In in H as [_ H]. apply andb_true_iff in H as [_ H].
    now apply String.eqb_eq.
  - apply select_within_matches in H. apply andb_true_iff in H as [_ H].
    now apply String.eqb_eq.
Qed.

Lemma titleEl_is_h1 (h : heap) (t : node) :
  titleEl h = Some t ->
  In t (subtree (documentElement h)) /\ tag_of t = "h1".
Proof.
  unfold titleEl, or_else, document_querySelector.
  destruct (hd_error (select (Within (ByTag "article") (ByTag "h1")) _)) eqn:E1;
    [|destruct (hd_error (select (Within (ByTag "main") (ByTag "h1")) _)) eqn:E2].
  - intros [= <-]. apply hd_error_In in E1. split; [now apply select_incl in E1|].
    eapply select_tag; [|exact E1]. right. now eexists.
  - intros [= <-]. apply hd_error_In in E2. split; [now apply select_incl in E2|].
    eapply select_tag; [|exact E2]. right. now eexists.
  - intros E3. apply hd_error_In in E3. split; [now apply select_incl in E3|].
    eapply select_tag; [|exact E3]. now left.
Qed.


Lemma titleEl_none (h : heap) :
  Forall (fun e => tag_of e <> "h1") (subtree (documentElement h)) ->
  titleEl h = None.
Proof.
  intros H. destruct (titleEl h) as [t|] eqn:E; [|reflexivity].
  apply titleEl_is_h1 in E as [Hin Ht]. rewrite Forall_forall in H.
  now apply H in Hin.
Qed.



(** C7 (as amended): with a content root and no h1 in the document, the
    call returns normally and pushes no title fragment: the result begins
    with the reference line, not with a ["# "] line, and after the
    reference line and the blank line it is the post-processed output of
    the tree walk alone. *)
Theorem C7_no_title_section (href : string) (h : heap) (root : node) :
  content_root h = Some root ->
  Forall (fun e => tag_of e <> "h1") (subtree (documentElement h)) ->
  title_lines h = []
  /\ walked_tree href h = Some (clean_in (fresh_clone root h))
  /\ ~ Prefix "# " (fst (extractPageText href h))
  /\ fst (extractPageText href h)
     = ("Source: " ++ href ++ NL ++ NL ++ post_process (body_lines href h))%string.
Proof.
  intros Hroot Hno.
  assert (Ht : title_lines h = []).
  { unfold title_lines. now rewrite titleEl_none. }
  assert (E : fst (extractPageText href h)
              = ("Source: " ++ href ++ NL ++ NL
                 ++ post_process (body_lines href h))%string).
  { rewrite (extract_result href h root Hroot). now rewrite Ht. }
  split; [exact Ht|]. split; [now apply walked_tree_clean|].
  split; [|exact E].
  rewrite E. intros [q Hq]. discriminate.
Qed.

Lemma C7_no_title_section_witness :
  title_lines page_plain = []
  /\ walked_tree "https://docs.example/intro" page_plain
     = Some (clean_in (fresh_clone (Element 4 "ARTICLE" [] [Element 5 "P" [] [Text "Hello"]])
                                   page_plain))
  /\ ~ Prefix "# " (fst (extractPageText "https://docs.example/intro" page_plain))
  /\ fst (extractPageText "https://docs.example/intro" page_plain)
     = ("Source: " ++ "https://docs.example/intro" ++ NL ++ NL
        ++ post_process (body_lines "https://docs.example/intro" page_plain))%string.
Proof.
  apply (C7_no_title_section "https://docs.example/intro" page_plain
           (Element 4 "ARTICLE" [] [Element 5 "P" [] [Text "Hello"]])).
  - reflexivity.
  - vm_compute. repeat constructor; discriminate.
Defined.

(** C7 (as stated) fails: the page has a content root and no h1, and the
    text after the reference line, where a title would stand, still
    begins with a ["# "] line, because the walk pushes text nodes as they
    are. *)
Lemma C7_counterexample :
  content_root page_hash_text <> None
  /\ Forall (fun e => tag_of e <> "h1") (subtree (documentElement page_hash_text))
  /\ fst (extractPageText "https://docs.example/intro" page_hash_text)
     = ("Source: https://docs.example/intro" ++ NL ++ NL ++ "# Not a heading")%string.
Proof.
  split; [discriminate|]. split; [|reflexivity].
  vm_compute. repeat constructor; discriminate.
Qed.

(** An h1 that is a child of the content root is pushed once, as the
    title: the loop over the children of the clone skips it. *)
Lemma top_level_h1_emitted_once :
  fst (extractPageText "https://docs.example/intro" page_top_h1)
  = ("Source: https://docs.example/intro" ++ NL ++ NL
     ++ "# Title" ++ NL ++ NL ++ "Body")%string.
Proof. reflexivity. Qed.

(** C3: on an article whose h1 sits inside a wrapper, the heading text is
    pushed as the title and a second time by the walk, which only skips an
    h1 that is a child of the clone. *)
Theorem C3_nested_h1_emitted_twice :
  fst (extractPageText "https://docs.example/intro" page_nested_h1)
  = ("Source: https://docs.example/intro" ++ NL ++ NL
     ++ "# Title" ++ NL ++ NL ++ "Title" ++ NL ++ NL ++ "Body")%string.
Proof. reflexivity. Qed.

(* ================================================================== *)
(** * Part VIII: the tree walk *)
(* ================================================================== *)

Lemma flat_map_In_split {A B : Type} (f : A -> list B) (l : list A) (x : A) :
  In x l -> exists l1 l2, flat_map f l = l1 ++ f x ++ l2.
Proof.
  intros H. apply in_split in H as [u [v ->]].
  exists (flat_map f u), (flat_map f v). now rewrite flat_map_app.
Qed.

(** The fragments of a child are a segment of the fragments of a parent
    the walk descends into. *)
Lemma walk_descends (parent n c : node) (d : nat) :
  descends parent n = true -> In c (childNodes_of n) ->
  exists d' l1 l2, walk parent n d = l1 ++ walk n c d' ++ l2.
Proof.
  intros H Hc. destruct n as [s|s|i t a cs]; try discriminate.
  unfold descends in H. cbn [is_element andb] in H. cbn [childNodes_of] in Hc.
  cbn [walk]. set (n := Element i t a cs) in *. set (tag := tag_of n) in *.
  destruct (heading_level tag); [discriminate|].
  destruct (tag =? "pre")%string; [discriminate|].
  destruct ((tag =? "code")%string && negb (tag_of parent =? "pre")%string);
    [discriminate|].
  destruct (tag =? "p")%string.
  - destruct (flat_map_In_split (fun c => walk n c d) cs c Hc) as [l1 [l2 E]].
    exists d, ([""] ++ l1), (l2 ++ [""]). rewrite E. now rewrite <- !app_assoc.
  - destruct (tag =? "li")%string; [discriminate|].
    destruct (tag =? "table")%string; [discriminate|].
    destruct (tag =? "blockquote")%string; [discriminate|].
    destruct ((tag =? "strong")%string || (tag =? "b")%string); [discriminate|].
    destruct (tag =? "a")%string; [discriminate|].
    destruct (flat_map_In_split (fun c => walk n c (S d)) cs c Hc) as [l1 [l2 E]].
    exists (S d), l1, l2. exact E.
Qed.

Lemma visits_walk (parent n m : node) :
  visits parent n m ->
  forall d, exists parent' d' l1 l2, walk parent n d = l1 ++ walk parent' m d' ++ l2.
Proof.
  induction 1 as [parent n|parent n c m Hd Hc _ IH]; intros d.
  - exists parent, d, [], []. now rewrite app_nil_r.
  - destruct (walk_descends parent n c d Hd Hc) as [d1 [l1 [l2 E]]].
    destruct (IH d1) as [parent' [d' [l3 [l4 E']]]].
    exists parent', d', (l1 ++ l3), (l4 ++ l2). rewrite E, E'.
    now rewrite <- !app_assoc.
Qed.

Lemma visited_walk_clone (c m : node) :
  visited c m ->
  exists parent' d' l1 l2, walk_clone c = l1 ++ walk parent' m d' ++ l2.
Proof.
  intros [child [Hin [Hskip Hv]]].
  destruct (visits_walk c child m Hv 0) as [parent' [d' [l3 [l4 E]]]].
  unfold walk_clone.
  destruct (flat_map_In_split
              (fun child => if truthy (tagName_of child) && (tag_of child =? "h1")%string
                            then [] else walk c child 0)
              (children_of c) child Hin) as [l1 [l2 E']].
  rewrite E'. unfold skipped in Hskip. rewrite Hskip, E.
  exists parent', d', (l1 ++ l3), (l4 ++ l2). now rewrite <- !app_assoc.
Qed.


(** A [<pre>] pushes a blank fragment, the opening fence with the
    language, the trimmed text, the closing fence and a blank fragment. *)
Lemma walk_pre (parent p : node) (d : nat) :
  tag_of p = "pre" ->
  walk parent p d
  = [""; ("```" ++ pre_language (querySelector (Sel (ByTag "code")) p))%string;
     pre_code (querySelector (Sel (ByTag "code")) p) p; "```"; ""].
Proof.
  intros H. destruct p as [s|s|i t a cs]; try discriminate.
  cbn [walk]. rewrite H. reflexivity.
Qed.

(** ** A fenced block through post-processing *)

Lemma collapse_no_newline (w : string) :
  no_newline w = true -> collapse_newlines w = w.
Proof.
  unfold collapse_newlines. induction w as [|c w IH]; [reflexivity|].
  simpl. intros H. apply andb_true_iff in H as [Hc Hw].
  destruct (is_newline c); [discriminate|]. simpl. now rewrite IH.
Qed.

Lemma no_newline_ends (w : string) :
  no_newline w = true -> ends_newline w = false.
Proof.
  destruct (last_char_split w) as [->|[w' [d ->]]]; [reflexivity|].
  rewrite ends_newline_snoc. induction w' as [|c w' IH]; simpl.
  - intros H. apply andb_true_iff in H as [H _]. now destruct (is_newline d).
  - intros H. apply andb_true_iff in H as [_ H]. now apply IH.
Qed.

Lemma join_middle (sep : string) (l1 m l2 : list string) :
  m <> [] -> exists p q, join sep (l1 ++ m ++ l2) = (p ++ join sep m ++ q)%string.
Proof.
  intros Hm.
  assert (Hr : exists q, join sep (m ++ l2) = (join sep m ++ q)%string).
  { destruct l2 as [|x l2].
    - exists "". now rewrite app_nil_r, append_nil_r.
    - exists (sep ++ join sep (x :: l2))%string. now rewrite join_app. }
  destruct Hr as [q Hq]. destruct l1 as [|y l1].
  - exists "", q. exact Hq.
  - exists (join sep (y :: l1) ++ sep)%string, q.
    rewrite join_app; [| discriminate | now destruct m].
    now rewrite Hq, !append_assoc.
Qed.

Lemma collapse_fence (F code : string) :
  starts_solid F = true -> no_newline F = true ->
  code = "" \/ (starts_solid code = true /\ ends_solid code = true) ->
  collapse_newlines (F ++ NL ++ code ++ NL ++ "```")
  = (F ++ NL ++ collapse_newlines code ++ NL ++ "```")%string.
Proof.
  intros HF Hn Hc.
  rewrite collapse_newlines_app by (left; now apply no_newline_ends).
  rewrite (collapse_no_newline F Hn). f_equal.
  destruct Hc as [->|[Hs He]]; [reflexivity|].
  rewrite (collapse_newlines_app NL)
    by (right; destruct code; [discriminate|];
        now apply (starts_solid_not_newline (String a code))).
  rewrite (collapse_newlines_app code)
    by (left; now apply ends_solid_not_newline).
  reflexivity.
Qed.

(** The fence, the collapsed code and the closing fence stand in the
    post-processed text as one block. *)
Lemma post_process_fence (l1 l2 : list string) (F code : string) :
  starts_solid F = true -> no_newline F = true ->
  code = "" \/ (starts_solid code = true /\ ends_solid code = true) ->
  Substring (F ++ NL ++ collapse_newlines code ++ NL ++ "```")
            (post_process (l1 ++ [F; code; "```"] ++ l2)).
Proof.
  intros HF Hn Hc. unfold post_process.
  destruct (join_middle NL l1 [F; code; "```"] l2) as [p [q E]]; [discriminate|].
  rewrite E. change (join NL [F; code; "```"])
    with (F ++ NL ++ code ++ NL ++ "```")%string.
  set (X := (F ++ NL ++ code ++ NL ++ "```")%string).
  assert (HXs : starts_solid X = true) by (now apply starts_solid_app).
  assert (HXe : ends_solid X = true).
  { unfold X. rewrite <- !append_assoc. now apply ends_solid_app. }
  apply trim_keeps.
  - now apply starts_solid_app.
  - rewrite <- !append_assoc. now apply ends_solid_app.
  - rewrite collapse_newlines_app
      by (right; apply starts_solid_not_newline; now apply starts_solid_app).
    rewrite collapse_newlines_app by (left; now apply ends_solid_not_newline).
    unfold X. rewrite collapse_fence by assumption.
    eexists _, _. reflexivity.
Qed.

Lemma is_word_not_newline (c : ascii) : is_word c = true -> is_newline c = false.
Proof.
  intros H. destruct (is_newline c) eqn:E; [|reflexivity].
  apply is_newline_eq in E. subst. discriminate.
Qed.

Lemma no_newline_take_word (s : string) : no_newline (take_word s) = true.
Proof.
  induction s as [|c s IH]; [reflexivity|]. simpl.
  destruct (is_word c) eqn:E; [|reflexivity]. simpl.
  now rewrite (is_word_not_newline c E).
Qed.

Lemma match_language_word (cls w : string) :
  match_language cls = Some w -> no_newline w = true.
Proof.
  induction cls as [|c cls IH]; [discriminate|].
  cbn [match_language].
  destruct (strip_prefix "language-" (String c cls)) as [after|]; [|exact IH].
  pose proof (no_newline_take_word after) as Hw.
  destruct (take_word after); [exact IH|]. now intros [= <-].
Qed.

Lemma no_newline_pre_language (codeEl : option node) :
  no_newline ("```" ++ pre_language codeEl) = true.
Proof.
  unfold pre_language. destruct codeEl as [c|]; [|reflexivity].
  destruct (match_language (className c)) as [w|] eqn:E; [|reflexivity].
  apply match_language_word in E. exact E.
Qed.

(** A visited [<pre>] stands in the result as a fenced block. *)
Lemma visited_pre_fenced (href : string) (h : heap) (root c p : node) :
  content_root h = Some root ->
  walked_tree href h = Some c ->
  visited c p -> tag_of p = "pre" ->
  Substring (fenced (pre_language (querySelector (Sel (ByTag "code")) p))
                    (collapse_newlines (pre_code (querySelector (Sel (ByTag "code")) p) p)))
            (post_process (title_lines h ++ body_lines href h)).
Proof.
  intros Hroot Hc Hv Hp. unfold body_lines. rewrite Hc.
  destruct (visited_walk_clone c p Hv) as [parent' [d' [l1 [l2 E]]]].
  rewrite E, (walk_pre parent' p d' Hp).
  set (F := ("```" ++ pre_language (querySelector (Sel (ByTag "code")) p))%string).
  set (code := pre_code (querySelector (Sel (ByTag "code")) p) p).
  replace (title_lines h ++ l1 ++ [""; F; code; "```"; ""] ++ l2)
    with ((title_lines h ++ l1 ++ [""]) ++ [F; code; "```"] ++ ([""] ++ l2))
    by (now rewrite <- !app_assoc).
  unfold fenced.
  change ("```" ++ pre_language (querySelector (Sel (ByTag "code")) p) ++ NL
          ++ collapse_newlines code ++ NL ++ "```")%string
    with (F ++ NL ++ collapse_newlines code ++ NL ++ "```")%string.
  apply post_process_fence.
  - reflexivity.
  - apply no_newline_pre_language.
  - apply trim_solid.
Qed.

Lemma Substring_has_char (c : ascii) (a s : string) :
  Substring a s -> has_char c a = true -> has_char c s = true.
Proof.
  intros [p [q ->]] H. induction p as [|d p IH]; simpl.
  - induction a as [|x a IHa]; [discriminate|]. simpl in *.
    apply orb_true_iff in H as [H|H]; [now rewrite H|].
    rewrite IHa by exact H. apply orb_true_r.
  - rewrite IH. apply orb_true_r.
Qed.

(** The language of a class attribute. *)
Lemma match_language_samples :
  match_language "language-python" = Some "python"
  /\ match_language "hljs language-python" = Some "python"
  /\ match_language "language-python line-numbers" = Some "python"
  /\ match_language "hljs" = None.
Proof. repeat split. Qed.

(** C6 (as amended): a [<pre>] that the walk visits pushes a blank
    fragment, the opening fence with the language of the first
    [language-xxx] class of its code element (none when absent), the
    trimmed text, the closing fence and a blank fragment; the fenced block
    stands in the result, with its runs of newlines collapsed.  With the
    class [language-python] (the first [language-xxx] the class attribute
    shows) and a text that trims to [print(1)], the result holds the
    fence, the line [print(1)] and the closing fence. *)
Theorem C6_pre_fence (href : string) (h : heap) (root c p : node) :
  content_root h = Some root ->
  walked_tree href h = Some c ->
  visited c p -> tag_of p = "pre" ->
  (forall parent d,
      walk parent p d
      = [""; ("```" ++ pre_language (querySelector (Sel (ByTag "code")) p))%string;
         pre_code (querySelector (Sel (ByTag "code")) p) p; "```"; ""])
  /\ Substring (fenced (pre_language (querySelector (Sel (ByTag "code")) p))
                       (collapse_newlines
                          (pre_code (querySelector (Sel (ByTag "code")) p) p)))
               (fst (extractPageText href h))
  /\ (forall codeEl,
         querySelector (Sel (ByTag "code")) p = Some codeEl ->
         match_language (className codeEl) = Some "python" ->
         trim (textContent codeEl) = "print(1)" ->
         Substring ("```python" ++ NL ++ "print(1)" ++ NL ++ "```")
                   (fst (extractPageText href h))).
Proof.
  intros Hroot Hc Hv Hp.
  assert (HS : Substring
                 (fenced (pre_language (querySelector (Sel (ByTag "code")) p))
                         (collapse_newlines
                            (pre_code (querySelector (Sel (ByTag "code")) p) p)))
                 (fst (extractPageText href h))).
  { rewrite (extract_result href h root Hroot).
    rewrite <- !append_assoc. apply Substring_app_r.
    now apply (visited_pre_fenced href h root c p). }
  split; [intros parent d; now apply walk_pre|]. split; [exact HS|].
  intros codeEl E Hcls Htxt. rewrite E in HS.
  unfold pre_language, pre_code in HS. rewrite Hcls, Htxt in HS. exact HS.
Qed.

Lemma C6_pre_fence_witness :
  Substring ("```python" ++ NL ++ "print(1)" ++ NL ++ "```")
            (fst (extractPageText "https://docs.example/intro" page_sample)).
Proof.
  pose (code := Element 11 "CODE" [("class", "language-python")] [Text "print(1)
"]).
  pose (p := Element 10 "PRE" [] [code]).
  pose (d := Element 9 "DIV" [] [p]).
  pose (c := Element 8 "ARTICLE" [] [d]).
  destruct (C6_pre_fence "https://docs.example/intro" page_sample
              (Element 4 "ARTICLE" []
                 [Element 5 "DIV" []
                    [Element 6 "PRE" []
                       [Element 7 "CODE" [("class", "language-python")] [Text "print(1)
"]]]])
              c p) as [_ [_ H]].
  - reflexivity.
  - reflexivity.
  - exists d. split; [now left|]. split; [reflexivity|].
    apply (visits_child c d p p); [reflexivity | now left | apply visits_here].
  - reflexivity.
  - apply (H code); reflexivity.
Defined.

(** C6 (as stated) fails: the sample sits in a list item, which the walk
    turns into one line from its text content, so the result has no
    fence. *)
Lemma C6_counterexample :
  fst (extractPageText "https://docs.example/intro" page_sample_in_list)
  = ("Source: https://docs.example/intro" ++ NL ++ NL ++ "- print(1)")%string
  /\ ~ Substring ("```python" ++ NL ++ "print(1)" ++ NL ++ "```")
                 (fst (extractPageText "https://docs.example/intro" page_sample_in_list)).
Proof.
  split; [reflexivity|]. intros H.
  apply (Substring_has_char "`"%char) in H; [|reflexivity].
  vm_compute in H. discriminate.
Qed.



(* ================================================================== *)
(** * Part IX: the cleaning phases in one pass *)
(* ================================================================== *)

(** ** Changing attributes keeps the shape of the tree *)

Section MapAttrs.

Variable P : node -> bool.
Variable f : attrs -> attrs.

Local Abbreviation M := (map_attrs_where P f).

Lemma map_attrs_is_element (n : node) : is_element (M n) = is_element n.
Proof. now destruct n. Qed.

Lemma map_attrs_uid (n : node) : uid_of (M n) = uid_of n.
Proof. now destruct n. Qed.

Lemma map_attrs_tagName (n : node) : tagName_of (M n) = tagName_of n.
Proof. now destruct n. Qed.

Lemma map_attrs_tag (n : node) : tag_of (M n) = tag_of n.
Proof. unfold tag_of. now rewrite map_attrs_tagName. Qed.



Lemma map_attrs_subtree (n : node) : subtree (M n) = map M (subtree n).
Proof.
  induction n as [s|s|i t a cs IH] using node_ind'; try reflexivity.
  cbn [map_attrs_where subtree map]. f_equal.
  rewrite flat_map_map, map_flat_map. now apply flat_map_ext_Forall.
Qed.

Lemma map_attrs_uids (n : node) : uids (M n) = uids n.
Proof.
  unfold uids. rewrite map_attrs_subtree, map_map.
  apply map_ext. intros e. apply map_attrs_uid.
Qed.

Lemma map_attrs_matches_tag (t : string) (n : node) :
  matches (ByTag t) (M n) = matches (ByTag t) n.
Proof. unfold matches. now rewrite map_attrs_is_element, map_attrs_tag. Qed.

(** Nothing changes where no element satisfies the test. *)
Lemma map_attrs_id (n : node) :
  Forall (fun e => P e = false) (subtree n) -> M n = n.
Proof.
  induction n as [s|s|i t a cs IH] using node_ind'; try reflexivity.
  intros H. cbn [subtree] in H. inversion H as [|? ? Hn Hcs]; subst.
  cbn [map_attrs_where]. rewrite Hn. f_equal. apply map_id_Forall.
  rewrite Forall_forall in *. intros c Hc. apply IH; [exact Hc|].
  apply Forall_forall. intros e He. apply Hcs. apply in_flat_map. now exists c.
Qed.

End MapAttrs.

Lemma map_attrs_ext (P Q : node -> bool) (f : attrs -> attrs) (n : node) :
  Forall (fun e => P e = Q e) (subtree n) ->
  map_attrs_where P f n = map_attrs_where Q f n.
Proof.
  induction n as [s|s|i t a cs IH] using node_ind'; try reflexivity.
  intros H. cbn [subtree] in H. inversion H as [|? ? Hn Hcs]; subst.
  cbn [map_attrs_where]. rewrite Hn. f_equal.
  apply map_ext_in. intros c Hc. rewrite Forall_forall in *.
  apply IH; [exact Hc|]. apply Forall_forall. intros e He. apply Hcs. apply in_flat_map. now exists c.
Qed.

(** Two passes with the same assignment and disjoint tests are one pass. *)
Lemma map_attrs_twice (P Q : node -> bool) (f : attrs -> attrs) (n : node) :
  (forall e, Q (map_attrs_where P f e) = Q e) ->
  Forall (fun e => P e && Q e = false) (subtree n) ->
  map_attrs_where Q f (map_attrs_where P f n)
  = map_attrs_where (fun e => P e || Q e) f n.
Proof.
  intros HQ. induction n as [s|s|i t a cs IH] using node_ind'; try reflexivity.
  intros H. cbn [subtree] in H. inversion H as [|? ? Hn Hcs]; subst.
  pose proof (HQ (Element i t a cs)) as HQn. cbn [map_attrs_where] in *.
  rewrite HQn. f_equal.
  - destruct (P (Element i t a cs)), (Q (Element i t a cs)); simpl in *;
      try reflexivity; discriminate.
  - rewrite map_map. apply map_ext_in. intros c Hc. rewrite Forall_forall in *.
    apply IH; [exact Hc|]. apply Forall_forall. intros e He. apply Hcs. apply in_flat_map. now exists c.
Qed.

Lemma set_attributes_in_where (i : nat) (f : attrs -> attrs) (n : node) :
  set_attributes_in i f n = map_attrs_where (fun e => uid_of e =? i) f n.
Proof.
  induction n as [s|s|j t a cs IH] using node_ind'; try reflexivity.
  cbn [set_attributes_in map_attrs_where uid_of]. f_equal.
  apply map_ext_in. intros c Hc. rewrite Forall_forall in IH. now apply IH.
Qed.

Lemma map_attrs_compose (P : node -> bool) (f g : attrs -> attrs) (n : node) :
  (forall e, P (map_attrs_where P f e) = P e) ->
  map_attrs_where P g (map_attrs_where P f n)
  = map_attrs_where P (fun a => g (f a)) n.
Proof.
  intros HP. induction n as [s|s|i t a cs IH] using node_ind'; try reflexivity.
  pose proof (HP (Element i t a cs)) as HPn. cbn [map_attrs_where] in *.
  rewrite HPn. f_equal.
  - now destruct (P (Element i t a cs)).
  - rewrite map_map. apply map_ext_in. intros c Hc.
    rewrite Forall_forall in IH. now apply IH.
Qed.

(** The three statements of [reveal] as one assignment. *)
Lemma reveal_in_where (i : nat) (n : node) :
  reveal_in i n = map_attrs_where (fun e => uid_of e =? i) reveal_attrs n.
Proof.
  unfold reveal_in. rewrite !set_attributes_in_where.
  rewrite !map_attrs_compose; [reflexivity | |];
    intros e; now rewrite map_attrs_uid.
Qed.

Lemma uid_in_spec (l : list nat) (e : node) : uid_in l e = true <-> In (uid_of e) l.
Proof.
  unfold uid_in. rewrite existsb_exists. split.
  - intros [x [Hx E]]. apply Nat.eqb_eq in E. now subst.
  - intros H. exists (uid_of e). split; [exact H | apply Nat.eqb_refl].
Qed.

(** A loop of assignments over distinct elements is one pass. *)
Lemma fold_reveal_in (l : list nat) (n : node) :
  NoDup l ->
  fold_left (fun c el => reveal_in el c) l n
  = map_attrs_where (uid_in l) reveal_attrs n.
Proof.
  revert n. induction l as [|i l IH]; intros n Hl.
  - simpl. symmetry. apply map_attrs_id. apply Forall_forall. reflexivity.
  - inversion Hl as [|? ? Hi Hl']; subst. simpl. rewrite IH by exact Hl'.
    rewrite reveal_in_where, map_attrs_twice.
    + apply map_attrs_ext, Forall_forall. intros e _. reflexivity.
    + intros e. unfold uid_in. now rewrite map_attrs_uid.
    + apply Forall_forall. intros e _.
      destruct (Nat.eqb_spec (uid_of e) i) as [E|_]; [|reflexivity]. simpl.
      destruct (uid_in l e) eqn:Hin; [|reflexivity].
      apply uid_in_spec in Hin. congruence.
Qed.

(** ** Queries and identities *)

Lemma filter_flat_map {A B : Type} (p : B -> bool) (g : A -> list B) (l : list A) :
  flat_map (fun x => filter p (g x)) l = filter p (flat_map g l).
Proof.
  induction l as [|x l IH]; [reflexivity|]. simpl. now rewrite filter_app, IH.
Qed.

Lemma querySelectorAll_Sel (c : compound) (n : node) :
  querySelectorAll (Sel c) n = filter (matches c) (descendants n).
Proof. unfold querySelectorAll, descendants. simpl. apply filter_flat_map. Qed.

Lemma uids_descendants (n : node) :
  is_element n = true -> uids n = uid_of n :: map uid_of (descendants n).
Proof. destruct n; try discriminate. reflexivity. Qed.

Lemma NoDup_map_injective {A B : Type} (g : A -> B) (l : list A) (x y : A) :
  NoDup (map g l) -> In x l -> In y l -> g x = g y -> x = y.
Proof.
  induction l as [|z l IH]; [easy|]. simpl. intros H Hx Hy E.
  inversion H as [|? ? Hz Hl]; subst.
  destruct Hx as [->|Hx], Hy as [->|Hy]; try reflexivity.
  - exfalso. apply Hz. rewrite E. now apply in_map.
  - exfalso. apply Hz. rewrite <- E. now apply in_map.
  - now apply IH.
Qed.

Lemma NoDup_map_filter {A B : Type} (g : A -> B) (p : A -> bool) (l : list A) :
  NoDup (map g l) -> NoDup (map g (filter p l)).
Proof.
  induction l as [|z l IH]; [easy|]. simpl. intros H.
  inversion H as [|? ? Hz Hl]; subst. destruct (p z); [|now apply IH].
  simpl. constructor; [|now apply IH].
  intros Hin. apply Hz. apply in_map_iff in Hin as [w [E Hw]].
  apply filter_In in Hw as [Hw _]. rewrite <- E. now apply in_map.
Qed.

Lemma NoDup_descendants (n : node) :
  NoDup (uids n) -> NoDup (map uid_of (descendants n)).
Proof.
  destruct (is_element n) eqn:E.
  - rewrite (uids_descendants n E). intros H. now inversion H.
  - destruct n; try discriminate; constructor.
Qed.

Lemma root_not_below (n : node) :
  is_element n = true -> NoDup (uids n) ->
  ~ In (uid_of n) (map uid_of (descendants n)).
Proof. intros E. rewrite (uids_descendants n E). intros H. now inversion H. Qed.

Lemma find_unique {A : Type} (g : A -> nat) (l : list A) (x : A) :
  NoDup (map g l) -> In x l -> find (fun y => g y =? g x) l = Some x.
Proof.
  induction l as [|z l IH]; [easy|]. simpl. intros H Hx.
  inversion H as [|? ? Hz Hl]; subst.
  destruct (Nat.eqb_spec (g z) (g x)) as [E|E].
  - destruct Hx as [->|Hx]; [reflexivity|].
    exfalso. apply Hz. rewrite E. now apply in_map.
  - destruct Hx as [->|Hx]; [congruence | now apply IH].
Qed.

Lemma find_uid_unique (c e : node) :
  NoDup (uids c) -> In e (subtree c) -> find_uid (uid_of e) c = Some e.
Proof. intros H He. unfold find_uid. now apply find_unique. Qed.

(** Among the elements below [n], those with the identity of an element
    selected by [P] are the elements selected by [P]. *)
Lemma uid_in_selected (P : node -> bool) (n e : node) :
  NoDup (uids n) -> In e (descendants n) ->
  uid_in (map uid_of (filter P (descendants n))) e = P e.
Proof.
  intros Hn He. destruct (P e) eqn:HP.
  - apply uid_in_spec. apply in_map. now apply filter_In.
  - destruct (uid_in _ e) eqn:Hin; [|reflexivity].
    apply uid_in_spec in Hin. apply in_map_iff in Hin as [e' [E He']].
    apply filter_In in He' as [He' HP'].
    assert (e' = e).
    { apply (NoDup_map_injective uid_of (descendants n)); try assumption.
      now apply NoDup_descendants. }
    congruence.
Qed.

Lemma subtree_child_descendants (n c e : node) :
  In c (childNodes_of n) -> In e (subtree c) -> In e (descendants n).
Proof. intros Hc He. unfold descendants. apply in_flat_map. now exists c. Qed.

(** A pass over the elements a query returned is a pass over the children
    with the test of the query. *)
Lemma selected_pass (P : node -> bool) (f : attrs -> attrs) (n : node) :
  is_element n = true -> NoDup (uids n) ->
  map_attrs_where (uid_in (map uid_of (filter P (descendants n)))) f n
  = below (map_attrs_where P f) n.
Proof.
  intros E Hn. pose proof (root_not_below n E Hn) as Hroot.
  destruct n as [s|s|i t a cs]; try discriminate.
  cbn [map_attrs_where below]. f_equal.
  - destruct (uid_in _ (Element i t a cs)) eqn:Hin; [|reflexivity].
    apply uid_in_spec in Hin. exfalso. apply Hroot.
    apply in_map_iff in Hin as [e [E' He]]. apply filter_In in He as [He _].
    rewrite <- E'. now apply in_map.
  - apply map_ext_in. intros c Hc. apply map_attrs_ext, Forall_forall.
    intros e He. apply uid_in_selected; [exact Hn|].
    now apply (subtree_child_descendants (Element i t a cs) c e).
Qed.

(** The first reveal loop is one pass over the children of the clone. *)
Lemma reveal_tabpanels_in_pass (c : node) :
  is_element c = true -> NoDup (uids c) ->
  reveal_tabpanels_in c = below reveal_tabpanels_pass c.
Proof.
  intros E Hc. unfold reveal_tabpanels_in, reveal_tabpanels_pass.
  rewrite querySelectorAll_Sel, fold_reveal_in.
  - now apply selected_pass.
  - apply NoDup_map_filter. now apply NoDup_descendants.
Qed.

(** ** The second reveal loop *)

Lemma is_some_hd_filter {A : Type} (p : A -> bool) (l : list A) :
  is_some (hd_error (filter p l)) = existsb p l.
Proof.
  induction l as [|x l IH]; [reflexivity|]. simpl. now destruct (p x).
Qed.

Lemma existsb_map {A B : Type} (p : B -> bool) (g : A -> B) (l : list A) :
  existsb p (map g l) = existsb (fun x => p (g x)) l.
Proof. induction l as [|x l IH]; [reflexivity|]. simpl. now rewrite IH. Qed.

Lemma subtree_self (e : node) :
  is_element e = true -> subtree e = e :: descendants e.
Proof. destruct e; try discriminate. reflexivity. Qed.

(** [holds_pre]: some element of the subtree is a [<pre>]. *)
Lemma holds_pre_spec (e : node) :
  is_element e = true ->
  holds_pre e = existsb (matches (ByTag "pre")) (subtree e).
Proof.
  intros E. unfold holds_pre, querySelector.
  rewrite querySelectorAll_Sel, is_some_hd_filter, (subtree_self e E).
  simpl. unfold matches at 2. rewrite E. simpl. apply orb_comm.
Qed.

Lemma holds_pre_map_attrs (P : node -> bool) (f : attrs -> attrs) (e : node) :
  holds_pre (map_attrs_where P f e) = holds_pre e.
Proof.
  destruct (is_element e) eqn:E; [|now destruct e].
  rewrite !holds_pre_spec by (now rewrite ?map_attrs_is_element).
  rewrite map_attrs_subtree, existsb_map.
  induction (subtree e) as [|x l IH]; [reflexivity|]. simpl.
  now rewrite map_attrs_matches_tag, IH.
Qed.

Lemma find_map {A : Type} (q : A -> bool) (g : A -> A) (l : list A) :
  (forall x, q (g x) = q x) -> find q (map g l) = option_map g (find q l).
Proof.
  intros H. induction l as [|x l IH]; [reflexivity|]. simpl. rewrite H.
  now destruct (q x).
Qed.

Lemma find_uid_map_attrs (P : node -> bool) (f : attrs -> attrs) (i : nat) (n : node) :
  find_uid i (map_attrs_where P f n)
  = option_map (map_attrs_where P f) (find_uid i n).
Proof.
  unfold find_uid. rewrite map_attrs_subtree. apply find_map.
  intros x. now rewrite map_attrs_uid.
Qed.

Lemma holds_pre_at_map_attrs (P : node -> bool) (f : attrs -> attrs) (c : node) (el : nat) :
  holds_pre_at (map_attrs_where P f c) el = holds_pre_at c el.
Proof.
  unfold holds_pre_at. rewrite find_uid_map_attrs.
  destruct (find_uid el c); [|reflexivity]. simpl. apply holds_pre_map_attrs.
Qed.

(** The test does not depend on the assignments made so far, so the loop
    is a loop of assignments over the elements that pass the test. *)
Lemma fold_reveal_hidden_code (c0 : node) (l : list nat) (c : node) :
  (forall el, holds_pre_at c el = holds_pre_at c0 el) ->
  fold_left
    (fun c el =>
       match find_uid el c with
       | Some e => if holds_pre e then reveal_in el c else c
       | None => c
       end) l c
  = fold_left (fun c el => reveal_in el c) (filter (holds_pre_at c0) l) c.
Proof.
  revert c. induction l as [|i l IH]; intros c Hc; [reflexivity|].
  cbn [fold_left filter]. pose proof (Hc i) as Hi.
  unfold holds_pre_at at 1 in Hi.
  destruct (find_uid i c) as [e|] eqn:Ef; [destruct (holds_pre e) eqn:Eh|];
    rewrite <- Hi; cbn [fold_left]; apply IH; try exact Hc.
  intros el. rewrite reveal_in_where. now rewrite holds_pre_at_map_attrs.
Qed.

Lemma filter_filter {A : Type} (p q : A -> bool) (l : list A) :
  filter q (filter p l) = filter (fun x => p x && q x) l.
Proof.
  induction l as [|x l IH]; [reflexivity|]. simpl.
  destruct (p x); simpl; [|exact IH]. destruct (q x); now rewrite IH.
Qed.

Lemma reveal_hidden_code_in_pass (c : node) :
  is_element c = true -> NoDup (uids c) ->
  reveal_hidden_code_in c = below reveal_hidden_code_pass c.
Proof.
  intros E Hc. unfold reveal_hidden_code_in, reveal_hidden_code_pass.
  rewrite (fold_reveal_hidden_code c) by reflexivity.
  rewrite querySelectorAll_Sel, filter_map_swap, filter_filter.
  assert (Hf : filter (fun x => matches (ByAttr "aria-hidden" "true") x
                                && holds_pre_at c (uid_of x)) (descendants c)
               = filter (fun e => aria_hidden e && holds_pre e) (descendants c)).
  { apply filter_ext_in. intros e He. unfold aria_hidden. f_equal.
    unfold holds_pre_at. rewrite find_uid_unique; [reflexivity | exact Hc|].
    now apply descendants_subtree. }
  rewrite Hf, fold_reveal_in.
  - now apply selected_pass.
  - apply NoDup_map_filter. now apply NoDup_descendants.
Qed.

(** ** The strip loops *)

Lemma prune_is_element (p : node -> bool) (n : node) :
  is_element (prune p n) = is_element n.
Proof. now destruct n. Qed.

Lemma prune_uid (p : node -> bool) (n : node) : uid_of (prune p n) = uid_of n.
Proof. now destruct n. Qed.

Lemma prune_tagName (p : node -> bool) (n : node) :
  tagName_of (prune p n) = tagName_of n.
Proof. now destruct n. Qed.

Lemma prune_tag (p : node -> bool) (n : node) : tag_of (prune p n) = tag_of n.
Proof. unfold tag_of. now rewrite prune_tagName. Qed.

Lemma prune_attributes (p : node -> bool) (n : node) :
  attributes_of (prune p n) = attributes_of n.
Proof. now destruct n. Qed.

Lemma prune_matches (p : node -> bool) (c : compound) (n : node) :
  matches c (prune p n) = matches c n.
Proof.
  unfold matches, classList, className.
  now rewrite prune_is_element, prune_tag, prune_attributes.
Qed.

Lemma prune_matches_any (p : node -> bool) (l : list compound) (n : node) :
  matches_any l (prune p n) = matches_any l n.
Proof.
  unfold matches_any. induction l as [|c l IH]; [reflexivity|]. simpl.
  now rewrite prune_matches, IH.
Qed.

Lemma prune_ext (p q : node -> bool) (n : node) :
  (forall x, is_element x = false -> p x = q x) ->
  (forall e, In e (descendants n) -> p e = q e) ->
  prune p n = prune q n.
Proof.
  intros Hne. induction n as [s|s|i t a cs IH] using node_ind'; try reflexivity.
  intros H. cbn [prune]. f_equal.
  induction cs as [|c cs IHcs]; [reflexivity|].
  inversion IH as [|? ? Hc Hcs]; subst. cbn [flat_map].
  assert (Epq : p c = q c).
  { destruct (is_element c) eqn:E; [|now apply Hne].
    apply H. apply (subtree_child_descendants _ c); [now left|].
    rewrite (subtree_self c E). now left. }
  rewrite Epq. f_equal.
  - destruct (q c); [reflexivity|]. f_equal. apply Hc.
    intros e He. apply H. apply (subtree_child_descendants _ c); [now left|].
    now apply descendants_subtree.
  - apply IHcs; [exact Hcs|]. intros e He. apply H.
    unfold descendants in *. cbn [childNodes_of flat_map] in *.
    apply in_or_app. now right.
Qed.

Lemma prune_none (p : node -> bool) (n : node) :
  (forall x, is_element x = false -> p x = false) ->
  (forall e, In e (descendants n) -> p e = false) ->
  prune p n = n.
Proof.
  intros Hne. induction n as [s|s|i t a cs IH] using node_ind'; try reflexivity.
  intros H. cbn [prune]. f_equal.
  induction cs as [|c cs IHcs]; [reflexivity|].
  inversion IH as [|? ? Hc Hcs]; subst. cbn [flat_map].
  assert (Ep : p c = false).
  { destruct (is_element c) eqn:E; [|now apply Hne].
    apply H. apply (subtree_child_descendants _ c); [now left|].
    rewrite (subtree_self c E). now left. }
  rewrite Ep. cbn [app]. f_equal.
  - apply Hc. intros e He. apply H.
    apply (subtree_child_descendants _ c); [now left|].
    now apply descendants_subtree.
  - apply IHcs; [exact Hcs|]. intros e He. apply H.
    unfold descendants in *. cbn [childNodes_of flat_map] in *.
    apply in_or_app. now right.
Qed.

(** Two prunings in a row are one. *)
Lemma prune_prune (p q : node -> bool) (n : node) :
  (forall c, q (prune p c) = q c) ->
  prune q (prune p n) = prune (fun c => p c || q c) n.
Proof.
  intros Hq. induction n as [s|s|i t a cs IH] using node_ind'; try reflexivity.
  cbn [prune]. f_equal.
  induction IH as [|c cs Hc _ IHcs]; [reflexivity|].
  cbn [flat_map]. rewrite flat_map_app, IHcs. f_equal.
  destruct (p c); [reflexivity|]. cbn [flat_map orb]. rewrite Hq, app_nil_r.
  destruct (q c); [reflexivity|]. now rewrite Hc.
Qed.

Lemma remove_in_prune (i : nat) (n : node) :
  remove_in i n = prune (fun c => is_element c && (uid_of c =? i)) n.
Proof.
  induction n as [s|s|j t a cs IH] using node_ind'; try reflexivity.
  cbn [remove_in prune]. f_equal.
  induction IH as [|c cs Hc _ IHcs]; [reflexivity|].
  cbn [map filter flat_map]. rewrite remove_in_is_element, remove_in_uid, IHcs.
  destruct (is_element c && (uid_of c =? i)); [reflexivity|].
  cbn [negb app]. now rewrite Hc.
Qed.

Lemma fold_remove_in (l : list nat) (n : node) :
  fold_left (fun c el => remove_in el c) l n
  = prune (fun c => is_element c && uid_in l c) n.
Proof.
  revert n. induction l as [|i l IH]; intros n.
  - simpl. symmetry. apply prune_none; intros x _; apply andb_false_r.
  - cbn [fold_left]. rewrite IH, remove_in_prune, prune_prune.
    + apply prune_ext; intros x _; unfold uid_in; cbn [existsb];
        now rewrite andb_orb_distrib_r.
    + intros c. unfold uid_in. now rewrite prune_is_element, prune_uid.
Qed.

Lemma matches_is_element (c : compound) (x : node) :
  is_element x = false -> matches c x = false.
Proof. intros E. unfold matches. now rewrite E. Qed.


(** One strip loop removes the elements below the clone that match. *)
Lemma remove_selected (c : compound) (n : node) :
  NoDup (uids n) ->
  fold_left (fun n el => remove_in el n) (map uid_of (querySelectorAll (Sel c) n)) n
  = prune (matches c) n.
Proof.
  intros Hn. rewrite fold_remove_in, querySelectorAll_Sel. apply prune_ext.
  - intros x E. now rewrite E, matches_is_element.
  - intros e He. rewrite (uid_in_selected (matches c) n e Hn He).
    destruct (is_element e) eqn:E; [reflexivity|].
    now rewrite matches_is_element.
Qed.

Lemma prune_uids_incl (p : node -> bool) (n : node) (x : nat) :
  In x (uids (prune p n)) -> In x (uids n).
Proof.
  revert x. induction n as [s|s|i t a cs IH] using node_ind'; intros x;
    try (simpl; tauto).
  cbn [prune]. rewrite !uids_Element. intros [<-|H]; [now left|]. right.
  apply in_flat_map in H as [c' [Hc' Hx]].
  apply in_flat_map in Hc' as [c [Hc Hin]].
  destruct (p c); [destruct Hin|]. destruct Hin as [<-|[]].
  apply in_flat_map. exists c. split; [exact Hc|].
  rewrite Forall_forall in IH. now apply IH.
Qed.

Lemma NoDup_app_disjoint {A : Type} (l1 l2 : list A) (x : A) :
  NoDup (l1 ++ l2) -> In x l1 -> ~ In x l2.
Proof.
  induction l1 as [|y l1 IH]; [easy|]. simpl. intros H Hx Hx2.
  inversion H as [|? ? Hy Hl]; subst. destruct Hx as [->|Hx].
  - apply Hy. apply in_or_app. now right.
  - now apply (IH Hl Hx).
Qed.

Lemma prune_NoDup (p : node -> bool) (n : node) :
  NoDup (uids n) -> NoDup (uids (prune p n)).
Proof.
  induction n as [s|s|i t a cs IH] using node_ind';
    [intros; constructor | intros; constructor |].
  cbn [prune]. rewrite !uids_Element. intros H.
  inversion H as [|? ? Hi Hcs]; subst. constructor.
  - intros Hin. apply Hi.
    apply in_flat_map in Hin as [c' [Hc' Hx]].
    apply in_flat_map in Hc' as [c [Hc Hin]].
    destruct (p c); [destruct Hin|]. destruct Hin as [<-|[]].
    apply in_flat_map. exists c. split; [exact Hc|].
    now apply prune_uids_incl in Hx.
  - clear Hi H. induction IH as [|c cs Hc _ IHcs]; [constructor|].
    cbn [flat_map] in *. rewrite flat_map_app.
    pose proof (NoDup_app_remove_l _ _ Hcs) as Hr.
    pose proof (NoDup_app_remove_r _ _ Hcs) as Hl.
    destruct (p c); [now apply IHcs|]. cbn [flat_map]. rewrite app_nil_r.
    apply NoDup_app; [now apply Hc | now apply IHcs |].
    intros x Hx Hx'. apply prune_uids_incl in Hx.
    apply (NoDup_app_disjoint _ _ x Hcs Hx).
    apply in_flat_map in Hx' as [c' [Hc' Hx']].
    apply in_flat_map in Hc' as [c0 [Hc0 Hin]].
    destruct (p c0); [destruct Hin|]. destruct Hin as [<-|[]].
    apply in_flat_map. exists c0. split; [exact Hc0|].
    now apply prune_uids_incl in Hx'.
Qed.

(** The loops over a list of compound selectors remove the elements that
    match one of them. *)
Lemma strip_compounds_prune (l : list compound) (n : node) :
  NoDup (uids n) ->
  fold_left
    (fun c sel =>
       fold_left (fun c el => remove_in el c) (map uid_of (querySelectorAll sel c)) c)
    (map Sel l) n
  = prune (matches_any l) n.
Proof.
  revert n. induction l as [|c l IH]; intros n Hn.
  - simpl. symmetry. now apply prune_none.
  - cbn [map fold_left]. rewrite remove_selected by exact Hn.
    rewrite IH by (now apply prune_NoDup). rewrite prune_prune.
    + reflexivity.
    + intros x. apply prune_matches_any.
Qed.

Lemma strip_in_prune (c : node) : NoDup (uids c) -> strip_in c = prune stripped c.
Proof. intros H. unfold strip_in. now apply (strip_compounds_prune strip_compounds). Qed.

Lemma below_uids (P : node -> bool) (f : attrs -> attrs) (c : node) :
  uids (below (map_attrs_where P f) c) = uids c.
Proof.
  destruct c as [s|s|i t a cs]; try reflexivity.
  cbn [below]. rewrite !uids_Element. f_equal. rewrite flat_map_map.
  apply flat_map_ext. intros x. apply map_attrs_uids.
Qed.

Lemma below_is_element (g : node -> node) (c : node) :
  is_element (below g c) = is_element c.
Proof. now destruct c. Qed.

(** The three phases as passes over the children of the clone. *)
Lemma clean_in_pass (c : node) :
  is_element c = true -> NoDup (uids c) ->
  clean_in c
  = prune stripped (below reveal_hidden_code_pass (below reveal_tabpanels_pass c)).
Proof.
  intros E Hc. unfold clean_in.
  rewrite (reveal_tabpanels_in_pass c E Hc).
  rewrite reveal_hidden_code_in_pass;
    [| now rewrite below_is_element
     | unfold reveal_tabpanels_pass; now rewrite below_uids ].
  apply strip_in_prune. unfold reveal_hidden_code_pass, reveal_tabpanels_pass.
  now rewrite !below_uids.
Qed.

(** ** The clone has distinct objects *)

Lemma copy_nodes_range (l : list node) (j : nat) :
  j <= snd (copy_nodes j l)
  /\ Forall (fun i => j <= i < snd (copy_nodes j l))
            (flat_map uids (fst (copy_nodes j l))).
Proof.
  revert j. induction l as [|c l IH]; intros j; [simpl; split; [lia|constructor]|].
  rewrite copy_nodes_cons. cbn [fst snd flat_map].
  destruct (copy_node_range c j) as [H1 H2].
  destruct (IH (snd (copy_node j c))) as [H3 H4].
  split; [lia|]. apply Forall_app. split.
  - eapply Forall_impl; [|exact H2]. simpl. intros; lia.
  - eapply Forall_impl; [|exact H4]. simpl. intros; lia.
Qed.

Lemma copy_node_NoDup (n : node) (k : nat) : NoDup (uids (fst (copy_node k n))).
Proof.
  revert k. induction n as [s|s|i t a cs IH] using node_ind'; intros k;
    [constructor | constructor |].
  rewrite copy_node_Element. cbn [fst]. rewrite uids_Element. constructor.
  - intros Hin. destruct (copy_nodes_range cs (S k)) as [_ H].
    rewrite Forall_forall in H. apply H in Hin. lia.
  - generalize (S k). induction IH as [|c cs Hc _ IHcs]; intros j; [constructor|].
    rewrite copy_nodes_cons. cbn [fst flat_map].
    apply NoDup_app; [apply Hc | apply IHcs |].
    intros x Hx Hx'.
    destruct (copy_node_range c j) as [_ H1].
    destruct (copy_nodes_range cs (snd (copy_node j c))) as [_ H2].
    rewrite Forall_forall in H1, H2. apply H1 in Hx. apply H2 in Hx'. lia.
Qed.

Lemma fresh_clone_NoDup (root : node) (h : heap) : NoDup (uids (fresh_clone root h)).
Proof. apply copy_node_NoDup. Qed.

(** ** What [reveal] does to the attributes *)











(** ** The clone after the two reveal phases *)




(** ** From an exposed [<pre>] to a visited one *)



















(** ** A plain [<pre>] goes through the cleaning with its content *)







(** The second reveal loop at work: a hidden block with a sample is kept,
    a hidden block without one is removed. *)
Lemma hidden_block_sample :
  fst (extractPageText "https://docs.example/intro" page_hidden_block)
  = ("Source: https://docs.example/intro" ++ NL ++ NL
     ++ "```python" ++ NL ++ "print(1)" ++ NL ++ "```")%string
  /\ walked_tree "https://docs.example/intro" page_hidden_block
     = Some (Element 9 "ARTICLE" []
               [Element 10 "DIV" [("style", "color: red")]
                  [Element 11 "PRE" []
                     [Element 12 "CODE" [("class", "language-python")] [Text "print(1)
"]]]]).
Proof. split; reflexivity. Qed.


(* ================================================================== *)
(** * Part X: further properties of the extraction *)
(* ================================================================== *)

(** ** The clean-up of blank lines *)

Lemma without_newlines_app (u v : string) :
  without_newlines (u ++ v) = (without_newlines u ++ without_newlines v)%string.
Proof.
  induction u as [|c u IH]; [reflexivity|]. simpl.
  destruct (is_newline c); simpl; now rewrite IH.
Qed.

Lemma without_newlines_emit (k : nat) : without_newlines (emit_newlines k) = "".
Proof.
  unfold emit_newlines. destruct (k <? 3); [|reflexivity].
  induction k as [|k IH]; [reflexivity|]. simpl. exact IH.
Qed.

Lemma without_newlines_collapse_from (s : string) (k : nat) :
  without_newlines (collapse_from k s) = without_newlines s.
Proof.
  revert k. induction s as [|c s IH]; intros k; simpl.
  - apply without_newlines_emit.
  - destruct (is_newline c) eqn:Hc; [apply IH|].
    rewrite without_newlines_app, without_newlines_emit. simpl.
    now rewrite Hc, IH.
Qed.

Lemma length_emit_newlines (k : nat) : String.length (emit_newlines k) <= k.
Proof.
  unfold emit_newlines. destruct (k <? 3) eqn:E.
  - induction k as [|k IH]; [simpl; lia|].
    simpl. assert (String.length (repeat_string NL k) <= k).
    { clear. induction k; simpl; lia. }
    lia.
  - apply Nat.ltb_ge in E. simpl. lia.
Qed.

Lemma length_append (u v : string) :
  String.length (u ++ v) = String.length u + String.length v.
Proof. induction u as [|c u IH]; simpl; [reflexivity | now rewrite IH]. Qed.

Lemma length_collapse_from (s : string) (k : nat) :
  String.length (collapse_from k s) <= k + String.length s.
Proof.
  revert k. induction s as [|c s IH]; intros k; simpl.
  - pose proof (length_emit_newlines k). lia.
  - destruct (is_newline c).
    + specialize (IH (S k)). lia.
    + rewrite length_append. simpl. pose proof (length_emit_newlines k).
      specialize (IH 0). lia.
Qed.

(** The collapse deletes newline characters and nothing else: every other
    character is kept, in order, and the text never grows. *)
Theorem collapse_only_deletes_newlines (s : string) :
  without_newlines (collapse_newlines s) = without_newlines s
  /\ String.length (collapse_newlines s) <= String.length s.
Proof.
  split; [apply without_newlines_collapse_from|].
  apply (length_collapse_from s 0).
Qed.

Lemma repeat_string_NL_snoc (k : nat) (s : string) :
  (repeat_string NL k ++ String LF s)%string = (repeat_string NL (S k) ++ s)%string.
Proof. induction k as [|k IH]; [reflexivity|]. simpl in *. now rewrite IH. Qed.

Lemma emit_newlines_small (k : nat) : k <= 2 -> emit_newlines k = repeat_string NL k.
Proof.
  intros H. unfold emit_newlines. destruct (k <? 3) eqn:E; [reflexivity|].
  apply Nat.ltb_ge in E. lia.
Qed.

(** A text without a run of three newlines is left as it is. *)
Lemma collapse_from_triple_free (s : string) (k : nat) :
  k <= 2 -> triple_free k s = true ->
  collapse_from k s = (repeat_string NL k ++ s)%string.
Proof.
  revert k. induction s as [|c s IH]; intros k Hk H; simpl.
  - rewrite append_nil_r. now apply emit_newlines_small.
  - simpl in H. destruct (is_newline c) eqn:Hc.
    + apply andb_true_iff in H as [H1 H2]. apply Nat.ltb_lt in H1.
      rewrite IH by (try lia; exact H2).
      apply is_newline_eq in Hc. subst c. symmetry. apply repeat_string_NL_snoc.
    + rewrite (IH 0) by (try lia; exact H). simpl.
      now rewrite emit_newlines_small.
Qed.

Lemma triple_free_mono (s : string) (k k' : nat) :
  k' <= k -> triple_free k s = true -> triple_free k' s = true.
Proof.
  intros Hk. destruct s as [|c s]; [reflexivity|]. simpl.
  destruct (is_newline c); [|trivial]. intros H.
  apply andb_true_iff in H as [H1 H2]. apply Nat.ltb_lt in H1.
  apply andb_true_iff. split; [apply Nat.ltb_lt; lia|].
  revert k k' Hk H1 H2. induction s as [|d s IH]; intros k k' Hk H1 H2;
    [reflexivity|].
  simpl in *. destruct (is_newline d); [|exact H2].
  apply andb_true_iff in H2 as [H3 H4]. apply Nat.ltb_lt in H3.
  apply andb_true_iff. split; [apply Nat.ltb_lt; lia|].
  apply (IH (S k) (S k')); [lia | lia | exact H4].
Qed.

Lemma triple_free_app_r (p s : string) (k : nat) :
  triple_free k (p ++ s) = true -> triple_free 0 s = true.
Proof.
  revert k. induction p as [|c p IH]; intros k H.
  - apply (triple_free_mono s k 0); [lia | exact H].
  - simpl in H. destruct (is_newline c); [|now apply (IH 0)].
    apply andb_true_iff in H as [_ H]. now apply (IH (S k)).
Qed.

Lemma triple_free_app_l (s q : string) (k : nat) :
  triple_free k (s ++ q) = true -> triple_free k s = true.
Proof.
  revert k. induction s as [|c s IH]; intros k H; [reflexivity|].
  simpl in *. destruct (is_newline c); [|now apply IH].
  apply andb_true_iff in H as [H1 H2]. apply andb_true_iff.
  split; [exact H1 | now apply IH].
Qed.

Lemma triple_free_post_process (lines : list string) :
  triple_free 0 (post_process lines) = true.
Proof.
  unfold post_process.
  destruct (trim_split (collapse_newlines (join NL lines))) as [l [r [E _]]].
  pose proof (triple_free_collapse_from (join NL lines) 0) as H.
  fold (collapse_newlines (join NL lines)) in H. rewrite E in H.
  apply triple_free_app_r in H. now apply triple_free_app_l in H.
Qed.

Lemma trimStart_solid (s : string) : starts_solid s = true -> trimStart s = s.
Proof.
  destruct s as [|c s]; [discriminate|]. simpl. intros H.
  now destruct (is_space c).
Qed.

Lemma trim_idempotent (s : string) : trim (trim s) = trim s.
Proof.
  destruct (trim_solid s) as [E|[Hs He]]; [now rewrite E|].
  unfold trim at 1. rewrite trimStart_solid by exact Hs.
  rewrite <- (append_nil_r (trim s)) at 1.
  rewrite trimEnd_app_solid by exact He. simpl. apply append_nil_r.
Qed.

(** The text of the result is stable under the clean-up: collapsing and
    trimming it again changes nothing. *)
Theorem post_process_stable (lines : list string) :
  collapse_newlines (post_process lines) = post_process lines
  /\ trim (post_process lines) = post_process lines
  /\ post_process [post_process lines] = post_process lines.
Proof.
  assert (Hc : collapse_newlines (post_process lines) = post_process lines).
  { unfold collapse_newlines at 1.
    rewrite collapse_from_triple_free;
      [reflexivity | lia | apply triple_free_post_process]. }
  assert (Ht : trim (post_process lines) = post_process lines)
    by (unfold post_process; apply trim_idempotent).
  split; [exact Hc|]. split; [exact Ht|].
  unfold post_process at 1. cbn [join String.concat]. now rewrite Hc.
Qed.

(** ** The language of a fence *)

Lemma all_word_take_word (s : string) : all_word (take_word s) = true.
Proof.
  induction s as [|c s IH]; [reflexivity|]. simpl.
  destruct (is_word c) eqn:E; [|reflexivity]. simpl. now rewrite E.
Qed.

Lemma match_language_all_word (cls w : string) :
  match_language cls = Some w -> all_word w = true /\ w <> "".
Proof.
  induction cls as [|c cls IH]; [discriminate|].
  cbn [match_language].
  destruct (strip_prefix "language-" (String c cls)) as [after|]; [|exact IH].
  pose proof (all_word_take_word after) as Hw.
  destruct (take_word after) eqn:E; [exact IH|].
  intros [= <-]. split; [exact Hw | discriminate].
Qed.

(** The language written after the opening fence is made of word
    characters only (letters, digits, underscore), whatever the class
    attribute of the code element holds; it is empty exactly when the
    regular expression finds no match. *)
Theorem pre_language_is_word (codeEl : option node) :
  all_word (pre_language codeEl) = true
  /\ (pre_language codeEl = "" <->
      match codeEl with
      | Some c => match_language (className c) = None
      | None => True
      end).
Proof.
  unfold pre_language. destruct codeEl as [c|]; [|now split].
  destruct (match_language (className c)) as [w|] eqn:E; [|now split].
  destruct (match_language_all_word _ _ E) as [Hw Hne].
  split; [exact Hw|]. split; [contradiction | discriminate].
Qed.

(** ** The content root *)

Lemma hd_error_filter_first {A : Type} (p : A -> bool) (l : list A) (x : A) :
  hd_error (filter p l) = Some x -> first_where p l x.
Proof.
  induction l as [|y l IH]; [discriminate|]. simpl.
  destruct (p y) eqn:E.
  - intros [= <-]. exists [], l. now repeat split.
  - intros H. destruct (IH H) as [l1 [l2 [-> [H1 H2]]]].
    exists (y :: l1), l2. repeat split; [now constructor | exact H2].
Qed.

Lemma find_first {A : Type} (p : A -> bool) (l : list A) (x : A) :
  find p l = Some x -> first_where p l x.
Proof.
  induction l as [|y l IH]; [discriminate|]. simpl.
  destruct (p y) eqn:E.
  - intros [= <-]. exists [], l. now repeat split.
  - intros H. destruct (IH H) as [l1 [l2 [-> [H1 H2]]]].
    exists (y :: l1), l2. repeat split; [now constructor | exact H2].
Qed.

Lemma hd_error_filter_none_inv {A : Type} (p : A -> bool) (l : list A) :
  hd_error (filter p l) = None -> Forall (fun x => p x = false) l.
Proof.
  induction l as [|y l IH]; [constructor|]. simpl.
  destruct (p y) eqn:E; [discriminate|]. intros H. constructor; auto.
Qed.

Lemma find_none_inv {A : Type} (p : A -> bool) (l : list A) :
  find p l = None -> Forall (fun x => p x = false) l.
Proof.
  induction l as [|y l IH]; [constructor|]. simpl.
  destruct (p y) eqn:E; [discriminate|]. intros H. constructor; auto.
Qed.

(** The content root is the first article of the document in tree order;
    when the document has no article, the first element with the id
    [content-area]; when it has neither, the first main element; and there
    is none only when the document has none of the three. *)
Theorem content_root_priority (h : heap) :
  match content_root h with
  | Some root =>
      first_where is_article (subtree (documentElement h)) root
      \/ (Forall (fun e => is_article e = false) (subtree (documentElement h))
          /\ first_where is_content_area (subtree (documentElement h)) root)
      \/ (Forall (fun e => is_article e = false) (subtree (documentElement h))
          /\ Forall (fun e => is_content_area e = false) (subtree (documentElement h))
          /\ first_where is_main (subtree (documentElement h)) root)
  | None =>
      Forall (fun e => is_article e = false /\ is_content_area e = false
                       /\ is_main e = false)
             (subtree (documentElement h))
  end.
Proof.
  unfold content_root, or_else, document_querySelector, document_getElementById.
  cbn [select].
  destruct (hd_error (filter (matches (ByTag "article")) _)) as [r|] eqn:E1.
  - left. now apply hd_error_filter_first.
  - apply hd_error_filter_none_inv in E1.
    destruct (find _ (subtree (documentElement h))) as [r|] eqn:E2.
    + right. left. split; [exact E1|]. now apply find_first in E2.
    + apply find_none_inv in E2.
      destruct (hd_error (filter (matches (ByTag "main")) _)) as [r|] eqn:E3.
      * right. right. split; [exact E1|]. split; [exact E2|].
        now apply hd_error_filter_first.
      * apply hd_error_filter_none_inv in E3.
        rewrite Forall_forall in *. intros e He.
        split; [now apply E1|]. split; [now apply E2 | now apply E3].
Qed.

(** ** What the strip phase leaves *)

Lemma prune_descendants_clear (p : node -> bool) (n : node) :
  (forall e, p (prune p e) = p e) ->
  Forall (fun e => p e = false) (descendants (prune p n)).
Proof.
  intros Hp. induction n as [s|s|i t a cs IH] using node_ind'; try constructor.
  unfold descendants. cbn [prune childNodes_of].
  apply Forall_forall. intros e He.
  apply in_flat_map in He as [c' [Hc' He]].
  apply in_flat_map in Hc' as [c [Hc Hin]].
  destruct (p c) eqn:Epc; [destruct Hin|]. destruct Hin as [<-|[]].
  destruct (is_element c) eqn:Ec; [|now destruct c].
  rewrite (subtree_self (prune p c)) in He by (now rewrite prune_is_element).
  destruct He as [<-|He]; [now rewrite Hp|].
  rewrite Forall_forall in IH. specialize (IH c Hc).
  rewrite Forall_forall in IH. now apply IH.
Qed.

Lemma clean_in_NoDup (c : node) :
  is_element c = true -> NoDup (uids c) -> NoDup (uids (clean_in c)).
Proof.
  intros E H. rewrite (clean_in_pass c E H). apply prune_NoDup.
  unfold reveal_hidden_code_pass, reveal_tabpanels_pass. now rewrite !below_uids.
Qed.

Lemma walked_tree_NoDup (href : string) (h : heap) (root c : node) :
  content_root h = Some root -> walked_tree href h = Some c -> NoDup (uids c).
Proof.
  intros Hroot Hc. rewrite (walked_tree_clean href h root Hroot) in Hc.
  injection Hc as <-. apply clean_in_NoDup; [|apply fresh_clone_NoDup].
  unfold fresh_clone. rewrite copy_node_is_element.
  now apply content_root_is_element in Hroot.
Qed.

Lemma deref_fresh_none (h : heap) : deref (fresh h) h = None.
Proof.
  unfold deref.
  assert (Hn : forall ts, (forall t, In t ts -> In t (trees h)) ->
                          deref_in (fresh h) ts = None).
  { induction ts as [|t ts IH]; intros Hts; [reflexivity|]. simpl.
    rewrite find_uid_absent.
    - apply IH. intros t' Ht'. apply Hts. now right.
    - intros Hin.
      pose proof (fresh_above h t (fresh h) (Hts t (or_introl eq_refl)) Hin).
      lia. }
  now apply Hn.
Qed.

(** The walk has a tree to read exactly when a content root was found. *)
Lemma walked_tree_has_root (href : string) (h : heap) (c : node) :
  walked_tree href h = Some c -> exists root, content_root h = Some root.
Proof.
  intros Hc. destruct (content_root h) as [root|] eqn:Hroot; [eauto|].
  unfold walked_tree, heap_after in Hc.
  rewrite extract_without_root in Hc by exact Hroot. cbn [snd] in Hc.
  rewrite deref_fresh_none in Hc. discriminate.
Qed.

(** Below the root of the tree the walk reads there is no element that a
    strip selector matches: no nav, header, footer, button or svg, no
    element with [aria-hidden="true"], with the class
    [copy-for-llm-btn-wrapper] or [sr-only], and no table of contents. *)
Theorem walked_tree_stripped (href : string) (h : heap) (c : node) :
  walked_tree href h = Some c ->
  Forall (fun e => stripped e = false) (descendants c).
Proof.
  intros Hc. destruct (walked_tree_has_root href h c Hc) as [root Hroot].
  rewrite (walked_tree_clean href h root Hroot) in Hc. injection Hc as <-.
  rewrite clean_in_pass.
  - apply prune_descendants_clear. intros e. apply prune_matches_any.
  - unfold fresh_clone. rewrite copy_node_is_element.
    now apply content_root_is_element in Hroot.
  - apply fresh_clone_NoDup.
Qed.

Lemma walked_tree_stripped_witness :
  Forall (fun e => stripped e = false)
         (descendants (Element 7 "ARTICLE" [] [Element 9 "P" [] [Text "Body"]])).
Proof.
  apply (walked_tree_stripped "https://docs.example/intro" page_with_nav).
  reflexivity.
Defined.

(** ** List items *)

Lemma indexOf_nth (l : list node) (k : nat) (n : node) :
  NoDup (map uid_of l) -> nth_error l k = Some n ->
  indexOf (uid_of n) l = Some k.
Proof.
  revert k. induction l as [|e l IH]; intros k Hl Hk; [now destruct k|].
  inversion Hl as [|? ? He Hl']; subst. destruct k as [|k]; simpl in *.
  - injection Hk as ->. now rewrite Nat.eqb_refl.
  - destruct (Nat.eqb_spec (uid_of e) (uid_of n)) as [E|_].
    + exfalso. apply He. rewrite E. apply in_map. now apply nth_error_In in Hk.
    + now rewrite (IH k Hl' Hk).
Qed.

Lemma NoDup_flat_map_In {A B : Type} (g : A -> list B) (l : list A) (x : A) :
  NoDup (flat_map g l) -> In x l -> NoDup (g x).
Proof.
  induction l as [|y l IH]; [easy|]. simpl. intros H [->|Hx].
  - now apply NoDup_app_remove_r in H.
  - apply IH; [now apply NoDup_app_remove_l in H | exact Hx].
Qed.

Lemma subtree_NoDup (n e : node) :
  NoDup (uids n) -> In e (subtree n) -> NoDup (uids e).
Proof.
  revert e. induction n as [s|s|i t a cs IH] using node_ind'; intros e Hn He;
    [destruct He | destruct He |].
  cbn [subtree] in He. destruct He as [<-|He]; [exact Hn|].
  rewrite uids_Element in Hn. inversion Hn as [|? ? _ Hcs]; subst.
  apply in_flat_map in He as [c [Hc He]]. rewrite Forall_forall in IH.
  apply (IH c Hc e); [|exact He]. now apply (NoDup_flat_map_In uids cs c).
Qed.

Lemma children_NoDup (n : node) :
  NoDup (uids n) -> NoDup (map uid_of (children_of n)).
Proof.
  destruct n as [s|s|i t a cs]; try (intros; constructor).
  rewrite uids_Element. intros H. inversion H as [|? ? _ Hcs]; subst. clear H.
  unfold children_of. cbn [childNodes_of].
  induction cs as [|c cs IHcs]; [constructor|]. cbn [flat_map filter] in *.
  pose proof (NoDup_app_remove_l _ _ Hcs) as Hr.
  destruct (is_element c) eqn:E; [|now apply IHcs].
  cbn [map]. constructor; [|now apply IHcs].
  intros Hin. apply in_map_iff in Hin as [c' [Eu Hc']].
  apply filter_In in Hc' as [Hc' Ec'].
  apply (NoDup_app_disjoint _ _ (uid_of c) Hcs); [now apply uid_in_uids|].
  apply in_flat_map. exists c'. split; [exact Hc'|].
  rewrite <- Eu. now apply uid_in_uids.
Qed.

Lemma walk_li (parent n : node) (d : nat) :
  tag_of n = "li" ->
  walk parent n d
  = [((if (tag_of parent =? "ol")%string
       then (string_of_nat match indexOf (uid_of n) (children_of parent) with
                           | Some k => S k
                           | None => 0
                           end ++ ". ")%string
       else "- ") ++ trim (textContent n))%string].
Proof.
  intros H. destruct n as [s|s|i t a cs]; try discriminate.
  cbn [walk]. rewrite H. reflexivity.
Qed.

(** In the tree the walk reads, a list item is pushed as one line.  In an
    ordered list the line begins with the position of the item among the
    element children of the list, counted from 1, whatever text or
    comments stand between the items; in any other parent it begins with
    a dash. *)
Theorem list_item_numbering
  (href : string) (h : heap) (c parent n : node) (k d : nat) :
  walked_tree href h = Some c ->
  In parent (subtree c) ->
  nth_error (children_of parent) k = Some n ->
  tag_of n = "li" ->
  walk parent n d
  = [((if (tag_of parent =? "ol")%string
       then (string_of_nat (S k) ++ ". ")%string
       else "- ") ++ trim (textContent n))%string].
Proof.
  intros Hc Hp Hk Hn. rewrite (walk_li parent n d Hn).
  destruct (tag_of parent =? "ol")%string; [|reflexivity].
  rewrite (indexOf_nth (children_of parent) k n); [reflexivity | | exact Hk].
  apply children_NoDup. apply (subtree_NoDup c parent); [|exact Hp].
  destruct (walked_tree_has_root href h c Hc) as [root Hroot].
  now apply (walked_tree_NoDup href h root c).
Qed.

Lemma list_item_numbering_witness :
  walk (Element 10 "OL" []
          [Element 11 "LI" [] [Text "one"]; Text " ";
           Element 12 "LI" [] [Text "two"]; Element 13 "LI" [] [Text "three"]])
       (Element 13 "LI" [] [Text "three"]) 1
  = ["3. three"].
Proof.
  apply (list_item_numbering "https://docs.example/intro" page_ordered_list
           (Element 9 "ARTICLE" []
              [Element 10 "OL" []
                 [Element 11 "LI" [] [Text "one"]; Text " ";
                  Element 12 "LI" [] [Text "two"];
                  Element 13 "LI" [] [Text "three"]]])
           (Element 10 "OL" []
              [Element 11 "LI" [] [Text "one"]; Text " ";
               Element 12 "LI" [] [Text "two"]; Element 13 "LI" [] [Text "three"]])
           (Element 13 "LI" [] [Text "three"]) 2 1).
  - reflexivity.
  - right. now left.
  - reflexivity.
  - reflexivity.
Defined.

(** ** Tables *)

Lemma flat_mapi_rows (rows : list node) (i : nat) :
  flat_mapi
    (fun ri row =>
       let vals := map (fun c => trim (textContent c))
                       (querySelectorAll (Either (ByTag "th") (ByTag "td")) row) in
       ("| " ++ join " | " vals ++ " |")%string
       :: (if ri =? 0
           then [("| " ++ join " | " (map (fun _ => "---") vals) ++ " |")%string]
           else []))
    (S i) rows
  = map row_line rows.
Proof.
  revert i. induction rows as [|r rows IH]; intros i; [reflexivity|].
  cbn [flat_mapi map]. rewrite IH. reflexivity.
Qed.

(** A table pushes one line per row found below it, in tree order; the
    separator line is pushed once, right after the first row, with one
    [---] per cell of that row; a blank fragment ends the table.  A table
    without rows pushes the blank fragment alone. *)
Theorem table_lines (parent t : node) (d : nat) :
  tag_of t = "table" ->
  walk parent t d
  = match querySelectorAll (Sel (ByTag "tr")) t with
    | [] => [""]
    | r :: rest => row_line r :: row_separator r :: map row_line rest ++ [""]
    end.
Proof.
  intros H.
  destruct t as [s|s|i tg a cs]; try discriminate.
  cbn [walk]. rewrite H. cbv iota beta. cbn [heading_level String.eqb Ascii.eqb Bool.eqb andb orb negb].
  destruct (querySelectorAll (Sel (ByTag "tr")) (Element i tg a cs)) as [|r rest];
    [reflexivity|].
  cbn [flat_mapi]. rewrite flat_mapi_rows. reflexivity.
Qed.

Lemma table_lines_witness :
  walk (Element 7 "ARTICLE" [] [])
       (Element 8 "TABLE" []
          [Element 9 "TR" [] [Element 10 "TH" [] [Text "A"]; Element 11 "TH" [] [Text "B"]];
           Element 12 "TR" [] [Element 13 "TD" [] [Text "1"]; Element 14 "TD" [] [Text "2"]]])
       0
  = ["| A | B |"; "| --- | --- |"; "| 1 | 2 |"; ""].
Proof.
  apply (table_lines (Element 7 "ARTICLE" [] [])
           (Element 8 "TABLE" []
              [Element 9 "TR" [] [Element 10 "TH" [] [Text "A"]; Element 11 "TH" [] [Text "B"]];
               Element 12 "TR" [] [Element 13 "TD" [] [Text "1"]; Element 14 "TD" [] [Text "2"]]])
           0).
  reflexivity.
Defined.

(** ** Nothing pushed is lost *)

Lemma trimEnd_solid (s : string) : ends_solid s = true -> trimEnd s = s.
Proof.
  intros H. rewrite <- (append_nil_r s) at 1.
  rewrite trimEnd_app_solid by exact H. simpl. apply append_nil_r.
Qed.

Lemma trim_solid_id (s : string) :
  starts_solid s = true -> ends_solid s = true -> trim s = s.
Proof.
  intros Hs He. unfold trim. rewrite trimStart_solid by exact Hs.
  now apply trimEnd_solid.
Qed.

Lemma post_process_keeps (lines : list string) (core : string) :
  starts_solid core = true -> ends_solid core = true ->
  Substring core (join NL lines) ->
  Substring (collapse_newlines core) (post_process lines).
Proof.
  intros Hs He [p [q E]]. unfold post_process. rewrite E.
  apply trim_keeps;
    [now apply starts_solid_collapse | now apply ends_solid_collapse |].
  rewrite collapse_newlines_app
    by (right; apply starts_solid_not_newline; now apply starts_solid_app).
  rewrite collapse_newlines_app by (left; now apply ends_solid_not_newline).
  now eexists _, _.
Qed.

Lemma join_In (sep x : string) (l : list string) :
  In x l -> Substring x (join sep l).
Proof.
  intros H. apply in_split in H as [l1 [l2 ->]].
  destruct (join_middle sep l1 [x] l2) as [p [q E]]; [discriminate|].
  exists p, q. exact E.
Qed.

Lemma fragment_kept (href : string) (h : heap) (root : node) (x : string) :
  content_root h = Some root ->
  In x (title_lines h ++ body_lines href h) ->
  trim x <> "" ->
  Substring (collapse_newlines (trim x)) (fst (extractPageText href h)).
Proof.
  intros Hroot Hx Hne. rewrite (extract_result href h root Hroot).
  rewrite <- !append_assoc. apply Substring_app_r.
  destruct (trim_solid x) as [E|[Hs He]]; [contradiction|].
  apply post_process_keeps; try assumption.
  eapply Substring_trans; [apply trim_Substring|]. now apply join_In.
Qed.

(** Post-processing loses nothing but white space: every fragment pushed
    during the call, the title included, stands in the result with the
    white space at its two ends removed and its runs of newlines
    collapsed. *)
Theorem pushed_fragment_in_result (href : string) (h : heap) (root : node) (x : string) :
  content_root h = Some root ->
  In x (title_lines h ++ body_lines href h) ->
  trim x <> "" ->
  Substring (collapse_newlines (trim x)) (fst (extractPageText href h)).
Proof. apply fragment_kept. Qed.

Lemma pushed_fragment_in_result_witness :
  Substring (collapse_newlines (trim " see "))
            (fst (extractPageText "https://docs.example/intro" page_inline)).
Proof.
  apply (pushed_fragment_in_result "https://docs.example/intro" page_inline
           (Element 4 "ARTICLE" []
              [Element 5 "DIV" []
                 [Element 6 "H2" [] [Text " Install "];
                  Text " see ";
                  Element 7 "A" [("href", "/docs")] [Text "the docs"];
                  Element 8 "STRONG" [] [Text "now"]]])).
  - reflexivity.
  - vm_compute. tauto.
  - discriminate.
Defined.

(** ** The rules for text, links, bold text and headings *)

Lemma visited_fragments (href : string) (h : heap) (c m : node) :
  walked_tree href h = Some c -> visited c m ->
  exists parent' d', forall x, In x (walk parent' m d') -> In x (body_lines href h).
Proof.
  intros Hc Hv. destruct (visited_walk_clone c m Hv) as [parent' [d' [l1 [l2 E]]]].
  exists parent', d'. intros x Hx. unfold body_lines. rewrite Hc, E.
  apply in_or_app. right. apply in_or_app. now left.
Qed.

Lemma walk_link (parent n : node) (d : nat) :
  tag_of n = "a" ->
  walk parent n d = [("[" ++ trim (textContent n) ++ "](" ++ href_of n ++ ")")%string].
Proof.
  intros H. destruct n as [s|s|i t a cs]; try discriminate.
  cbn [walk]. rewrite H. reflexivity.
Qed.

Lemma walk_bold (parent n : node) (d : nat) :
  tag_of n = "strong" \/ tag_of n = "b" ->
  walk parent n d = [("**" ++ trim (textContent n) ++ "**")%string].
Proof.
  intros H. destruct n as [s|s|i t a cs]; try (destruct H; discriminate).
  cbn [walk]. destruct H as [H|H]; rewrite H; reflexivity.
Qed.

Lemma walk_heading (parent n : node) (d k : nat) :
  heading_level (tag_of n) = Some k ->
  walk parent n d
  = [""; (repeat_string "#" k ++ " " ++ trim (textContent n))%string; ""].
Proof.
  intros H. destruct n as [s|s|i t a cs]; try discriminate.
  cbn [walk]. now rewrite H.
Qed.

Lemma heading_level_range (t : string) (k : nat) :
  heading_level t = Some k -> 2 <= k <= 6.
Proof.
  unfold heading_level.
  destruct t as [|a0 [|a1 [|? ?]]]; try discriminate;
    destruct a0 as [[] [] [] [] [] [] [] []]; try discriminate.
  cbv zeta.
  destruct ((50 <=? nat_of_ascii a1) && (nat_of_ascii a1 <=? 54)) eqn:E;
    [|discriminate].
  intros [= <-]. apply andb_true_iff in E as [E1 E2].
  apply Nat.leb_le in E1, E2. lia.
Qed.

Lemma ends_solid_snoc_string (u : string) (c : ascii) :
  is_space c = false -> ends_solid (u ++ String c "") = true.
Proof. intros H. now rewrite ends_solid_snoc, H. Qed.

(** What a node the walk visits leaves in the result: a text node its
    text, without the white space at its ends, when it is not blank; a
    link [[text](href)], with an empty target when the attribute is
    missing; a bold element its text between double asterisks; a heading
    h2 to h6 as many [#] as its level and its text.  Runs of newlines
    inside the text are collapsed as everywhere. *)
Theorem visited_node_in_result (href : string) (h : heap) (root c m : node) :
  content_root h = Some root ->
  walked_tree href h = Some c ->
  visited c m ->
  (forall txt, m = Text txt -> trim txt <> "" ->
     Substring (collapse_newlines (trim txt)) (fst (extractPageText href h)))
  /\ (tag_of m = "a" ->
      Substring (collapse_newlines
                   ("[" ++ trim (textContent m) ++ "](" ++ href_of m ++ ")"))
                (fst (extractPageText href h)))
  /\ (tag_of m = "strong" \/ tag_of m = "b" ->
      Substring (collapse_newlines ("**" ++ trim (textContent m) ++ "**"))
                (fst (extractPageText href h)))
  /\ (forall k, heading_level (tag_of m) = Some k ->
      Substring (collapse_newlines
                   (trim (repeat_string "#" k ++ " " ++ trim (textContent m))))
                (fst (extractPageText href h))).
Proof.
  intros Hroot Hc Hv.
  destruct (visited_fragments href h c m Hc Hv) as [parent' [d' Hin]].
  assert (Hpush : forall x, In x (walk parent' m d') -> trim x <> "" ->
            Substring (collapse_newlines (trim x)) (fst (extractPageText href h))).
  { intros x Hx Hne. apply (fragment_kept href h root x Hroot);
      [|exact Hne]. apply in_or_app. right. now apply Hin. }
  split; [|split; [|split]].
  - intros txt -> Hne. apply Hpush; [|exact Hne]. cbn [walk].
    destruct (trim txt) eqn:E; [contradiction|]. now left.
  - intros Ht.
    set (x := ("[" ++ trim (textContent m) ++ "](" ++ href_of m ++ ")")%string).
    assert (Ex : trim x = x).
    { apply trim_solid_id; [reflexivity|]. unfold x.
      change ("[" ++ trim (textContent m) ++ "](" ++ href_of m ++ ")")%string
        with ("[" ++ trim (textContent m) ++ "](" ++ href_of m ++ String ")" "")%string.
      rewrite <- !append_assoc. now apply ends_solid_snoc_string. }
    rewrite <- Ex. apply Hpush.
    + rewrite (walk_link parent' m d' Ht). now left.
    + rewrite Ex. discriminate.
  - intros Ht. set (x := ("**" ++ trim (textContent m) ++ "**")%string).
    assert (Ex : trim x = x).
    { apply trim_solid_id; [reflexivity|]. unfold x.
      change ("**" ++ trim (textContent m) ++ "**")%string
        with ("**" ++ trim (textContent m) ++ "*" ++ String "*" "")%string.
      rewrite <- !append_assoc. now apply ends_solid_snoc_string. }
    rewrite <- Ex. apply Hpush.
    + rewrite (walk_bold parent' m d' Ht). now left.
    + rewrite Ex. discriminate.
  - intros k Hk. apply Hpush.
    + rewrite (walk_heading parent' m d' k Hk). right. now left.
    + pose proof (heading_level_range _ _ Hk) as Hlev.
      destruct k as [|k]; [lia|]. intros E.
      assert (Hs : Substring "#" (trim (repeat_string "#" (S k) ++ " "
                                        ++ trim (textContent m)))).
      { apply trim_keeps; [reflexivity | reflexivity |]. now exists "", (repeat_string "#" k ++ " " ++ trim (textContent m))%string. }
      rewrite E in Hs. apply Substring_nil_inv in Hs. discriminate.
Qed.

Lemma visited_node_in_result_witness :
  Substring (collapse_newlines ("[" ++ trim "the docs" ++ "](" ++ "/docs" ++ ")"))
            (fst (extractPageText "https://docs.example/intro" page_inline)).
Proof.
  pose (a := Element 12 "A" [("href", "/docs")] [Text "the docs"]).
  pose (dv := Element 10 "DIV" []
                [Element 11 "H2" [] [Text " Install "]; Text " see "; a;
                 Element 13 "STRONG" [] [Text "now"]]).
  pose (c := Element 9 "ARTICLE" [] [dv]).
  destruct (visited_node_in_result "https://docs.example/intro" page_inline
              (Element 4 "ARTICLE" []
                 [Element 5 "DIV" []
                    [Element 6 "H2" [] [Text " Install "];
                     Text " see ";
                     Element 7 "A" [("href", "/docs")] [Text "the docs"];
                     Element 8 "STRONG" [] [Text "now"]]])
              c a) as [_ [H _]].
  - reflexivity.
  - reflexivity.
  - exists dv. split; [now left|]. split; [reflexivity|].
    apply (visits_child c dv a a); [reflexivity | right; right; now left | apply visits_here].
  - apply H. reflexivity.
Defined.

(** ** The text does not depend on the identities *)

Lemma forget_is_element (n : node) : is_element (forget_uids n) = is_element n.
Proof. now destruct n. Qed.

Lemma forget_tagName (n : node) : tagName_of (forget_uids n) = tagName_of n.
Proof. now destruct n. Qed.

Lemma forget_tag (n : node) : tag_of (forget_uids n) = tag_of n.
Proof. unfold tag_of. now rewrite forget_tagName. Qed.

Lemma forget_attributes (n : node) : attributes_of (forget_uids n) = attributes_of n.
Proof. now destruct n. Qed.

Lemma forget_childNodes (n : node) :
  childNodes_of (forget_uids n) = map forget_uids (childNodes_of n).
Proof. now destruct n. Qed.

Lemma forget_className (n : node) : className (forget_uids n) = className n.
Proof. unfold className. now rewrite forget_attributes. Qed.

Lemma forget_textContent (n : node) : textContent (forget_uids n) = textContent n.
Proof.
  induction n as [s|s|i t a cs IH] using node_ind'; try reflexivity.
  cbn [forget_uids textContent]. f_equal. rewrite map_map.
  apply map_ext_in. intros c Hc. rewrite Forall_forall in IH. now apply IH.
Qed.

Lemma forget_matches (c : compound) (n : node) :
  matches c (forget_uids n) = matches c n.
Proof.
  unfold matches, classList.
  now rewrite forget_is_element, forget_tag, forget_className, forget_attributes.
Qed.

Lemma forget_subtree (n : node) : subtree (forget_uids n) = map forget_uids (subtree n).
Proof.
  induction n as [s|s|i t a cs IH] using node_ind'; try reflexivity.
  cbn [forget_uids subtree map]. f_equal.
  rewrite flat_map_map, map_flat_map. now apply flat_map_ext_Forall.
Qed.

Lemma filter_map_commute {A : Type} (p : A -> bool) (g : A -> A) (l : list A) :
  (forall x, p (g x) = p x) -> filter p (map g l) = map g (filter p l).
Proof.
  intros H. induction l as [|x l IH]; [reflexivity|]. simpl. rewrite H.
  destruct (p x); simpl; now rewrite IH.
Qed.

Lemma forget_select_within (a c : compound) (inside : bool) (n : node) :
  select_within a c inside (forget_uids n)
  = map forget_uids (select_within a c inside n).
Proof.
  revert inside. induction n as [s|s|i t b cs IH] using node_ind'; intros inside;
    try reflexivity.
  change (forget_uids (Element i t b cs))
    with (Element 0 t b (map forget_uids cs)) at 1.
  cbn [select_within].
  change (Element 0 t b (map forget_uids cs)) with (forget_uids (Element i t b cs)).
  rewrite !forget_matches, map_app. f_equal.
  - now destruct (inside && matches c (Element i t b cs)).
  - rewrite flat_map_map, map_flat_map. apply flat_map_ext_Forall.
    eapply Forall_impl; [|exact IH]. intros x Hx. apply Hx.
Qed.

Lemma forget_select (s : selector) (n : node) :
  select s (forget_uids n) = map forget_uids (select s n).
Proof.
  destruct s as [c|a c|c1 c2]; cbn [select].
  - rewrite forget_subtree. apply filter_map_commute. apply forget_matches.
  - apply forget_select_within.
  - rewrite forget_subtree. apply filter_map_commute.
    intros x. now rewrite !forget_matches.
Qed.

Lemma forget_querySelectorAll (s : selector) (n : node) :
  querySelectorAll s (forget_uids n) = map forget_uids (querySelectorAll s n).
Proof.
  unfold querySelectorAll. rewrite forget_childNodes, flat_map_map, map_flat_map.
  apply flat_map_ext. intros x. apply forget_select.
Qed.

Lemma textContent_shape (n n' : node) :
  forget_uids n = forget_uids n' -> textContent n = textContent n'.
Proof.
  intros E. now rewrite <- (forget_textContent n), E, forget_textContent.
Qed.

Lemma querySelectorAll_shape (s : selector) (n n' : node) :
  forget_uids n = forget_uids n' ->
  map forget_uids (querySelectorAll s n) = map forget_uids (querySelectorAll s n').
Proof. intros E. now rewrite <- !forget_querySelectorAll, E. Qed.

Lemma pre_shape (n n' : node) :
  forget_uids n = forget_uids n' ->
  pre_language (querySelector (Sel (ByTag "code")) n)
  = pre_language (querySelector (Sel (ByTag "code")) n')
  /\ pre_code (querySelector (Sel (ByTag "code")) n) n
     = pre_code (querySelector (Sel (ByTag "code")) n') n'.
Proof.
  intros E. pose proof (querySelectorAll_shape (Sel (ByTag "code")) n n' E) as Hq.
  unfold querySelector, pre_language, pre_code.
  destruct (querySelectorAll (Sel (ByTag "code")) n) as [|c l],
           (querySelectorAll (Sel (ByTag "code")) n') as [|c' l'];
    try discriminate; cbn [hd_error].
  - split; [reflexivity|]. now rewrite (textContent_shape n n' E).
  - cbn [map] in Hq. injection Hq as Hc _. split.
    + now rewrite <- (forget_className c), Hc, forget_className.
    + now rewrite (textContent_shape c c' Hc).
Qed.

Lemma map_shape {B : Type} (g : node -> B) (l l' : list node) :
  (forall x x', forget_uids x = forget_uids x' -> g x = g x') ->
  map forget_uids l = map forget_uids l' -> map g l = map g l'.
Proof.
  intros Hg. revert l'. induction l as [|x l IH]; intros [|x' l'] E;
    try discriminate; [reflexivity|].
  cbn [map] in *. injection E as Ex El. now rewrite (Hg x x' Ex), (IH l' El).
Qed.

Lemma row_cells_shape (r r' : node) :
  forget_uids r = forget_uids r' -> row_cells r = row_cells r'.
Proof.
  intros E. unfold row_cells. apply map_shape.
  - intros x x' Ex. now rewrite (textContent_shape x x' Ex).
  - now apply querySelectorAll_shape.
Qed.

Lemma flat_mapi_shape {B : Type} (g : nat -> node -> list B) (l l' : list node) (i : nat) :
  (forall k x x', forget_uids x = forget_uids x' -> g k x = g k x') ->
  map forget_uids l = map forget_uids l' -> flat_mapi g i l = flat_mapi g i l'.
Proof.
  intros Hg. revert l' i. induction l as [|x l IH]; intros [|x' l'] i E;
    try discriminate; [reflexivity|].
  cbn [map flat_mapi] in *. injection E as Ex El.
  now rewrite (Hg i x x' Ex), (IH l' (S i) El).
Qed.

Lemma indexOf_middle (done rest : list node) (c : node) :
  NoDup (map uid_of (done ++ c :: rest)) ->
  indexOf (uid_of c) (done ++ c :: rest) = Some (length done).
Proof.
  intros H. apply indexOf_nth; [exact H|].
  rewrite nth_error_app2 by lia. now rewrite Nat.sub_diag.
Qed.

Lemma childNodes_NoDup (i : nat) (t : string) (a : attrs) (cs : list node) :
  NoDup (uids (Element i t a cs)) -> Forall (fun c => NoDup (uids c)) cs.
Proof.
  rewrite uids_Element. intros H. inversion H as [|? ? _ Hcs]; subst.
  apply Forall_forall. intros c Hc. now apply (NoDup_flat_map_In uids cs c).
Qed.

Lemma walk_children_shape (q : node -> bool) (n n' : node) (d d' : nat) :
  (forall x x', forget_uids x = forget_uids x' -> q x = q x') ->
  tag_of n = tag_of n' ->
  NoDup (map uid_of (children_of n)) -> NoDup (map uid_of (children_of n')) ->
  forall cs cs' done done',
    length done = length done' ->
    children_of n = done ++ filter is_element cs ->
    children_of n' = done' ++ filter is_element cs' ->
    map forget_uids cs = map forget_uids cs' ->
    Forall walk_shape_at cs ->
    Forall (fun c => NoDup (uids c)) cs -> Forall (fun c => NoDup (uids c)) cs' ->
    flat_map (fun c => if q c then walk n c d else []) cs
    = flat_map (fun c => if q c then walk n' c d' else []) cs'.
Proof.
  intros Hq Ht Hn Hn'.
  induction cs as [|c cs IH]; intros [|c' cs'] done done' Hlen Hc Hc' E Hw Hd Hd';
    try discriminate; [reflexivity|].
  cbn [map] in E. injection E as Ec Ecs.
  inversion Hw as [|? ? Hwc Hws]; subst.
  inversion Hd as [|? ? Hdc Hds]; subst.
  inversion Hd' as [|? ? Hdc' Hds']; subst.
  assert (Ee : is_element c' = is_element c).
  { now rewrite <- (forget_is_element c'), <- Ec, forget_is_element. }
  cbn [flat_map filter] in *. rewrite Ee in Hc'. f_equal.
  - rewrite (Hq c c' Ec). destruct (q c'); [|reflexivity].
    apply Hwc; try assumption. intros El. rewrite El in *.
    rewrite Hc, Hc'. rewrite Hc in Hn. rewrite Hc' in Hn'.
    rewrite !indexOf_middle by assumption. now rewrite Hlen.
  - destruct (is_element c).
    + apply (IH cs' (done ++ [c]) (done' ++ [c'])); try assumption.
      * rewrite !length_app. simpl. lia.
      * now rewrite <- app_assoc.
      * now rewrite <- app_assoc.
    + now apply (IH cs' done done').
Qed.

Lemma walk_same_shape (n : node) : walk_shape_at n.
Proof.
  induction n as [s|s|i t a cs IH] using node_ind'; intros n' p p' d d' E Ht Hi Hn Hn'.
  - destruct n'; try discriminate. cbn in E. now injection E as <-.
  - destruct n'; try discriminate. reflexivity.
  - destruct n' as [s|s|i' t' a' cs']; try discriminate.
    pose proof (textContent_shape _ _ E) as Etext.
    destruct (pre_shape _ _ E) as [Elang Ecode].
    pose proof (querySelectorAll_shape (Sel (ByTag "tr")) _ _ E) as Erows.
    specialize (Hi eq_refl).
    pose proof (children_NoDup _ Hn) as Hk.
    pose proof (children_NoDup _ Hn') as Hk'.
    pose proof (childNodes_NoDup _ _ _ _ Hn) as Hcs.
    pose proof (childNodes_NoDup _ _ _ _ Hn') as Hcs'.
    cbn [forget_uids] in E. injection E as <- <- Ecs.
    cbn [walk].
    change (tag_of (Element i' t a cs')) with (tag_of (Element i t a cs)).
    change (attributes_of (Element i' t a cs')) with (attributes_of (Element i t a cs)).
    change (uid_of (Element i t a cs)) with i in *.
    change (uid_of (Element i' t a cs')) with i' in *.
    set (n := Element i t a cs) in *. set (n' := Element i' t a cs') in *.
    set (tag := tag_of n).
    rewrite <- Ht, <- Etext, <- Elang, <- Ecode, <- Hi.
    destruct (heading_level tag); [reflexivity|].
    destruct (tag =? "pre")%string; [reflexivity|].
    destruct ((tag =? "code")%string && negb (tag_of p =? "pre")%string);
      [reflexivity|].
    destruct (tag =? "p")%string.
    { f_equal. f_equal.
      apply (walk_children_shape (fun _ => true) n n' d d') with (done := []) (done' := []);
        try assumption; reflexivity. }
    destruct (tag =? "li")%string; [reflexivity|].
    destruct (tag =? "table")%string.
    { f_equal. apply flat_mapi_shape; [|exact Erows].
      intros k x x' Ex. pose proof (row_cells_shape x x' Ex) as Er.
      unfold row_cells in Er. now rewrite Er. }
    destruct (tag =? "blockquote")%string; [reflexivity|].
    destruct ((tag =? "strong")%string || (tag =? "b")%string); [reflexivity|].
    destruct (tag =? "a")%string; [reflexivity|].
    apply (walk_children_shape (fun _ => true) n n' (S d) (S d')) with (done := []) (done' := []);
      try assumption; reflexivity.
Qed.

Lemma walk_clone_same_shape (c c' : node) :
  forget_uids c = forget_uids c' -> NoDup (uids c) -> NoDup (uids c') ->
  walk_clone c = walk_clone c'.
Proof.
  intros E Hn Hn'. unfold walk_clone.
  assert (Ht : tag_of c = tag_of c') by (now rewrite <- (forget_tag c), E, forget_tag).
  pose proof (children_NoDup _ Hn) as Hk. pose proof (children_NoDup _ Hn') as Hk'.
  destruct c as [s|s|i t a cs], c' as [s'|s'|i' t' a' cs']; try discriminate;
    try reflexivity.
  pose proof (childNodes_NoDup _ _ _ _ Hn) as Hcs.
  pose proof (childNodes_NoDup _ _ _ _ Hn') as Hcs'.
  cbn [forget_uids] in E. injection E as <- <- Ecs.
  set (n := Element i t a cs) in *. set (n' := Element i' t a cs') in *.
  pose (q := fun x => is_element x && negb (skipped x)).
  assert (Hflat : forall m l,
             flat_map (fun child =>
                         if truthy (tagName_of child) && (tag_of child =? "h1")%string
                         then [] else walk m child 0) (filter is_element l)
             = flat_map (fun x => if q x then walk m x 0 else []) l).
  { intros m l. induction l as [|x l IHl]; [reflexivity|]. cbn [filter flat_map].
    unfold q at 1, skipped. destruct (is_element x); cbn [flat_map andb];
      [|exact IHl].
    rewrite IHl. now destruct (truthy (tagName_of x) && (tag_of x =? "h1")%string). }
  unfold children_of. cbn [childNodes_of n n']. fold n n'. rewrite !Hflat.
  apply (walk_children_shape q n n' 0 0) with (done := []) (done' := []);
    try assumption; try reflexivity.
  - intros x x' Ex. unfold q, skipped.
    now rewrite <- (forget_is_element x), <- (forget_tagName x), <- (forget_tag x),
      Ex, forget_is_element, forget_tagName, forget_tag.
  - apply Forall_forall. intros x _. apply walk_same_shape.
Qed.

Lemma forget_map_attrs (P : node -> bool) (f : attrs -> attrs) (n : node) :
  (forall e, P (forget_uids e) = P e) ->
  forget_uids (map_attrs_where P f n) = map_attrs_where P f (forget_uids n).
Proof.
  intros HP. induction n as [s|s|i t a cs IH] using node_ind'; try reflexivity.
  pose proof (HP (Element i t a cs)) as Hn.
  cbn [map_attrs_where forget_uids] in *. rewrite Hn. f_equal.
  rewrite !map_map. apply map_ext_in. intros c Hc.
  rewrite Forall_forall in IH. now apply IH.
Qed.

Lemma forget_prune (p : node -> bool) (n : node) :
  (forall e, p (forget_uids e) = p e) ->
  forget_uids (prune p n) = prune p (forget_uids n).
Proof.
  intros Hp. induction n as [s|s|i t a cs IH] using node_ind'; try reflexivity.
  cbn [prune forget_uids]. f_equal. rewrite flat_map_map, map_flat_map.
  apply flat_map_ext_Forall. eapply Forall_impl; [|exact IH].
  intros c Hc. rewrite Hp. destruct (p c); [reflexivity|]. cbn [map]. now rewrite Hc.
Qed.

Lemma forget_below (g : node -> node) (n : node) :
  (forall c, forget_uids (g c) = g (forget_uids c)) ->
  forget_uids (below g n) = below g (forget_uids n).
Proof.
  intros Hg. destruct n as [s|s|i t a cs]; try reflexivity.
  cbn [below forget_uids]. f_equal. rewrite !map_map.
  apply map_ext. intros c. apply Hg.
Qed.

Lemma forget_holds_pre (e : node) : holds_pre (forget_uids e) = holds_pre e.
Proof.
  unfold holds_pre, querySelector.
  rewrite forget_querySelectorAll, forget_tag. f_equal.
  now destruct (querySelectorAll (Sel (ByTag "pre")) e).
Qed.

Lemma forget_matches_any (l : list compound) (e : node) :
  matches_any l (forget_uids e) = matches_any l e.
Proof.
  unfold matches_any. induction l as [|c l IH]; [reflexivity|]. simpl.
  now rewrite forget_matches, IH.
Qed.

(** The tree the walk reads, from the clone: the two reveal passes over
    the children of the clone, then the strip pass. *)
Lemma forget_cleaned (c : node) :
  forget_uids
    (prune stripped (below reveal_hidden_code_pass (below reveal_tabpanels_pass c)))
  = prune stripped
      (below reveal_hidden_code_pass (below reveal_tabpanels_pass (forget_uids c))).
Proof.
  rewrite forget_prune by (intros e; apply forget_matches_any).
  rewrite forget_below.
  - rewrite forget_below; [reflexivity|].
    intros x. apply forget_map_attrs. intros e. apply forget_matches.
  - intros x. apply forget_map_attrs. intros e. unfold aria_hidden.
    now rewrite forget_matches, forget_holds_pre.
Qed.

Lemma fresh_clone_is_element (root : node) (h : heap) :
  is_element (fresh_clone root h) = is_element root.
Proof. unfold fresh_clone. apply copy_node_is_element. Qed.

(** The fragments of the walk are read off the cleaned content root,
    whatever objects the clone is made of. *)
Lemma walk_of_cleaned (root root' : node) (h h' : heap) :
  is_element root = true -> is_element root' = true ->
  prune stripped (below reveal_hidden_code_pass
                    (below reveal_tabpanels_pass (forget_uids root)))
  = prune stripped (below reveal_hidden_code_pass
                      (below reveal_tabpanels_pass (forget_uids root'))) ->
  walk_clone (clean_in (fresh_clone root h))
  = walk_clone (clean_in (fresh_clone root' h')).
Proof.
  intros E E' H.
  apply walk_clone_same_shape.
  - rewrite !clean_in_pass
      by (try apply fresh_clone_NoDup; now rewrite fresh_clone_is_element).
    now rewrite !forget_cleaned, !fresh_clone_forget.
  - apply clean_in_NoDup; [now rewrite fresh_clone_is_element | apply fresh_clone_NoDup].
  - apply clean_in_NoDup; [now rewrite fresh_clone_is_element | apply fresh_clone_NoDup].
Qed.

Lemma body_lines_root (href : string) (h : heap) (root : node) :
  content_root h = Some root ->
  body_lines href h = walk_clone (clean_in (fresh_clone root h)).
Proof. intros H. unfold body_lines. now rewrite (walked_tree_clean href h root H). Qed.

Lemma hd_error_map {A B : Type} (g : A -> B) (l : list A) :
  hd_error (map g l) = option_map g (hd_error l).
Proof. now destruct l. Qed.

Lemma or_else_map {A B : Type} (g : A -> B) (a b : option A) :
  option_map g (or_else a b) = or_else (option_map g a) (option_map g b).
Proof. now destruct a. Qed.

Lemma content_root_forget (h : heap) :
  option_map forget_uids (content_root h)
  = content_root (mkHeap (forget_uids (documentElement h)) []).
Proof.
  unfold content_root, document_querySelector, document_getElementById.
  cbn [documentElement]. rewrite !or_else_map, <- !hd_error_map, <- !forget_select.
  f_equal. f_equal. rewrite forget_subtree. symmetry. apply find_map.
  intros x. now rewrite forget_attributes.
Qed.

Lemma titleEl_forget (h : heap) :
  option_map forget_uids (titleEl h)
  = titleEl (mkHeap (forget_uids (documentElement h)) []).
Proof.
  unfold titleEl, document_querySelector. cbn [documentElement].
  now rewrite !or_else_map, <- !hd_error_map, <- !forget_select.
Qed.

Lemma title_lines_forget (h : heap) :
  title_lines h = title_lines (mkHeap (forget_uids (documentElement h)) []).
Proof.
  unfold title_lines. rewrite <- titleEl_forget.
  destruct (titleEl h) as [t|]; [|reflexivity]. cbn [option_map].
  now rewrite forget_textContent.
Qed.

Lemma extract_same_shape (href : string) (h h' : heap) :
  forget_uids (documentElement h) = forget_uids (documentElement h') ->
  fst (extractPageText href h) = fst (extractPageText href h').
Proof.
  intros E.
  pose proof (content_root_forget h) as Hr. pose proof (content_root_forget h') as Hr'.
  rewrite E in Hr. rewrite <- Hr' in Hr.
  destruct (content_root h) as [root|] eqn:Hroot,
           (content_root h') as [root'|] eqn:Hroot'; try discriminate.
  - cbn [option_map] in Hr. injection Hr as Hr.
    rewrite (extract_result href h root Hroot), (extract_result href h' root' Hroot').
    rewrite (title_lines_forget h), (title_lines_forget h'), E.
    rewrite (body_lines_root href h root Hroot), (body_lines_root href h' root' Hroot').
    rewrite (walk_of_cleaned root root' h h'); [reflexivity | | | now rewrite Hr].
    + now apply content_root_is_element in Hroot.
    + now apply content_root_is_element in Hroot'.
  - now rewrite !extract_without_root.
Qed.

(** The text depends on the live document alone, and not on which
    objects it is made of: two heaps whose documents are equal up to the
    identities of their elements give the same text, whatever detached
    trees they hold. *)
Theorem text_depends_on_shape (href : string) (h h' : heap) :
  forget_uids (documentElement h) = forget_uids (documentElement h') ->
  fst (extractPageText href h) = fst (extractPageText href h').
Proof. apply extract_same_shape. Qed.

Lemma text_depends_on_shape_witness :
  fst (extractPageText "https://docs.example/intro" page_ordered_list)
  = fst (extractPageText "https://docs.example/intro"
           (mkHeap (fst (copy_node 40 (documentElement page_ordered_list)))
                   [Element 7 "DIV" [] [Text "left over"]])).
Proof.
  apply (text_depends_on_shape "https://docs.example/intro" page_ordered_list).
  reflexivity.
Defined.

(** A second call returns the text of the first: the clone a call leaves
    in the heap has no effect on the calls that follow. *)
Theorem second_call_same_text (href href' : string) (h : heap) :
  fst (extractPageText href (heap_after href' h)) = fst (extractPageText href h).
Proof. apply extract_same_shape. now rewrite documentElement_after. Qed.

(** ** createButton *)

Lemma appendChild_in_absent (i : nat) (x n : node) :
  ~ In i (uids n) -> appendChild_in i x n = n.
Proof.
  induction n as [s|s|j t a cs IH] using node_ind'; try (intros; reflexivity).
  rewrite uids_Element. intros H. cbn [appendChild_in].
  destruct (Nat.eqb_spec j i) as [->|_]; [exfalso; apply H; now left|].
  rewrite app_nil_r. f_equal. apply map_id_Forall.
  rewrite Forall_forall in *. intros c Hc. apply IH; [exact Hc|].
  intros Hin. apply H. right. apply in_flat_map. now exists c.
Qed.

Section Append.

Variable i : nat.
Variable x : node.

Local Abbreviation A := (appendChild_in i x).

Lemma append_is_element (n : node) : is_element (A n) = is_element n.
Proof. now destruct n. Qed.

Lemma append_uid (n : node) : uid_of (A n) = uid_of n.
Proof. now destruct n. Qed.

Lemma append_tagName (n : node) : tagName_of (A n) = tagName_of n.
Proof. now destruct n. Qed.

Lemma append_tag (n : node) : tag_of (A n) = tag_of n.
Proof. unfold tag_of. now rewrite append_tagName. Qed.

Lemma append_attributes (n : node) : attributes_of (A n) = attributes_of n.
Proof. now destruct n. Qed.

Lemma append_matches (c : compound) (n : node) : matches c (A n) = matches c n.
Proof.
  unfold matches, classList, className.
  now rewrite append_is_element, append_tag, append_attributes.
Qed.

Lemma append_matches_any (l : list compound) (n : node) :
  matches_any l (A n) = matches_any l n.
Proof.
  unfold matches_any. induction l as [|c l IH]; [reflexivity|]. simpl.
  now rewrite append_matches, IH.
Qed.

(** A query that selects nothing in [x] selects in the new tree the
    elements it selected before. *)
Lemma append_filter_subtree (p : node -> bool) (n : node) :
  (forall e, p (A e) = p e) ->
  Forall (fun e => p e = false) (subtree x) ->
  filter p (subtree (A n)) = map A (filter p (subtree n)).
Proof.
  intros Hp Hx. induction n as [s|s|j t a cs IH] using node_ind'; try reflexivity.
  pose proof (Hp (Element j t a cs)) as Hn.
  cbn [appendChild_in] in *. cbn [subtree filter]. rewrite Hn.
  assert (E : filter p (flat_map subtree
                          (map A cs ++ (if j =? i then [x] else [])))
              = map A (filter p (flat_map subtree cs))).
  { rewrite flat_map_app, filter_app.
    replace (filter p (flat_map subtree (if j =? i then [x] else []))) with (@nil node).
    - rewrite app_nil_r, flat_map_map, <- !filter_flat_map, map_flat_map.
      now apply flat_map_ext_Forall.
    - destruct (j =? i); [|reflexivity]. cbn [flat_map]. rewrite app_nil_r.
      symmetry. clear -Hx. induction Hx as [|e l He _ IHl]; [reflexivity|].
      cbn [filter]. now rewrite He. }
  rewrite E. now destruct (p (Element j t a cs)).
Qed.

Lemma append_select_within (a c : compound) (n : node) :
  (forall inside, select_within a c inside x = []) ->
  forall inside,
    select_within a c inside (A n) = map A (select_within a c inside n).
Proof.
  intros Hx. induction n as [s|s|j t b cs IH] using node_ind'; intros inside;
    try reflexivity.
  pose proof (append_matches c (Element j t b cs)) as Hc.
  pose proof (append_matches a (Element j t b cs)) as Ha.
  cbn [appendChild_in] in *. cbn [select_within]. rewrite Hc, Ha, map_app. f_equal.
  - now destruct (inside && matches c (Element j t b cs)).
  - rewrite flat_map_app.
    replace (flat_map (select_within a c (inside || matches a (Element j t b cs)))
               (if j =? i then [x] else [])) with (@nil node).
    + rewrite app_nil_r, flat_map_map, map_flat_map. apply flat_map_ext_Forall.
      eapply Forall_impl; [|exact IH]. intros e He. apply He.
    + destruct (j =? i); [|reflexivity]. cbn [flat_map]. now rewrite Hx.
Qed.

(** The subtree of [x] is in the new tree when [i] names an element. *)
Lemma append_subtree_incl (n e : node) :
  In i (uids n) -> In e (subtree x) -> In e (subtree (A n)).
Proof.
  induction n as [s|s|j t a cs IH] using node_ind';
    [intros [] | intros [] |].
  rewrite uids_Element. intros Hi He. cbn [appendChild_in subtree]. right.
  apply in_flat_map. destruct (Nat.eqb_spec j i) as [->|Hj].
  - exists x. split; [|exact He]. apply in_or_app. right. now left.
  - destruct Hi as [Hi|Hi]; [contradiction|].
    apply in_flat_map in Hi as [c [Hc Hi]]. exists (A c). split.
    + apply in_or_app. left. now apply in_map.
    + rewrite Forall_forall in IH. now apply IH.
Qed.

Lemma append_map_attrs (P : node -> bool) (f : attrs -> attrs) (n : node) :
  (forall e, P (A e) = P e) ->
  Forall (fun e => P e = false) (subtree x) ->
  map_attrs_where P f (A n) = A (map_attrs_where P f n).
Proof.
  intros HP Hx. induction n as [s|s|j t a cs IH] using node_ind'; try reflexivity.
  pose proof (HP (Element j t a cs)) as Hn.
  cbn [appendChild_in map_attrs_where] in *. rewrite Hn. f_equal.
  rewrite map_app, !map_map. f_equal.
  - apply map_ext_in. intros c Hc. rewrite Forall_forall in IH. now apply IH.
  - destruct (j =? i); [|reflexivity]. cbn [map]. now rewrite map_attrs_id.
Qed.

Lemma append_below (g : node -> node) (n : node) :
  (forall c, g (A c) = A (g c)) -> g x = x -> below g (A n) = A (below g n).
Proof.
  intros Hg Hx. destruct n as [s|s|j t a cs]; try reflexivity.
  cbn [appendChild_in below]. f_equal. rewrite map_app, !map_map. f_equal.
  - apply map_ext. intros c. apply Hg.
  - destruct (j =? i); [|reflexivity]. cbn [map]. now rewrite Hx.
Qed.

Lemma append_prune (l : list compound) (n : node) :
  matches_any l x = true ->
  prune (matches_any l) (A n) = prune (matches_any l) n.
Proof.
  intros Hx. induction n as [s|s|j t a cs IH] using node_ind'; try reflexivity.
  cbn [appendChild_in prune]. f_equal. rewrite flat_map_app.
  replace (flat_map (fun c => if matches_any l c then [] else [prune (matches_any l) c])
             (if j =? i then [x] else [])) with (@nil node).
  - rewrite app_nil_r, flat_map_map. apply flat_map_ext_Forall.
    eapply Forall_impl; [|exact IH]. intros c Hc.
    rewrite append_matches_any. now rewrite Hc.
  - destruct (j =? i); [|reflexivity]. cbn [flat_map]. now rewrite Hx.
Qed.

Lemma append_holds_pre (e : node) :
  Forall (fun y => matches (ByTag "pre") y = false) (subtree x) ->
  holds_pre (A e) = holds_pre e.
Proof.
  intros Hx. destruct (is_element e) eqn:E; [|now destruct e].
  rewrite !holds_pre_spec by (now rewrite ?append_is_element).
  rewrite <- !is_some_hd_filter.
  rewrite (append_filter_subtree _ e (append_matches (ByTag "pre")) Hx).
  now destruct (filter (matches (ByTag "pre")) (subtree e)).
Qed.

End Append.

(** The wrapper is removed by the strip phase, and nothing in it is
    looked for by the extraction. *)
Lemma wrapper_stripped (k : nat) : matches_any strip_compounds (new_wrapper k) = true.
Proof. reflexivity. Qed.

Lemma wrapper_inert (k : nat) :
  Forall (fun e => matches (ByTag "article") e = false
                   /\ is_content_area e = false
                   /\ matches (ByTag "main") e = false
                   /\ matches (ByTag "h1") e = false
                   /\ matches (ByTag "pre") e = false
                   /\ is_tabpanel e = false
                   /\ aria_hidden e = false)
         (subtree (new_wrapper k)).
Proof. repeat constructor. Qed.

Lemma wrapper_inert_for (k : nat) (p : node -> bool) :
  (forall e, matches (ByTag "article") e = false ->
             is_content_area e = false ->
             matches (ByTag "main") e = false ->
             matches (ByTag "h1") e = false ->
             matches (ByTag "pre") e = false ->
             is_tabpanel e = false -> aria_hidden e = false -> p e = false) ->
  Forall (fun e => p e = false) (subtree (new_wrapper k)).
Proof.
  intros H. eapply Forall_impl; [|apply (wrapper_inert k)].
  intros e (H1 & H2 & H3 & H4 & H5 & H6 & H7). now apply H.
Qed.

Lemma find_hd_filter {A : Type} (p : A -> bool) (l : list A) :
  find p l = hd_error (filter p l).
Proof. induction l as [|y l IH]; [reflexivity|]. simpl. now destruct (p y). Qed.

Lemma content_root_append (i k : nat) (h : heap) :
  content_root (appendChild i (new_wrapper k) h)
  = option_map (appendChild_in i (new_wrapper k)) (content_root h).
Proof.
  unfold content_root, document_querySelector, document_getElementById.
  cbn [appendChild documentElement select].
  rewrite !find_hd_filter, !or_else_map, <- !hd_error_map.
  rewrite !append_filter_subtree; try reflexivity.
  - intros e. apply append_matches.
  - apply wrapper_inert_for. auto.
  - intros e. now rewrite append_attributes.
  - apply wrapper_inert_for. auto.
  - intros e. apply append_matches.
  - apply wrapper_inert_for. auto.
Qed.

Lemma titleEl_append (i k : nat) (h : heap) :
  titleEl (appendChild i (new_wrapper k) h)
  = option_map (appendChild_in i (new_wrapper k)) (titleEl h).
Proof.
  unfold titleEl, document_querySelector.
  cbn [appendChild documentElement select].
  rewrite !or_else_map, <- !hd_error_map.
  rewrite !append_select_within by (now intros []).
  rewrite append_filter_subtree; try reflexivity.
  - intros e. apply append_matches.
  - apply wrapper_inert_for. auto.
Qed.

(** The cleaned content root is the same with and without the wrapper. *)
Lemma cleaned_append (i k : nat) (root : node) :
  prune stripped
    (below reveal_hidden_code_pass
       (below reveal_tabpanels_pass (appendChild_in i (new_wrapper k) root)))
  = prune stripped (below reveal_hidden_code_pass (below reveal_tabpanels_pass root)).
Proof.
  assert (Ht : forall c, reveal_tabpanels_pass (appendChild_in i (new_wrapper k) c)
                         = appendChild_in i (new_wrapper k) (reveal_tabpanels_pass c)).
  { intros c. apply append_map_attrs.
    - intros e. apply append_matches.
    - apply wrapper_inert_for. auto. }
  assert (Hh : forall c, reveal_hidden_code_pass (appendChild_in i (new_wrapper k) c)
                         = appendChild_in i (new_wrapper k) (reveal_hidden_code_pass c)).
  { intros c. apply append_map_attrs.
    - intros e. unfold aria_hidden. rewrite append_matches, append_holds_pre;
        [reflexivity|]. apply wrapper_inert_for. auto.
    - apply wrapper_inert_for. intros e _ _ _ _ _ _ ->. reflexivity. }
  rewrite append_below; [|exact Ht|].
  - rewrite append_below; [|exact Hh|].
    + apply append_prune. apply wrapper_stripped.
    + apply map_attrs_id. apply wrapper_inert_for. intros e _ _ _ _ _ _ ->. reflexivity.
  - apply map_attrs_id. apply wrapper_inert_for. auto.
Qed.

(** ** Where the body is *)

Lemma subtree_trans (e t d : node) :
  In e (subtree t) -> In t (subtree d) -> In e (subtree d).
Proof.
  intros He. induction d as [s|s|j b a cs IH] using node_ind';
    [intros [] | intros [] |].
  cbn [subtree]. intros [<-|Ht]; [exact He|]. right.
  apply in_flat_map in Ht as [c [Hc Ht]]. apply in_flat_map. exists c.
  split; [exact Hc|]. rewrite Forall_forall in IH. now apply IH.
Qed.

Lemma uids_subtree_incl (t d : node) (j : nat) :
  In t (subtree d) -> In j (uids t) -> In j (uids d).
Proof.
  intros Ht Hj. apply in_map_iff in Hj as [e [<- He]]. apply in_map.
  now apply (subtree_trans e t d).
Qed.

Lemma NoDup_flat_map_same {A B : Type} (g : A -> list B) (l : list A) (x y : A) (z : B) :
  NoDup (flat_map g l) -> In x l -> In y l -> In z (g x) -> In z (g y) -> x = y.
Proof.
  induction l as [|w l IH]; [easy|]. cbn [flat_map]. intros H Hx Hy Zx Zy.
  destruct Hx as [->|Hx], Hy as [->|Hy]; try reflexivity.
  - exfalso. apply (NoDup_app_disjoint _ _ z H Zx). apply in_flat_map. now exists y.
  - exfalso. apply (NoDup_app_disjoint _ _ z H Zy). apply in_flat_map. now exists x.
  - apply IH; try assumption. now apply NoDup_app_remove_l in H.
Qed.

(** In a tree of distinct objects, the elements that hold a child [c] of
    the root are the root and [c]. *)
Lemma above_child (d c t : node) :
  NoDup (uids d) -> In c (childNodes_of d) -> is_element c = true ->
  In t (subtree d) -> In (uid_of c) (uids t) -> t = d \/ t = c.
Proof.
  intros Hd Hc Ec Ht Hu.
  destruct d as [s|s|j0 t0 a0 cs0]; [destruct Ht | destruct Ht |].
  cbn [childNodes_of] in Hc. destruct Ht as [<-|Ht]; [now left|right].
  rewrite uids_Element in Hd. inversion Hd as [|? ? _ Hcs]; subst.
  apply in_flat_map in Ht as [c1 [Hc1 Ht]].
  assert (c1 = c) as ->.
  { apply (NoDup_flat_map_same uids cs0 c1 c (uid_of c) Hcs Hc1 Hc).
    - now apply (uids_subtree_incl t c1).
    - now apply uid_in_uids. }
  pose proof (NoDup_flat_map_In uids cs0 c Hcs Hc) as Hnc.
  rewrite (subtree_self c Ec) in Ht. destruct Ht as [<-|Ht]; [reflexivity|].
  exfalso. apply (root_not_below c Ec Hnc).
  apply in_map_iff in Hu as [e [Eu He]]. apply in_map_iff. exists e.
  split; [exact Eu|]. unfold descendants in *.
  apply in_flat_map in Ht as [c2 [Hc2 Ht]]. apply in_flat_map. exists c2.
  split; [exact Hc2|]. now apply (subtree_trans e t c2).
Qed.

Lemma document_body_spec (h : heap) (body : node) :
  document_body h = Some body ->
  tag_of (documentElement h) = "html"
  /\ In body (childNodes_of (documentElement h)) /\ is_element body = true
  /\ (tag_of body = "body" \/ tag_of body = "frameset").
Proof.
  unfold document_body.
  destruct (String.eqb_spec (tag_of (documentElement h)) "html") as [E|_];
    [|discriminate].
  intros H. apply find_some in H as [Hin Ht]. unfold children_of in Hin.
  apply filter_In in Hin as [Hin He]. repeat split; try assumption.
  apply orb_true_iff in Ht as [Ht|Ht]; apply String.eqb_eq in Ht; auto.
Qed.

Lemma body_in_document (h : heap) (body : node) :
  document_body h = Some body -> In (uid_of body) (uids (documentElement h)).
Proof.
  intros H. apply document_body_spec in H as (_ & Hin & He & _).
  destruct (documentElement h) as [s|s|j t a cs]; [destruct Hin | destruct Hin |].
  rewrite uids_Element. right. apply in_flat_map. exists body.
  split; [exact Hin | now apply uid_in_uids].
Qed.

(** The title element is not above the body. *)
Lemma title_lines_append (k : nat) (h : heap) (body : node) :
  NoDup (uids (documentElement h)) -> document_body h = Some body ->
  title_lines (appendChild (uid_of body) (new_wrapper k) h) = title_lines h.
Proof.
  intros Hd Hb. unfold title_lines. rewrite titleEl_append.
  destruct (titleEl h) as [t|] eqn:Ht; [|reflexivity]. cbn [option_map].
  rewrite appendChild_in_absent; [reflexivity|]. intros Hin.
  apply titleEl_is_h1 in Ht as [Ht Htag].
  apply document_body_spec in Hb as (Hhtml & Hc & He & Hbody).
  destruct (above_child _ body t Hd Hc He Ht Hin) as [->| ->].
  - rewrite Hhtml in Htag. discriminate.
  - destruct Hbody as [E|E]; rewrite E in Htag; discriminate.
Qed.

(** ** What createButton does to the page *)

Lemma createButton_cases (h h' : heap) :
  createButton h = Some h' ->
  (is_some (document_getElementById BUTTON_ID h) = true /\ h' = h)
  \/ (document_getElementById BUTTON_ID h = None
      /\ exists body, document_body h = Some body
                      /\ h' = appendChild (uid_of body) (new_wrapper (fresh h)) h).
Proof.
  unfold createButton.
  destruct (document_getElementById BUTTON_ID h) as [b|] eqn:Eb.
  - intros [= <-]. now left.
  - destruct (document_body h) as [body|] eqn:Ebody; [|discriminate].
    intros [= <-]. right. split; [reflexivity|]. now exists body.
Qed.

(** After a call that returns, the document holds an element with the id
    of the button, and a further call changes nothing: however often the
    observer calls the function, the page gets one button. *)
Theorem createButton_once (h h' : heap) :
  createButton h = Some h' ->
  is_some (document_getElementById BUTTON_ID h') = true
  /\ createButton h' = Some h'.
Proof.
  intros H.
  assert (Hid : is_some (document_getElementById BUTTON_ID h') = true).
  { destruct (createButton_cases h h' H) as [[Hb ->]|[_ [body [Hbody ->]]]];
      [exact Hb|].
    unfold document_getElementById. cbn [appendChild documentElement].
    destruct (find _ _) eqn:E; [reflexivity|]. exfalso.
    pose proof (find_none _ _ E
                  (Element (fresh h + 1) "BUTTON"
                     [("id", BUTTON_ID); ("style", button_style)]
                     (button_content (fresh h + 2)))) as Hn.
    cbv beta in Hn. cbn [attributes_of getAttribute String.eqb] in Hn.
    assert (Hin : In (Element (fresh h + 1) "BUTTON"
                        [("id", BUTTON_ID); ("style", button_style)]
                        (button_content (fresh h + 2)))
                     (subtree (appendChild_in (uid_of body) (new_wrapper (fresh h))
                                 (documentElement h)))).
    { apply append_subtree_incl; [now apply body_in_document|].
      right. now left. }
    specialize (Hn Hin). discriminate. }
  split; [exact Hid|]. unfold createButton.
  now destruct (document_getElementById BUTTON_ID h').
Qed.

Lemma createButton_once_witness :
  is_some (document_getElementById BUTTON_ID page_with_button) = true
  /\ createButton page_with_button = Some page_with_button.
Proof.
  apply (createButton_once page_ordered_list page_with_button). reflexivity.
Defined.

Lemma remove_append (k i : nat) (x n : node) :
  uid_of x = k -> is_element x = true -> ~ In k (uids n) ->
  remove_in k (appendChild_in i x n) = n.
Proof.
  intros Hx Ex. induction n as [s|s|j t a cs IH] using node_ind';
    try (intros; reflexivity).
  rewrite uids_Element. intros Hk. cbn [appendChild_in remove_in]. f_equal.
  rewrite map_app, filter_app, map_map.
  replace (filter (fun c => negb (is_element c && (uid_of c =? k)))
             (map (remove_in k) (if j =? i then [x] else []))) with (@nil node).
  - rewrite app_nil_r.
    replace (map (fun c => remove_in k (appendChild_in i x c)) cs) with cs.
    + apply filter_all. apply Forall_forall. intros c Hc.
      destruct (is_element c) eqn:Ec; [|reflexivity]. cbn [andb].
      destruct (Nat.eqb_spec (uid_of c) k) as [E|_]; [|reflexivity].
      exfalso. apply Hk. right. apply in_flat_map. exists c.
      split; [exact Hc|]. rewrite <- E. now apply uid_in_uids.
    + symmetry. apply map_id_Forall. rewrite Forall_forall in *.
      intros c Hc. apply IH; [exact Hc|]. intros Hin. apply Hk. right.
      apply in_flat_map. now exists c.
  - destruct (j =? i); [|reflexivity]. cbn [map filter].
    now rewrite remove_in_is_element, remove_in_uid, Ex, Hx, Nat.eqb_refl.
Qed.

(** The wrapper is all the call adds: with the wrapper removed, the heap
    is the heap the call found. *)
Theorem createButton_adds_wrapper_only (h h' : heap) :
  createButton h = Some h' -> remove (fresh h) h' = h.
Proof.
  intros H.
  assert (Hold : forall t, In t (trees h) -> ~ In (fresh h) (uids t)).
  { intros t Ht Hin. pose proof (fresh_above h t (fresh h) Ht Hin). lia. }
  assert (Hkeep : remove (fresh h) h = h).
  { unfold remove. destruct h as [doc det]. cbn [documentElement detached] in *.
    f_equal.
    - apply remove_in_absent. apply Hold. now left.
    - apply map_id_Forall. apply Forall_forall. intros t Ht.
      apply remove_in_absent. apply Hold. now right. }
  destruct (createButton_cases h h' H) as [[_ ->]|[_ [body [_ ->]]]];
    [exact Hkeep|].
  unfold remove, appendChild. destruct h as [doc det].
  cbn [documentElement detached] in *. f_equal.
  - apply remove_append; try reflexivity. apply Hold. now left.
  - rewrite map_map. apply map_id_Forall. apply Forall_forall. intros t Ht.
    apply remove_append; try reflexivity. apply Hold. now right.
Qed.

Lemma createButton_adds_wrapper_only_witness :
  remove (fresh page_ordered_list) page_with_button = page_ordered_list.
Proof.
  apply (createButton_adds_wrapper_only page_ordered_list page_with_button).
  reflexivity.
Defined.

(** The button never shows up in the copied text: on a page whose
    elements are distinct objects, the text extracted after the call is
    the text extracted before it, wherever the content root is. *)
Theorem button_not_copied (href : string) (h h' : heap) :
  NoDup (uids (documentElement h)) ->
  createButton h = Some h' ->
  fst (extractPageText href h') = fst (extractPageText href h).
Proof.
  intros Hd H.
  destruct (createButton_cases h h' H) as [[_ ->]|[_ [body [Hbody ->]]]];
    [reflexivity|].
  remember (uid_of body) as i eqn:Ei. remember (fresh h) as k eqn:Ek.
  pose proof (content_root_append i k h) as Hr.
  destruct (content_root h) as [root|] eqn:Hroot; cbn [option_map] in Hr.
  - rewrite (extract_result href _ _ Hr), (extract_result href h root Hroot).
    rewrite Ei, (title_lines_append k h body Hd Hbody), <- Ei.
    rewrite (body_lines_root href _ _ Hr), (body_lines_root href h root Hroot).
    pose proof (content_root_is_element _ _ Hroot) as Er.
    rewrite (walk_of_cleaned (appendChild_in i (new_wrapper k) root) root
               (appendChild i (new_wrapper k) h) h); [reflexivity | | exact Er |].
    + now rewrite append_is_element.
    + rewrite <- !forget_cleaned. now rewrite cleaned_append.
  - now rewrite !extract_without_root.
Qed.

Lemma button_not_copied_witness :
  fst (extractPageText "https://docs.example/intro" page_with_button)
  = fst (extractPageText "https://docs.example/intro" page_ordered_list).
Proof.
  apply (button_not_copied "https://docs.example/intro" page_ordered_list).
  - repeat constructor; simpl; intuition lia.
  - reflexivity.
Defined.

(** ** The root of the clone *)

(** The cleaning phases query below the clone, so its root is left as it
    is: a content root that is itself a tab panel or hidden from
    assistive technology, or that a strip selector matches, keeps its
    attributes and is the tree the walk reads. *)
Theorem clone_root_kept (href : string) (h : heap) (root : node) :
  content_root h = Some root ->
  exists c, walked_tree href h = Some c
            /\ uid_of c = fresh h
            /\ tagName_of c = tagName_of root
            /\ attributes_of c = attributes_of root.
Proof.
  intros Hroot. pose proof (content_root_is_element h root Hroot) as Er.
  exists (clean_in (fresh_clone root h)).
  split; [now apply walked_tree_clean|].
  rewrite clean_in_pass
    by (try apply fresh_clone_NoDup; now rewrite fresh_clone_is_element).
  unfold fresh_clone. destruct root as [s|s|i t a cs]; try discriminate.
  rewrite copy_node_Element. cbn. auto.
Qed.

Lemma clone_root_kept_witness :
  exists c, walked_tree "https://docs.example/intro" page_hidden_root = Some c
            /\ uid_of c = fresh page_hidden_root
            /\ tagName_of c = "MAIN"
            /\ attributes_of c = [("aria-hidden", "true"); ("role", "tabpanel")].
Proof.
  apply (clone_root_kept "https://docs.example/intro" page_hidden_root
           (Element 4 "MAIN" [("aria-hidden", "true"); ("role", "tabpanel")]
              [Element 5 "P" [] [Text "Body"]])).
  reflexivity.
Defined.

(** ** Text directly under the content root *)

Lemma walk_parent_ext (p p' n : node) (d : nat) :
  tag_of p = tag_of p' -> children_of p = children_of p' ->
  walk p n d = walk p' n d.
Proof.
  intros Ht Hc. destruct n as [s|s|i t a cs]; try reflexivity.
  cbn [walk]. now rewrite Ht, Hc.
Qed.

(** The loop over the clone goes through its element children only: the
    text nodes and comments that are children of the content root itself
    push nothing, while below the root every text node is visited. *)
Theorem root_text_dropped (i : nat) (t : string) (a : attrs) (cs : list node) :
  walk_clone (Element i t a cs) = walk_clone (Element i t a (filter is_element cs))
  /\ forall j b, walk_clone (Element i t a [Element j "DIV" b cs])
                   = flat_map (fun c => walk (Element j "DIV" b cs) c 1) cs.
Proof.
  split.
  - unfold walk_clone, children_of. cbn [childNodes_of].
    assert (E : filter is_element (filter is_element cs) = filter is_element cs).
    { induction cs as [|c cs IH]; [reflexivity|]. cbn [filter].
      destruct (is_element c) eqn:Ec; cbn [filter]; [|exact IH].
      now rewrite Ec, IH. }
    rewrite E. apply flat_map_ext. intros c.
    destruct (truthy (tagName_of c) && (tag_of c =? "h1")%string); [reflexivity|].
    apply walk_parent_ext; [reflexivity|].
    unfold children_of. cbn [childNodes_of]. now rewrite E.
  - intros j b. unfold walk_clone, children_of. cbn. now rewrite app_nil_r.
Qed.

(** ** Quotations *)

Lemma split_on_nonempty (p : ascii -> bool) (s : string) : split_on p s <> [].
Proof.
  destruct s as [|c s]; [discriminate|]. simpl.
  destruct (p c); [discriminate|]. now destruct (split_on p s).
Qed.

Lemma join_String (sep : string) (c : ascii) (w : string) (ws : list string) :
  join sep (String c w :: ws) = String c (join sep (w :: ws)).
Proof. now destruct ws. Qed.

Lemma join_split_on (s : string) : join NL (split_on is_newline s) = s.
Proof.
  induction s as [|c s IH]; [reflexivity|]. cbn [split_on].
  destruct (is_newline c) eqn:E.
  - rewrite join_cons by apply split_on_nonempty. rewrite IH.
    apply is_newline_eq in E. now subst.
  - destruct (split_on is_newline s) as [|w ws] eqn:Es.
    + now destruct (split_on_nonempty is_newline s).
    + rewrite join_String. now rewrite IH.
Qed.

Lemma split_on_no_newline (s : string) :
  Forall (fun l => no_newline l = true) (split_on is_newline s).
Proof.
  induction s as [|c s IH]; [now repeat constructor|]. cbn [split_on].
  destruct (is_newline c) eqn:E; [now constructor|].
  destruct (split_on is_newline s) as [|w ws]; [now repeat constructor; simpl; rewrite E|].
  inversion IH as [|? ? Hw Hws]; subst. constructor; [|exact Hws].
  simpl. now rewrite E, Hw.
Qed.

(** A block quote pushes, between two blank fragments, its text without
    the white space at its ends, with [> ] in front of each of its lines:
    taking the marks away and joining the lines again gives the trimmed
    text back. *)
Theorem blockquote_lines (parent n : node) (d : nat) :
  tag_of n = "blockquote" ->
  exists ls,
    walk parent n d = [""; join NL (map (fun l => ("> " ++ l)%string) ls); ""]
    /\ join NL ls = trim (textContent n)
    /\ Forall (fun l => no_newline l = true) ls.
Proof.
  intros H. exists (split_on is_newline (trim (textContent n))).
  split; [|split].
  - destruct n as [s|s|i t a cs]; try discriminate. cbn [walk]. now rewrite H.
  - apply join_split_on.
  - apply split_on_no_newline.
Qed.

Lemma blockquote_lines_witness :
  exists ls,
    walk (Element 9 "ARTICLE" [] [])
         (Element 10 "BLOCKQUOTE" [] [Text "
first
second
"]) 0
    = [""; join NL (map (fun l => ("> " ++ l)%string) ls); ""]
    /\ join NL ls = "first
second"
    /\ Forall (fun l => no_newline l = true) ls.
Proof.
  apply (blockquote_lines (Element 9 "ARTICLE" [] [])
           (Element 10 "BLOCKQUOTE" [] [Text "
first
second
"]) 0).
  reflexivity.
Defined.

(** ** Inline code *)

Lemma descends_not_pre (parent n : node) :
  descends parent n = true -> tag_of n <> "pre".
Proof.
  unfold descends. intros H E. rewrite E in H.
  destruct (is_element n); [|discriminate]. cbn in H. discriminate.
Qed.

Lemma visits_walk_parent (parent n m : node) :
  visits parent n m ->
  forall d, exists parent' d' l1 l2,
    walk parent n d = l1 ++ walk parent' m d' ++ l2
    /\ (parent' = parent \/ tag_of parent' <> "pre").
Proof.
  induction 1 as [parent n|parent n c m Hd Hc _ IH]; intros d.
  - exists parent, d, [], []. rewrite app_nil_r. auto.
  - destruct (walk_descends parent n c d Hd Hc) as [d1 [l1 [l2 E]]].
    destruct (IH d1) as [parent' [d' [l3 [l4 [E' Hp]]]]].
    exists parent', d', (l1 ++ l3), (l4 ++ l2). split.
    + rewrite E, E'. now rewrite <- !app_assoc.
    + right. destruct Hp as [->|Hp]; [|exact Hp]. now apply (descends_not_pre parent).
Qed.

Lemma walk_code (parent n : node) (d : nat) :
  tag_of n = "code" -> tag_of parent <> "pre" ->
  walk parent n d = [("`" ++ trim (textContent n) ++ "`")%string].
Proof.
  intros H Hp. destruct n as [s|s|i t a cs]; try discriminate.
  cbn [walk]. rewrite H. cbn.
  destruct (String.eqb_spec (tag_of parent) "pre"); [contradiction|reflexivity].
Qed.

(** A [code] element the walk visits outside a [pre] stands in the result
    between backquotes, with the white space at the ends of its text
    removed.  The content root counts as the parent of its children. *)
Theorem visited_code_in_result (href : string) (h : heap) (root c m : node) :
  content_root h = Some root ->
  walked_tree href h = Some c ->
  tag_of c <> "pre" ->
  visited c m -> tag_of m = "code" ->
  Substring (collapse_newlines ("`" ++ trim (textContent m) ++ "`"))
            (fst (extractPageText href h)).
Proof.
  intros Hroot Hc Hpre [child [Hin [Hskip Hv]]] Hm.
  destruct (visits_walk_parent c child m Hv 0) as [parent' [d' [l3 [l4 [E Hp]]]]].
  assert (Hp' : tag_of parent' <> "pre") by (destruct Hp as [->|Hp]; assumption).
  set (x := ("`" ++ trim (textContent m) ++ "`")%string).
  assert (Ex : trim x = x).
  { apply trim_solid_id; [reflexivity|]. unfold x.
    change ("`" ++ trim (textContent m) ++ "`")%string
      with ("`" ++ trim (textContent m) ++ String "`" "")%string.
    rewrite <- !append_assoc. now apply ends_solid_snoc_string. }
  rewrite <- Ex. apply (fragment_kept href h root x Hroot).
  - apply in_or_app. right. unfold body_lines. rewrite Hc. unfold walk_clone.
    destruct (flat_map_In_split
                (fun child => if truthy (tagName_of child) && (tag_of child =? "h1")%string
                              then [] else walk c child 0)
                (children_of c) child Hin) as [l1 [l2 E']].
    rewrite E'. unfold skipped in Hskip. rewrite Hskip, E.
    rewrite (walk_code parent' m d' Hm Hp').
    apply in_or_app. right. apply in_or_app. left.
    apply in_or_app. right. now left.
  - rewrite Ex. discriminate.
Qed.

Lemma visited_code_in_result_witness :
  Substring (collapse_newlines ("`" ++ trim " make " ++ "`"))
            (fst (extractPageText "https://docs.example/intro" page_inline_code)).
Proof.
  pose (code := Element 9 "CODE" [] [Text " make "]).
  pose (p := Element 8 "P" [] [Text "Run "; code; Text " first."]).
  pose (c := Element 7 "ARTICLE" [] [p]).
  apply (visited_code_in_result "https://docs.example/intro" page_inline_code
           (Element 4 "ARTICLE" []
              [Element 5 "P" []
                 [Text "Run "; Element 6 "CODE" [] [Text " make "]; Text " first."]])
           c code).
  - reflexivity.
  - reflexivity.
  - discriminate.
  - exists p. split; [now left|]. split; [reflexivity|].
    apply (visits_child c p code code);
      [reflexivity | right; now left | apply visits_here].
  - reflexivity.
Defined.
